(** * Keyframe retrieval engine: a shallow embedding of the search core

    The development follows the Python sources of the retrieval backend:
    - [backend/utils/faiss_processing.py]       (CLIP text truncation),
    - [backend/utils/faiss_processing_beit3.py] (the [MyFaiss] engine: text,
      image and temporal search),
    - [backend/services/search_service.py]      (thresholds, multi-model fusion),
    - [backend/services/temporal_service.py]    (the temporal service wrapper),
    - [backend/features/features-longclip/longclip_wrapper.py].

    Scores are modelled as rationals ([Q]): every arithmetic step of the
    source that the statements below depend on is a comparison, a sum, a
    product or a quotient.  Python strings are modelled as [string]; [len]
    counts the characters of the string.  Python integers are [Z]. *)

From Stdlib Require Import ZArith QArith Qminmax Lqa Lia List Ascii String DecimalString DecimalZ Sorted Permutation.
From stdpp Require Import gmap strings list sorting.

Open Scope Z_scope.

(** ** Python string helpers *)
Module Py.

(** [str.isspace] on the ASCII range: TAB..CR, FS..US and the blank. *)
Definition is_space (c : ascii) : bool :=
  let n := nat_of_ascii c in
  ((9 <=? n)%nat && (n <=? 13)%nat) || ((28 <=? n)%nat && (n <=? 32)%nat).

Fixpoint lstrip_l (l : list ascii) : list ascii :=
  match l with
  | c :: l' => if is_space c then lstrip_l l' else l
  | [] => []
  end.

Definition rstrip_l (l : list ascii) : list ascii := rev (lstrip_l (rev l)).

(** [s.strip()] *)
Definition strip (s : string) : string :=
  string_of_list_ascii (rstrip_l (lstrip_l (list_ascii_of_string s))).

(** [len(s)] *)
Definition len (s : string) : Z := Z.of_nat (String.length s).

(** Truthiness of a string: [if s]. *)
Definition truthy (s : string) : bool :=
  match s with EmptyString => false | _ => true end.

(** Resolution of a slice bound against a sequence of length [n]. *)
Definition clamp (n i : Z) : Z :=
  if i <? 0 then Z.max 0 (n + i) else Z.min i n.

(** [s[:i]] *)
Definition slice_to (s : string) (i : Z) : string :=
  substring 0 (Z.to_nat (clamp (len s) i)) s.

(** [s[i:]] *)
Definition slice_from (s : string) (i : Z) : string :=
  let start := clamp (len s) i in
  substring (Z.to_nat start) (Z.to_nat (len s - start)) s.

(** [s.split(sep)] for a one-character separator. *)
Fixpoint split_l (sep : ascii) (l : list ascii) : list (list ascii) :=
  match l with
  | [] => [[]]
  | c :: l' =>
      if Ascii.eqb c sep then [] :: split_l sep l'
      else match split_l sep l' with
           | w :: ws => (c :: w) :: ws
           | [] => [[c]]
           end
  end.

Definition split (sep : ascii) (s : string) : list string :=
  map string_of_list_ascii (split_l sep (list_ascii_of_string s)).

(** [s.rfind(c) + 1]: the position just after the last [c], 0 when absent. *)
Fixpoint after_last (c : ascii) (l : list ascii) (pos : nat) (acc : nat) : nat :=
  match l with
  | [] => acc
  | x :: l' => after_last c l' (S pos) (if Ascii.eqb x c then S pos else acc)
  end.

Definition slash : ascii := "/"%char.
Definition dot : ascii := "."%char.

(** [os.path.basename] (posixpath). *)
Definition basename (p : string) : string :=
  let l := list_ascii_of_string p in
  string_of_list_ascii (drop (after_last slash l 0 0) l).

Fixpoint rstrip_slash_rev (l : list ascii) : list ascii :=
  match l with
  | c :: l' => if Ascii.eqb c slash then rstrip_slash_rev l' else l
  | [] => []
  end.

(** [os.path.dirname] (posixpath): the head up to the last slash, without
    its trailing slashes unless it consists of slashes only. *)
Definition dirname (p : string) : string :=
  let l := list_ascii_of_string p in
  let head := take (after_last slash l 0 0) l in
  if forallb (fun c => Ascii.eqb c slash) head then string_of_list_ascii head
  else string_of_list_ascii (rev (rstrip_slash_rev (rev head))).

(** [os.path.splitext(p)[0]] for a name without directory part: the text
    before the last dot, unless only dots precede it. *)
Definition splitext_root (p : string) : string :=
  let l := list_ascii_of_string p in
  let i := after_last dot l 0 0 in
  match i with
  | O => p
  | S d => if forallb (fun c => Ascii.eqb c dot) (take d l) then p
           else string_of_list_ascii (take d l)
  end.

Definition digit_val (c : ascii) : option Z :=
  let n := nat_of_ascii c in
  if ((48 <=? n)%nat && (n <=? 57)%nat) then Some (Z.of_nat n - 48) else None.

Definition underscore : ascii := "_"%char.

(** Digits of an integer literal; single underscores may separate digits. *)
Fixpoint parse_digits (l : list ascii) (acc : Z) (after_digit : bool) : option Z :=
  match l with
  | [] => if after_digit then Some acc else None
  | c :: l' =>
      match digit_val c with
      | Some d => parse_digits l' (10 * acc + d) true
      | None =>
          if Ascii.eqb c underscore && after_digit then
            match l' with
            | c' :: _ => match digit_val c' with
                         | Some _ => parse_digits l' acc false
                         | None => None
                         end
            | [] => None
            end
          else None
      end
  end.

(** [int(s)] on ASCII text: surrounding blanks, an optional sign, decimal
    digits.  [None] stands for [ValueError]. *)
Definition int (s : string) : option Z :=
  match rstrip_l (lstrip_l (list_ascii_of_string s)) with
  | c :: l' =>
      if Ascii.eqb c "-"%char then option_map Z.opp (parse_digits l' 0 false)
      else if Ascii.eqb c "+"%char then parse_digits l' 0 false
      else parse_digits (c :: l') 0 false
  | [] => None
  end.

(** [s.lower()] on ASCII letters. *)
Definition lower_char (c : ascii) : ascii :=
  let n := nat_of_ascii c in
  if ((65 <=? n)%nat && (n <=? 90)%nat) then ascii_of_nat (n + 32) else c.

Fixpoint lower (s : string) : string :=
  match s with
  | EmptyString => EmptyString
  | String c s' => String (lower_char c) (lower s')
  end.

(** [sub in s] *)
Fixpoint contains (sub s : string) : bool :=
  String.prefix sub s ||
  match s with
  | EmptyString => false
  | String _ s' => contains sub s'
  end.

(** [l[:i]] for a list. *)
Definition list_slice_to {A} (l : list A) (i : Z) : list A :=
  take (Z.to_nat (clamp (Z.of_nat (length l)) i)) l.

(** [str(n)] for an integer. *)
Definition str_of_int (n : Z) : string := NilZero.string_of_int (Z.to_int n).

End Py.

(** ** Exceptions *)
Inductive exn_kind :=
| NotImplementedError | ValueError | RuntimeError | AttributeError
| AssertionError | KeyError | OtherError.

Record exn := Raise { kind : exn_kind; message : string }.

Inductive result (A : Type) :=
| Ok (a : A)
| Err (e : exn).
Arguments Ok {A} a.
Arguments Err {A} e.

(** ** CLIP text truncation ([faiss_processing.py]) *)
Module Clip.

Definition is_sentence_end (c : ascii) : bool :=
  existsb (Ascii.eqb c) ["."%char; "!"%char; "?"%char; ":"%char; ";"%char].

Definition push (s : string) (c : ascii) : string := (s ++ String c EmptyString)%string.

(** The splitting loop of [_truncate_text_for_clip]: [current] accumulates
    characters and is flushed, stripped, at every sentence-ending mark. *)
Fixpoint split_loop (text : string) (current : string) (sentences : list string)
  : list string :=
  match text with
  | EmptyString =>
      if Py.truthy (Py.strip current) then sentences ++ [Py.strip current]
      else sentences
  | String c rest =>
      if is_sentence_end c
      then split_loop rest EmptyString (sentences ++ [Py.strip (push current c)])
      else split_loop rest (push current c) sentences
  end.

Definition split_sentences (text : string) : list string :=
  split_loop text EmptyString [].

(** [int(max_tokens * 2.4)] and [int(max_tokens * 1.6)]: the product is
    truncated toward zero; for the only value the source passes (77) the
    floating-point products truncate to 184 and 123, as here. *)
Definition first_part (max_tokens : Z) : Z := Z.quot (max_tokens * 12) 5.
Definition last_part (max_tokens : Z) : Z := Z.quot (max_tokens * 8) 5.

Definition joined (first last : string) : string :=
  (first ++ " " ++ last)%string.

Definition head_tail (text : string) (max_tokens : Z) : string :=
  if first_part max_tokens + last_part max_tokens <? Py.len text
  then (Py.slice_to text (first_part max_tokens) ++ "..."
        ++ Py.slice_from text (- last_part max_tokens))%string
  else text.

Definition _truncate_text_for_clip (text : string) (max_tokens : Z) : string :=
  if Py.len text <=? max_tokens * 4 then text
  else
    let sentences := split_sentences text in
    let fallback :=
      if max_tokens * 4 <? Py.len text then head_tail text max_tokens else text in
    match sentences with
    | first :: _ :: _ =>
        let last := List.last sentences EmptyString in
        if Py.len (joined first last) <=? max_tokens * 4 then joined first last
        else if Py.len first <=? max_tokens * 4 then first
        else fallback
    | _ => fallback
    end.

(** The CLIP branch of [text_search]: tokenise and encode; on any exception
    cut the text to its first 50 characters and try once more. *)
Definition encode_with_retry {F : Type} (tokenize_encode : string -> result F)
  (text : string) : result F :=
  match tokenize_encode text with
  | Ok f => Ok f
  | Err _ =>
      let text := if 50 <? Py.len text then Py.slice_to text 50 else text in
      tokenize_encode text
  end.

(** Query preparation of [text_search] for [model_type == "clip"]. *)
Definition clip_text_features {F : Type} (translator : string -> string)
  (tokenize_encode : string -> result F) (text : string) : result F :=
  let text := translator text in
  let text := _truncate_text_for_clip text 77 in
  encode_with_retry tokenize_encode text.

End Clip.

(** ** The temporal aligner: per-video scoring and dynamic programming
    ([MyFaiss.temporal_search], phase 1.4) *)
Module Temporal.

Definition Qltb (a b : Q) : bool := negb (Qle_bool b a).

(** One entry of a sentence's [ranked_units]. *)
Record unit_hit := UnitHit {
  video_id : option string;
  image_path : option string;
  faiss_id : Z;
  score : Q
}.

(** [sims.min()] and [sims.max()]; the source only reaches them with a
    non-empty row ([N >= M >= 2]). *)
Definition smin (sims : list Q) : Q :=
  match sims with
  | [] => 0
  | x :: l => foldl Qmin x l
  end.

Definition smax (sims : list Q) : Q :=
  match sims with
  | [] => 0
  | x :: l => foldl Qmax x l
  end.

Definition eps : Q := 1 # 1000000.

(** Per-sentence min-max normalisation. *)
Definition normalize (sims : list Q) : list Q :=
  if Qltb (smax sims - smin sims) eps
  then map (fun _ => 0%Q) sims
  else map (fun s => (s - smin sims) / (smax sims - smin sims))%Q sims.

Definition anchor_top : nat := 5.
Definition anchor_boost : Q := 1 # 10.
Definition anchor_window : Z := 2.

Definition decay (t j : Z) : Q :=
  (1 - inject_Z (Z.abs (t - j)) / (inject_Z anchor_window + 1))%Q.

(** The row a hit points at: the frame number in the file name, minus one;
    [None] when the path is missing, empty or does not parse. *)
Definition hit_row (h : unit_hit) : option Z :=
  match image_path h with
  | Some p =>
      if Py.truthy p
      then option_map (fun n => n - 1) (Py.int (Py.splitext_root (Py.basename p)))
      else None
  | None => None
  end.

(** [bonus[t] = torch.maximum(bonus[t], anchor_boost * decay)] *)
Definition bump (j : Z) (bonus : list Q) (t : Z) : list Q :=
  match bonus !! Z.to_nat t with
  | Some b => <[Z.to_nat t := Qmax b (anchor_boost * decay t j)]> bonus
  | None => bonus
  end.

(** The body of the loop over [hits[:anchor_top]] for one hit. *)
Definition apply_hit (N : Z) (bonus : list Q) (h : unit_hit) : list Q :=
  match hit_row h with
  | Some j =>
      if (0 <=? j) && (j <? N) then
        let L := Z.max 0 (j - anchor_window) in
        let R := Z.min N (j + anchor_window + 1) in
        foldl (bump j) bonus (seqZ L (R - L))
      else bonus
  | None => bonus
  end.

Definition hits_of_video (vid : string) (ranked_units : list unit_hit) : list unit_hit :=
  List.filter (fun u => bool_decide (video_id u = Some vid)) ranked_units.

Definition bonus_row (N : Z) (vid : string) (ranked_units : list unit_hit) : list Q :=
  foldl (apply_hit N) (replicate (Z.to_nat N) 0%Q)
        (take anchor_top (hits_of_video vid ranked_units)).

(** [norm_sim_list[i] + bonus_list[i]] *)
Definition work_row (norm bonus : list Q) : list Q := zip_with Qplus norm bonus.

(** *** Gap-constrained dynamic programming *)

Definition valid (w_min : Z) (w_max : option Z) (prev next : Z) : bool :=
  (w_min <=? next - prev) &&
  match w_max with
  | Some w => next - prev <=? w
  | None => true
  end.

Definition neg_inf : Q := - (1000000000 # 1).
Definition neg_thresh : Q := - (100000000 # 1).

(** Row [j] of [torch.where(valid, score_mat, neg_inf)]. *)
Definition masked_row (w_min : Z) (w_max : option Z) (score_next : list Q) (j : Z)
  : list Q :=
  imap (fun j' s => if valid w_min w_max j (Z.of_nat j') then s else neg_inf) score_next.

(** Maximum of a row with the index of its first occurrence. *)
Fixpoint argmax_from (best : Q) (besti i : nat) (l : list Q) : Q * nat :=
  match l with
  | [] => (best, besti)
  | x :: l' =>
      if Qltb best x then argmax_from x i (S i) l'
      else argmax_from best besti (S i) l'
  end.

Definition row_max (l : list Q) : Q * nat :=
  match l with
  | [] => (neg_inf, 0%nat)
  | x :: l' => argmax_from x 0 1 l'
  end.

Definition pointer_of (r : Q * nat) : Z :=
  if Qltb neg_thresh r.1 then Z.of_nat r.2 else -1.

(** One iteration of the loop [for i in range(M - 1, 0, -1)]. *)
Definition dp_layer (w_min : Z) (w_max : option Z) (score_next work_prev : list Q)
  : list Q * list Z :=
  let rows :=
    map (fun j => row_max (masked_row w_min w_max score_next j))
        (seqZ 0 (Z.of_nat (length score_next))) in
  (zip_with Qplus (map fst rows) work_prev, map pointer_of rows).

Definition dp_step (w_min : Z) (w_max : option Z)
  (st : list Q * list (list Z)) (work_prev : list Q) : list Q * list (list Z) :=
  let '(score_prev, pointer) := dp_layer w_min w_max st.1 work_prev in
  (score_prev, st.2 ++ [pointer]).

(** The whole backward sweep: the final [score_next] and [backptr_tables]. *)
Definition dp_tables (w_min : Z) (w_max : option Z) (work : list (list Q))
  : list Q * list (list Z) :=
  match rev work with
  | [] => ([], [])
  | last :: prevs => foldl (dp_step w_min w_max) (last, []) prevs
  end.

(** Backtracking along [ptrs_forward]. *)
Fixpoint follow (ptrs : list (list Z)) (cur : Z) (frames : list Z) : bool * list Z :=
  match ptrs with
  | [] => (true, frames)
  | p :: ps =>
      match p !! Z.to_nat cur with
      | Some nxt => if nxt <? 0 then (false, frames) else follow ps nxt (frames ++ [nxt])
      | None => (false, frames)
      end
  end.

(** The alignment of one video: its frames and scaled score, if feasible;
    [n_sent] is the number [M] of sentences, [work] has one row each. *)
Definition align (n_sent : nat) (w_min : Z) (w_max : option Z) (work : list (list Q))
  : option (list Z * Q) :=
  let '(score_next, backptr_tables) := dp_tables w_min w_max work in
  let '(total_score, f0) := row_max score_next in
  let '(feasible, frames) := follow (rev backptr_tables) (Z.of_nat f0) [Z.of_nat f0] in
  if feasible && (length frames =? n_sent)%nat
  then Some (frames, (total_score * (100 / inject_Z (Z.of_nat n_sent)))%Q)
  else None.

End Temporal.

(** ** Effects: a log of the external calls, and exceptions *)

(** The calls the engine makes to its collaborators (translator, encoders,
    index files, feature files), in program order. *)
Inductive event :=
| EvTranslate (text : string)
| EvEncodeText (model : string) (text : string)
| EvRandomFeatures (dim : Z)
| EvLoadImage
| EvEncodeImage (model : string)
| EvReconstruct (model : string) (id : Z)
| EvIndexSearch (model : string) (k : Z)
| EvLoadVideoFeatures (model : string) (vid : string).

(** A computation: the calls it made and its outcome. *)
Definition M (A : Type) : Type := list event * result A.

Definition ret {A} (a : A) : M A := ([], Ok a).

Definition bind {A B} (m : M A) (f : A -> M B) : M B :=
  match m.2 with
  | Ok a => (m.1 ++ (f a).1, (f a).2)
  | Err e => (m.1, Err e)
  end.

Definition raise {A} (k : exn_kind) (msg : string) : M A := ([], Err (Raise k msg)).

(** An external call: it is logged, then succeeds or raises. *)
Definition call {A} (ev : event) (r : result A) : M A := ([ev], r).

(** [try: m except Exception as e: h e] *)
Definition try_except {A} (m : M A) (h : exn -> M A) : M A :=
  match m.2 with
  | Ok a => m
  | Err e => (m.1 ++ (h e).1, (h e).2)
  end.

Definition log {A} (m : M A) : list event := m.1.
Definition outcome {A} (m : M A) : result A := m.2.

Declare Scope py_scope.
Delimit Scope py_scope with py.
Notation "x <- m ;; k" := (bind m (fun x => k))
  (at level 100, m at next level, right associativity) : py_scope.
Notation "m ;;; k" := (bind m (fun _ => k))
  (at level 100, right associativity) : py_scope.
Open Scope py_scope.

(** [for x in xs: acc = body acc x], stopping at the first exception. *)
Fixpoint for_each {A S} (body : S -> A -> M S) (xs : list A) (acc : S) : M S :=
  match xs with
  | [] => ret acc
  | x :: xs' => acc' <- body acc x ;; for_each body xs' acc'
  end.

(** ** The LongCLIP wrapper ([longclip_wrapper.py]) *)
Module LongCLIP.

(** A feature vector ([np.ndarray] / [torch.Tensor] of one dimension). *)
Definition tensor := list Q.

(** [model] is [None] when the checkpoint could not be loaded;
    [mock_features] is the draw [np.random.randn(512)] takes. *)
Record LongCLIPModel := {
  model : option (string -> result tensor);
  mock_features : tensor
}.

Definition _generate_mock_features (w : LongCLIPModel) : M tensor :=
  call (EvRandomFeatures 512) (Ok (mock_features w)).

Definition encode_text (w : LongCLIPModel) (text : string) : M tensor :=
  match model w with
  | None => _generate_mock_features w
  | Some enc =>
      try_except (call (EvEncodeText "longclip" text) (enc text))
                 (fun _ => _generate_mock_features w)
  end.

End LongCLIP.

(** ** The engine ([MyFaiss], [faiss_processing_beit3.py]) *)
Module Engine.

Import Temporal.
Definition tensor := LongCLIP.tensor.

(** A flat inner-product index: [search] returns (score, id) pairs in rank
    order, [reconstruct] a stored vector. *)
Record Index := {
  search : tensor -> Z -> result (list (Q * Z));
  reconstruct : Z -> result tensor
}.

Inductive image_source :=
| SrcStr (s : string)
| SrcBytes (b : list ascii).

(** The engine object: loaded models and indexes.  [beit3_model] is [None]
    when the wrapper or checkpoint is unavailable.  The attribute
    [clip2video_model] is never assigned by [__init__], so it has no field
    here.  [l2_normalize] is division by the Euclidean norm, [randn] the
    draw of [np.random.randn(1, dim)]; [video_features] reads and
    normalises a per-video feature file. *)
Record MyFaiss := {
  translator : string -> string;
  clip_encode_text : string -> result tensor;
  clip_encode_image : image_source -> result tensor;
  longclip_model : LongCLIP.LongCLIPModel;
  longclip_encode_image : image_source -> result tensor;
  beit3_model : option (string -> result tensor);
  index_clip : Index;
  index_longclip : Index;
  index_beit3 : Index;
  id2img : gmap Z string;
  video_features : string -> string -> result (list tensor);
  load_image_source : image_source -> result unit;
  l2_normalize : tensor -> tensor;
  randn : Z -> tensor
}.

Definition translate (e : MyFaiss) (text : string) : M string :=
  call (EvTranslate text) (Ok (translator e text)).

(** The BEiT-3 text features: the model's, or normalised random ones when
    the model is not loaded. *)
Definition beit3_text_features (e : MyFaiss) (text : string) : M tensor :=
  match beit3_model e with
  | Some enc => call (EvEncodeText "beit3" text) (enc text)
  | None => call (EvRandomFeatures 1024) (Ok (l2_normalize e (randn e 1024)))
  end.

Definition index_search (model_type : string) (index : Index) (q : tensor) (k : Z)
  : M (list (Q * Z)) :=
  call (EvIndexSearch model_type k) (search index q k).

(** [[self.id2img.get(int(i)) for i in idxs if int(i) in self.id2img]] *)
Definition paths_of (e : MyFaiss) (idxs : list Z) : list string :=
  omap (fun i => id2img e !! i) idxs.

(** The block "TEXT FEATURES EXTRACTING" of [text_search]. *)
Definition text_features (e : MyFaiss) (model_type : string) (text : string) : M tensor :=
  if String.eqb model_type "clip" then
    f <- call (EvEncodeText "clip" text) (clip_encode_text e text) ;;
    ret (l2_normalize e f)
  else if String.eqb model_type "longclip" then
    LongCLIP.encode_text (longclip_model e) text
  else if String.eqb model_type "beit3" then
    beit3_text_features e text
  else if String.eqb model_type "clip2video" then
    raise AttributeError "'MyFaiss' object has no attribute 'clip2video_model'"
  else raise NotImplementedError "Model does not support.".

(** The block "SEARCHING" starts with the choice of the index; the model
    types without an index have raised before. *)
Definition index_chosen (e : MyFaiss) (model_type : string) : Index :=
  if String.eqb model_type "clip" then index_clip e
  else if String.eqb model_type "longclip" then index_longclip e
  else index_beit3 e.

Definition text_search (e : MyFaiss) (text : string) (k : Z) (model_type : string)
  : M (list Q * list Z * list string) :=
  text <- translate e text ;;
  features <- text_features e model_type text ;;
  found <- index_search model_type (index_chosen e model_type) features k ;;
  let scores := map fst found in
  let idxs := map snd found in
  ret (scores, idxs, paths_of e idxs).

Definition image_search (e : MyFaiss) (k : Z) (model_type : string)
  (image_id : option Z) (image_source : option image_source)
  : M (list Q * list Z * list string) :=
  index <-
    (if String.eqb model_type "clip" then ret (index_clip e)
     else if String.eqb model_type "longclip" then ret (index_longclip e)
     else raise NotImplementedError "not supported") ;;
  match image_id, image_source with
  | None, None => raise ValueError "Provide either image_id or image_source."
  | Some _, Some _ =>
      raise ValueError "Provide only one of image_id or image_source, not both."
  | Some id, None =>
      q <- try_except (call (EvReconstruct model_type id) (reconstruct index id))
             (fun _ => raise RuntimeError "Index does not support reconstruct().") ;;
      found <- index_search model_type index (l2_normalize e q) k ;;
      ret (map fst found, map snd found, paths_of e (map snd found))
  | None, Some src =>
      call EvLoadImage (load_image_source e src) ;;;
      q <- (if String.eqb model_type "clip"
            then call (EvEncodeImage "clip") (clip_encode_image e src)
            else call (EvEncodeImage "longclip") (longclip_encode_image e src)) ;;
      found <- index_search model_type index (l2_normalize e q) k ;;
      ret (map fst found, map snd found, paths_of e (map snd found))
  end.

(** *** Temporal search *)

(** [[s.strip() for s in text.split(".") if s.strip()]] *)
Definition split_query (text : string) : list string :=
  List.filter Py.truthy (map Py.strip (Py.split Py.dot text)).

(** An entry of the single-sentence branch: [{"unit_id", "frames": [None],
    "score"}]. *)
Record unit_result := UnitResult {
  unit_id : string;
  unit_score : Q
}.

(** An entry of the aligned branch: [{"video_id", "frames", "images",
    "paths", "score"}]. *)
Record aligned_result := AlignedResult {
  result_video_id : string;
  frames : list Z;
  images : list string;
  paths : list string;
  result_score : Q
}.

Record sentence_units := SentenceUnits {
  sentence : string;
  ranked_units : list unit_hit
}.

(** The dictionary [temporal_search] returns: the single-sentence branch
    builds [{"sentences", "candidates", "results"}], the other branches
    [{"sentences", "per_sentence", "candidate_videos", "results"}]. *)
Inductive temporal_dict :=
| SingleSentence (sentences : list string) (candidates : gset string)
    (results : list unit_result)
| MultiSentence (sentences : list string) (per_sentence : list sentence_units)
    (candidate_videos : list string) (results : list aligned_result).

Definition keys (d : temporal_dict) : list string :=
  match d with
  | SingleSentence _ _ _ => ["sentences"; "candidates"; "results"]
  | MultiSentence _ _ _ _ => ["sentences"; "per_sentence"; "candidate_videos"; "results"]
  end.

(** The loop of the single-sentence branch over [zip(scores, paths)]. *)
Fixpoint unit_loop (k : Z) (hits : list (Q * string))
  (out : list unit_result) (seen : gset string) : list unit_result * gset string :=
  match hits with
  | [] => (out, seen)
  | (score, path) :: rest =>
      let unit_id := Py.basename (Py.dirname path) in
      if bool_decide (unit_id ∈ seen) then unit_loop k rest out seen
      else
        let out' := out ++ [UnitResult unit_id score] in
        let seen' := {[unit_id]} ∪ seen in
        if k <=? Z.of_nat (length out') then (out', seen')
        else unit_loop k rest out' seen'
  end.

(** Phase 1.1: the numpy feature searched with and the normalised torch
    feature scored with; [None] for [clip2video] ([pass]). *)
Definition encode_sentence (e : MyFaiss) (model_type : string) (s : string)
  : M (option (tensor * tensor)) :=
  if String.eqb model_type "clip" then
    f <- call (EvEncodeText "clip" s) (clip_encode_text e s) ;;
    ret (Some (l2_normalize e f, l2_normalize e f))
  else if String.eqb model_type "longclip" then
    f <- LongCLIP.encode_text (longclip_model e) s ;;
    ret (Some (l2_normalize e f, f))
  else if String.eqb model_type "beit3" then
    f <- beit3_text_features e s ;;
    ret (Some (l2_normalize e f, f))
  else if String.eqb model_type "clip2video" then ret None
  else raise NotImplementedError "clip2video not supported yet in temporal_search()".

Definition encode_sentences (e : MyFaiss) (model_type : string) (sentences : list string)
  : M (list (tensor * tensor)) :=
  for_each (fun feats s =>
              f <- encode_sentence e model_type s ;;
              ret (match f with Some f => feats ++ [f] | None => feats end))
           sentences [].

Definition choose_index (e : MyFaiss) (model_type : string) : M Index :=
  if String.eqb model_type "clip" then ret (index_clip e)
  else if String.eqb model_type "longclip" then ret (index_longclip e)
  else if String.eqb model_type "beit3" then ret (index_beit3 e)
  else raise NotImplementedError "clip2video not supported yet in text_search()".

Definition make_unit (e : MyFaiss) (hit : Q * Z) : unit_hit :=
  let img_path := id2img e !! hit.2 in
  let video_id :=
    match img_path with
    | Some p => if Py.truthy p then Some (Py.basename (Py.dirname p)) else None
    | None => None
    end in
  UnitHit video_id img_path hit.2 hit.1.

(** Admission of a hit's video to [candidate_videos]. *)
Definition add_candidate (max_candidate_videos : Z) (st : list string * gset string)
  (u : unit_hit) : list string * gset string :=
  match video_id u with
  | Some v =>
      if Py.truthy v && negb (bool_decide (v ∈ st.2))
         && (Z.of_nat (length st.1) <? max_candidate_videos)
      then (st.1 ++ [v], {[v]} ∪ st.2)
      else st
  | None => st
  end.

Definition temp : nat := 20.

(** Phase 1.3 for one sentence. *)
Definition search_sentence (e : MyFaiss) (model_type : string) (index : Index)
  (topk_per_sentence max_candidate_videos : Z)
  (st : list sentence_units * (list string * gset string))
  (sf : string * (tensor * tensor))
  : M (list sentence_units * (list string * gset string)) :=
  found <- index_search model_type index sf.2.2 topk_per_sentence ;;
  let units := map (make_unit e) found in
  ret (st.1 ++ [SentenceUnits sf.1 (take temp units)],
       foldl (add_candidate max_candidate_videos) st.2 units).

Definition dot_product (a b : tensor) : Q := foldr Qplus 0%Q (zip_with Qmult a b).

(** [(text_feat @ video_features.T) * 0.5 + 0.5] *)
Definition sims (text_feat : tensor) (video : list tensor) : list Q :=
  map (fun row => dot_product text_feat row * (1 # 2) + (1 # 2))%Q video.

Definition numel (video : list tensor) : nat :=
  foldr (fun row n => (length row + n)%nat) 0%nat video.

(** [f"{idx+1:03d}.jpg"] *)
Definition frame_file (idx : Z) : string :=
  let d := NilZero.string_of_int (Z.to_int (idx + 1)) in
  (string_of_list_ascii (replicate (3 - String.length d) "0"%char) ++ d ++ ".jpg")%string.

Definition frame_path (vid : string) (fname : string) : string :=
  ("keyframe_btc/Keyframes_" ++ List.hd EmptyString (Py.split Py.underscore vid)
   ++ "/keyframes/" ++ vid ++ "/" ++ fname)%string.

(** The work matrix of a video: one row per sentence. *)
Definition work_matrix (feats : list (tensor * tensor)) (per_sentence : list sentence_units)
  (vid : string) (video : list tensor) : list (list Q) :=
  let norm_sim_list := map (fun f => normalize (sims f.1 video)) feats in
  let bonus_list :=
    map (fun ps => bonus_row (Z.of_nat (length video)) vid (ranked_units ps)) per_sentence in
  zip_with work_row norm_sim_list bonus_list.

(** Phase 1.4 for one loaded video; [n_sent] is the number [M] of sentences. *)
Definition score_video (n_sent : nat) (w_min : Z) (w_max : option Z)
  (feats : list (tensor * tensor)) (per_sentence : list sentence_units)
  (vid : string) (video : list tensor) : option aligned_result :=
  if (numel video =? 0)%nat then None
  else if (length video <? n_sent)%nat then None
  else
    match align n_sent w_min w_max (work_matrix feats per_sentence vid video) with
    | Some (frames, score) =>
        let files := map frame_file frames in
        Some (AlignedResult vid frames files (map (frame_path vid) files) score)
    | None => None
    end.

Definition align_video (e : MyFaiss) (model_type : string) (n_sent : nat)
  (w_min : Z) (w_max : option Z)
  (feats : list (tensor * tensor)) (per_sentence : list sentence_units)
  (results : list aligned_result) (vid : string) : M (list aligned_result) :=
  loaded <- try_except
              (v <- call (EvLoadVideoFeatures model_type vid)
                         (video_features e model_type vid) ;;
               ret (Some v))
              (fun _ => ret None) ;;
  ret (match loaded with
       | Some video =>
           match score_video n_sent w_min w_max feats per_sentence vid video with
           | Some r => results ++ [r]
           | None => results
           end
       | None => results
       end).

(** [results.sort(key=lambda r: r["score"], reverse=True)]: stable, so
    equal scores keep their order. *)
Fixpoint insert_desc {A} (key : A -> Q) (x : A) (l : list A) : list A :=
  match l with
  | [] => [x]
  | y :: l' => if Qltb (key x) (key y) then y :: insert_desc key x l' else x :: l
  end.

Definition sort_desc {A} (key : A -> Q) (l : list A) : list A :=
  foldr (insert_desc key) [] l.

(** [if k and k > 0: results = results[:k]] *)
Definition top_k {A} (k : Z) (results : list A) : list A :=
  if 0 <? k then take (Z.to_nat k) results else results.

(** Everything [temporal_search] does for [M >= 2] before the final cut
    (the early return for an empty candidate list has no results to cut). *)
Definition align_all (e : MyFaiss) (sentences : list string) (model_type : string)
  (topk_per_sentence max_candidate_videos w_min : Z) (w_max : option Z)
  : M (list sentence_units * list string * list aligned_result) :=
  feats <- encode_sentences e model_type sentences ;;
  index_chosen <- choose_index e model_type ;;
  found <- for_each (search_sentence e model_type index_chosen
                       topk_per_sentence max_candidate_videos)
                    (zip sentences feats) ([], ([], ∅)) ;;
  let per_sentence := found.1 in
  let candidate_videos := found.2.1 in
  match candidate_videos with
  | [] => ret (per_sentence, [], [])
  | _ =>
      results <- for_each (align_video e model_type (length sentences) w_min w_max
                             feats per_sentence)
                          candidate_videos [] ;;
      ret (per_sentence, candidate_videos, sort_desc result_score results)
  end.

Definition temporal_search (e : MyFaiss) (text : string) (k : Z) (model_type : string)
  (topk_per_sentence max_candidate_videos w_min : Z) (w_max : option Z)
  : M temporal_dict :=
  text <- translate e text ;;
  let sentences := split_query text in
  match sentences with
  | [] => raise AssertionError ""
  | [s] =>
      found <- text_search e s k model_type ;;
      let '(scores, _, paths) := found in
      let '(out, seen) := unit_loop k (zip scores paths) [] ∅ in
      ret (SingleSentence sentences seen out)
  | _ =>
      r <- align_all e sentences model_type topk_per_sentence max_candidate_videos
             w_min w_max ;;
      let '(per_sentence, candidate_videos, results) := r in
      ret (MultiSentence sentences per_sentence candidate_videos (top_k k results))
  end.

End Engine.

(** ** The search service ([search_service.py]) *)
Module SearchService.

Inductive ModelType := CLIP | LONGCLIP | CLIP2VIDEO | BEIT3 | ALL.

Definition value (m : ModelType) : string :=
  match m with
  | CLIP => "clip"
  | LONGCLIP => "longclip"
  | CLIP2VIDEO => "clip2video"
  | BEIT3 => "beit3"
  | ALL => "all"
  end.

(** [SearchResult]; the fields [watch_url], [ocr_text] and [bbox] are
    [None] on every path and are left out. *)
Record SearchResult := {
  image_id : string;
  score : Q;
  link : option string;
  image_url : option string;
  file_path : option string;
  video_id : option string;
  shot_index : option Z;
  frame_stamp : option Q
}.

Record frame_metadata := {
  filename : string;
  meta_shot_index : option Z;
  timestamp : option Q
}.

(** The service object.  [faiss_engine] is [None] in mock mode;
    [metadata_service] is [None] when the metadata service is missing or
    not initialised, otherwise its [get_frame_metadata]. *)
Record SearchService := {
  faiss_engine : option Engine.MyFaiss;
  metadata_service : option (string -> result (option frame_metadata))
}.

(** [0.9 - (i * 0.1)] *)
Definition mock_score (i : Z) : Q := (9 # 10) - inject_Z i * (1 # 10).

Definition mock_result (search_type : string) (i : Z) : SearchResult :=
  let n := Py.str_of_int i in
  {| image_id := "mock_" ++ search_type ++ "_" ++ n;
     score := mock_score i;
     link := Some ("/mock/image_" ++ n ++ ".jpg");
     image_url := Some ("/mock/image_" ++ n ++ ".jpg");
     file_path := Some ("mock_folder_" ++ n ++ "/image_" ++ n ++ ".jpg");
     video_id := None; shot_index := None; frame_stamp := None |}%string.

Definition _mock_search_results (limit : Z) (search_type query : string)
  : list SearchResult :=
  map (mock_result search_type) (seqZ 0 (Z.min limit 10)).

(** The model-specific similarity floor of the single-model text search. *)
Definition similarity_threshold (m : ModelType) : Q :=
  match m with
  | LONGCLIP | CLIP2VIDEO => 1
  | BEIT3 => 4 # 10
  | _ => 2 # 10
  end.

(** [f"{path_parts[-2]}/{path_parts[-1]}"] when the path has three parts. *)
Definition folder_and_file (path : string) : option string :=
  let parts := Py.split Py.slash path in
  if (3 <=? length parts)%nat then
    match rev parts with
    | last :: before :: _ => Some (before ++ "/" ++ last)%string
    | _ => None
    end
  else None.

Definition make_result (prefix : string) (hit : Q * Z * string) : SearchResult :=
  let '(score, idx, path) := hit in
  {| image_id := prefix ++ "_" ++ Py.str_of_int idx;
     score := score;
     link := Some path;
     image_url := Some ("/data/" ++ path);
     file_path := folder_and_file path;
     video_id := None; shot_index := None; frame_stamp := None |}%string.

(** [zip(scores, idxs, image_paths)] *)
Definition zip3 (found : list Q * list Z * list string) : list (Q * Z * string) :=
  zip (zip found.1.1 found.1.2) found.2.

Fixpoint unique_loop (limit : Z) (results : list SearchResult)
  (unique : list SearchResult) (seen_ids : gset string) : list SearchResult :=
  match results with
  | [] => unique
  | r :: rest =>
      if bool_decide (image_id r ∈ seen_ids) then unique_loop limit rest unique seen_ids
      else
        let unique' := unique ++ [r] in
        if limit <=? Z.of_nat (length unique') then unique'
        else unique_loop limit rest unique' ({[image_id r]} ∪ seen_ids)
  end.

Definition _remove_duplicates (results : list SearchResult) (limit : Z)
  : list SearchResult :=
  unique_loop limit results [] ∅.

Definition enhance_one (lookup : string -> result (option frame_metadata))
  (r : SearchResult) : SearchResult :=
  if String.prefix "beit3_" (image_id r) then r
  else
    match lookup (image_id r) with
    | Ok (Some md) =>
        {| image_id := image_id r; score := score r; link := link r;
           image_url := image_url r; file_path := None;
           video_id := Some (filename md);
           shot_index := meta_shot_index md;
           frame_stamp := timestamp md |}
    | Ok None => r
    | Err _ => r
    end.

Definition _enhance_results_with_metadata (svc : SearchService)
  (results : list SearchResult) : list SearchResult :=
  match metadata_service svc with
  | None => results
  | Some lookup => map (enhance_one lookup) results
  end.

(** One [try: ... except Exception: ...] block of [_search_all_models]. *)
Definition search_block (e : Engine.MyFaiss) (query : string) (limit : Z)
  (model_type prefix : string) (all_results : list SearchResult)
  : M (list SearchResult) :=
  try_except
    (found <- Engine.text_search e query limit model_type ;;
     ret (all_results ++
          map (make_result prefix)
              (List.filter (fun h => Py.truthy h.2) (zip3 found))))
    (fun _ => ret all_results).

(** The four blocks; the CLIP block labels its hits [clip2video_], as the
    source does. *)
Definition collect_all_models (e : Engine.MyFaiss) (query : string) (limit : Z)
  : M (list SearchResult) :=
  r1 <- search_block e query limit "clip" "clip2video" [] ;;
  r2 <- search_block e query limit "longclip" "longclip" r1 ;;
  r3 <- search_block e query limit "clip2video" "clip2video" r2 ;;
  search_block e query limit "beit3" "beit3" r3.

Fixpoint fuse_loop (limit : Z) (sorted : list SearchResult)
  (unique_results : list SearchResult) (seen_paths : gset (option string))
  : list SearchResult :=
  match sorted with
  | [] => unique_results
  | r :: rest =>
      if bool_decide (link r ∈ seen_paths) then fuse_loop limit rest unique_results seen_paths
      else
        let unique' := unique_results ++ [r] in
        if limit <=? Z.of_nat (length unique') then unique'
        else fuse_loop limit rest unique' ({[link r]} ∪ seen_paths)
  end.

(** The closing loop of [_search_all_models]. *)
Definition fuse (limit : Z) (all_results : list SearchResult) : list SearchResult :=
  fuse_loop limit (Engine.sort_desc score all_results) [] ∅.

Definition _search_all_models (e : Engine.MyFaiss) (query : string) (limit : Z)
  : M (list SearchResult) :=
  all_results <- collect_all_models e query limit ;;
  ret (fuse limit all_results).

(** The single-model branch of [text_search], inside the [try]. *)
Definition single_model_search (svc : SearchService) (e : Engine.MyFaiss)
  (query : string) (model_type : ModelType) (limit : Z) : M (list SearchResult) :=
  found <- Engine.text_search e query limit (value model_type) ;;
  let results :=
    map (make_result (value model_type))
        (List.filter (fun h => Py.truthy h.2
                               && Qle_bool (similarity_threshold model_type) h.1.1)
                     (zip3 found)) in
  match results with
  | [] => ret []
  | _ => ret (_enhance_results_with_metadata svc (_remove_duplicates results limit))
  end.

Definition text_search (svc : SearchService) (query : string)
  (model_type : ModelType) (limit : Z) : M (list SearchResult) :=
  match faiss_engine svc with
  | None => ret (_mock_search_results limit "text" query)
  | Some e =>
      try_except
        (match model_type with
         | ALL => _search_all_models e query limit
         | _ => single_model_search svc e query model_type limit
         end)
        (fun ex =>
           match kind ex with
           | ValueError =>
               if Py.contains "not available" (Py.lower (message ex)) then ret []
               else ret (_mock_search_results limit "text" query)
           | _ => ret (_mock_search_results limit "text" query)
           end)
  end.

End SearchService.

(** ** The temporal service ([temporal_service.py]) *)
Module TemporalService.

Import SearchService.

Record TemporalResult := {
  video_id : string;
  frames : list Z;
  images : list string;
  paths : list string;
  score : Q
}.

Record TemporalData := {
  sentences : list string;
  per_sentence : list Engine.sentence_units;
  candidate_videos : list string;
  results : list TemporalResult
}.

Definition model_type_str (m : ModelType) : string :=
  let v := Py.lower (value m) in
  if String.eqb v "beit3" then "beit3"
  else if String.eqb v "clip" then "clip"
  else if String.eqb v "longclip" then "longclip"
  else "clip".

(** Reading the engine's dictionary: [result["video_id"]],
    [result_dict["per_sentence"]] and [result_dict["candidate_videos"]]
    raise [KeyError] on a dictionary that lacks them. *)
Definition convert (d : Engine.temporal_dict) : M TemporalData :=
  match d with
  | Engine.MultiSentence ss ps cv rs =>
      ret {| sentences := ss; per_sentence := ps; candidate_videos := cv;
             results := map (fun r => {| video_id := Engine.result_video_id r;
                                         frames := Engine.frames r;
                                         images := Engine.images r;
                                         paths := Engine.paths r;
                                         score := Engine.result_score r |}) rs |}
  | Engine.SingleSentence _ _ (_ :: _) => raise KeyError "video_id"
  | Engine.SingleSentence _ _ [] => raise KeyError "per_sentence"
  end.

Definition mock_result : TemporalResult :=
  {| video_id := "L21_V001";
     frames := [10; 25; 40];
     images := ["frame_10.jpg"; "frame_25.jpg"; "frame_40.jpg"];
     paths := ["raw/keyframes/Keyframes_L21/keyframes/L21_V001/010.jpg";
               "raw/keyframes/Keyframes_L21/keyframes/L21_V001/025.jpg";
               "raw/keyframes/Keyframes_L21/keyframes/L21_V001/040.jpg"];
     score := 85 # 100 |}.

(** The [except Exception] branch. *)
Definition mock_data (query : string) (limit : Z) : TemporalData :=
  let ss := Engine.split_query query in
  {| sentences := match ss with [] => [query] | _ => ss end;
     per_sentence := [];
     candidate_videos := ["L21_V001"; "L21_V002"];
     results := Py.list_slice_to [mock_result] limit |}.

(** [engine] is the outcome of [_ensure_faiss_engine_loaded]. *)
Definition temporal_search (engine : result Engine.MyFaiss) (query : string)
  (model_type : ModelType) (limit topk_per_sentence max_candidate_videos w_min : Z)
  (w_max : option Z) : M TemporalData :=
  try_except
    (e <- ([], engine) ;;
     result_dict <- Engine.temporal_search e query limit (model_type_str model_type)
                      topk_per_sentence max_candidate_videos w_min w_max ;;
     convert result_dict)
    (fun _ => ret (mock_data query limit)).

End TemporalService.

(** ** A small engine used to run the definitions *)
Module Fixture.

Import Engine.

Definition unit_x : tensor := [1; 0]%Q.
Definition unit_y : tensor := [0; 1]%Q.

(** Padding entry of an index that holds fewer than [k] vectors. *)
Definition sentinel : Q * Z := ((- (1000000000000 # 1))%Q, -1).

(** An exact inner-product index over [stored]: [k] pairs per query, best
    first, padded with the sentinel; [k <= 0] is refused. *)
Definition flat_ip (stored : list tensor) : Index :=
  {| search := fun q k =>
       if k <=? 0 then Err (Raise AssertionError "k > 0")
       else
         let scored := imap (fun i v => (dot_product q v, Z.of_nat i)) stored in
         let ranked := take (Z.to_nat k) (sort_desc fst scored) in
         Ok (ranked ++ replicate (Z.to_nat k - length ranked) sentinel);
     reconstruct := fun i =>
       match stored !! Z.to_nat i with
       | Some v => if 0 <=? i then Ok v else Err (Raise RuntimeError "reconstruct")
       | None => Err (Raise RuntimeError "reconstruct")
       end |}.

Definition stored : list tensor := [unit_x; unit_y; unit_x].

Definition keyframes : gmap Z string :=
  list_to_map
    [(0, "keyframe_btc/Keyframes_L21/keyframes/L21_V001/001.jpg");
     (1, "keyframe_btc/Keyframes_L21/keyframes/L21_V001/002.jpg");
     (2, "keyframe_btc/Keyframes_L21/keyframes/L21_V001/003.jpg")]%string.

(** CLIP encodes every text as [unit_x] and refuses the empty text; the
    BEiT-3 model and the LongCLIP checkpoint are not loaded. *)
Definition engine : MyFaiss :=
  {| translator := fun s => s;
     clip_encode_text := fun s =>
       if Py.truthy s then Ok unit_x else Err (Raise RuntimeError "empty");
     clip_encode_image := fun _ => Ok unit_x;
     longclip_model := {| LongCLIP.model := None; LongCLIP.mock_features := unit_y |};
     longclip_encode_image := fun _ => Ok unit_y;
     beit3_model := None;
     index_clip := flat_ip stored;
     index_longclip := flat_ip stored;
     index_beit3 := flat_ip stored;
     id2img := keyframes;
     video_features := fun _ vid =>
       if String.eqb vid "L21_V001" then Ok [unit_x; unit_y]
       else Err (Raise OtherError "FileNotFoundError");
     load_image_source := fun _ => Ok tt;
     l2_normalize := fun v => v;
     randn := fun _ => unit_y |}.

Definition service : SearchService.SearchService :=
  {| SearchService.faiss_engine := Some engine;
     SearchService.metadata_service := None |}.

(** An over-length text (407 characters) of three sentences. *)
Definition long_text : string :=
  ("A. " ++ string_of_list_ascii (replicate 400 "b"%char) ++ ". C.")%string.

(** One shortlist hit whose file name is frame 4. *)
Definition hit_frame4 : Temporal.unit_hit :=
  Temporal.UnitHit (Some "L21_V001")
    (Some "keyframe_btc/Keyframes_L21/keyframes/L21_V001/004.jpg") 3 (1 # 2).

End Fixture.

(** ** Vocabulary of the statements *)

(** The model types [image_search] has an index for. *)
Definition supported_by_image_search (model_type : string) : bool :=
  String.eqb model_type "clip" || String.eqb model_type "longclip".

(** What one shortlist hit adds at row [t] of a video with [N] rows: the
    boost, when the hit's row [j] is a row of the video and [t] is within
    the anchor window around it. *)
Definition contribution (N t : Z) (h : Temporal.unit_hit) : option Q :=
  match Temporal.hit_row h with
  | Some j =>
      if (0 <=? j) && (j <? N) && (Z.abs (t - j) <=? Temporal.anchor_window)
      then Some (Temporal.anchor_boost * Temporal.decay t j)%Q
      else None
  | None => None
  end.

(** Consecutive entries of a frame sequence respect the gap bounds. *)
Fixpoint gaps_ok (w_min : Z) (w_max : option Z) (l : list Z) : Prop :=
  match l with
  | a :: tl =>
      match tl with
      | b :: _ => Temporal.valid w_min w_max a b = true /\ gaps_ok w_min w_max tl
      | [] => True
      end
  | [] => True
  end.

(** A back-pointer table over [N] rows: every pointer that is not the
    sentinel names a row of the video within the gap bounds. *)
Definition good_table (N : nat) (w_min : Z) (w_max : option Z) (p : list Z) : Prop :=
  length p = N /\
  forall j c, p !! j = Some c -> 0 <= c ->
    Temporal.valid w_min w_max (Z.of_nat j) c = true /\ c < Z.of_nat N.

(** The order of a list sorted by descending key. *)
Definition desc {A} (key : A -> Q) (a b : A) : Prop := (key b <= key a)%Q.



(** The kind of the exception an outcome carries, if any. *)
Definition kind_of_failure {A} (r : result A) : option exn_kind :=
  match r with
  | Err e => Some (kind e)
  | Ok _ => None
  end.

(** A computation with its result transformed. *)
Definition M_map {A B} (f : A -> B) (m : M A) : M B :=
  (m.1, match m.2 with Ok a => Ok (f a) | Err e => Err e end).

(** The final cut of [temporal_search] applied to a returned dictionary. *)
Definition cut_results (k : Z) (d : Engine.temporal_dict) : Engine.temporal_dict :=
  match d with
  | Engine.MultiSentence ss ps cv rs => Engine.MultiSentence ss ps cv (Engine.top_k k rs)
  | Engine.SingleSentence _ _ _ => d
  end.

(** The model types [text_search] has a branch for. *)
Definition known_model_type (model_type : string) : bool :=
  String.eqb model_type "clip" || String.eqb model_type "longclip"
  || String.eqb model_type "beit3" || String.eqb model_type "clip2video".

(** ** Image and neighbour search of the service ([search_service.py]) *)
Module ImageService.

Import SearchService.

(** [int(image_id.split("_")[-1])], and [0] when that is not an integer. *)
Definition numeric_id (image_id : string) : Z :=
  match Py.int (List.last (Py.split Py.underscore image_id) EmptyString) with
  | Some n => n
  | None => 0
  end.

Definition path_hits (prefix : string) (found : list Q * list Z * list string)
  : list SearchResult :=
  map (make_result prefix) (List.filter (fun h => Py.truthy h.2) (zip3 found)).

(** One [try: ... except Exception: ...] block of the all-model image
    and neighbour searches. *)
Definition image_block (e : Engine.MyFaiss) (limit : Z) (model_type : string)
  (image_id : option Z) (image_source : option Engine.image_source)
  (all_results : list SearchResult) : M (list SearchResult) :=
  try_except
    (found <- Engine.image_search e limit model_type image_id image_source ;;
     ret (all_results ++ path_hits model_type found))
    (fun _ => ret all_results).

Definition collect_image_models (e : Engine.MyFaiss) (limit : Z)
  (image_id : option Z) (image_source : option Engine.image_source)
  : M (list SearchResult) :=
  r1 <- image_block e limit "clip" image_id image_source [] ;;
  r2 <- image_block e limit "longclip" image_id image_source r1 ;;
  r3 <- image_block e limit "clip2video" image_id image_source r2 ;;
  image_block e limit "beit3" image_id image_source r3.

Definition _image_search_all_models (e : Engine.MyFaiss)
  (image_source : Engine.image_source) (limit : Z) : M (list SearchResult) :=
  all_results <- collect_image_models e limit None (Some image_source) ;;
  ret (fuse limit all_results).

Definition _neighbor_search_all_models (e : Engine.MyFaiss) (image_id : string)
  (limit : Z) : M (list SearchResult) :=
  all_results <- collect_image_models e limit (Some (numeric_id image_id)) None ;;
  ret (fuse limit all_results).

Definition image_search (svc : SearchService) (image_source : Engine.image_source)
  (model_type : ModelType) (limit : Z) : M (list SearchResult) :=
  match faiss_engine svc with
  | None => ret (_mock_search_results limit "image" "image_query")
  | Some e =>
      try_except
        (match model_type with
         | ALL => _image_search_all_models e image_source limit
         | _ =>
             found <- Engine.image_search e limit (value model_type) None
                        (Some image_source) ;;
             ret (_enhance_results_with_metadata svc
                    (_remove_duplicates (path_hits (value model_type) found) limit))
         end)
        (fun _ => ret (_mock_search_results limit "image" "image_query"))
  end.

Definition neighbor_search (svc : SearchService) (image_id : string)
  (model_type : ModelType) (limit : Z) : M (list SearchResult) :=
  match faiss_engine svc with
  | None => ret (_mock_search_results limit "neighbor" image_id)
  | Some e =>
      try_except
        (match model_type with
         | ALL => _neighbor_search_all_models e image_id limit
         | _ =>
             found <- Engine.image_search e limit (value model_type)
                        (Some (numeric_id image_id)) None ;;
             ret (path_hits (value model_type) found)
         end)
        (fun _ => ret (_mock_search_results limit "neighbor" image_id))
  end.

(** [visual_search]: mock results only. *)
Definition visual_search (svc : SearchService) (n_objects : Z) (limit : Z)
  : M (list SearchResult) :=
  ret (_mock_search_results limit "visual" ("objects_" ++ Py.str_of_int n_objects)).

End ImageService.

(** ** The text search of [faiss_processing.py] *)
Module FaissProcessing.

Definition tensor := LongCLIP.tensor.

(** The engine of [faiss_processing.py]: here the LongCLIP model itself
    may be [None]. *)
Record MyFaiss := {
  translator : string -> string;
  clip_encode_text : string -> result tensor;
  longclip_model : option LongCLIP.LongCLIPModel;
  beit3_model : option (string -> result tensor);
  index_clip : Engine.Index;
  index_longclip : Engine.Index;
  index_beit3 : Engine.Index;
  id2img : gmap Z string;
  l2_normalize : tensor -> tensor
}.

(** Tokenise, encode and normalise with CLIP. *)
Definition clip_encode (e : MyFaiss) (text : string) : M tensor :=
  f <- call (EvEncodeText "clip" text) (clip_encode_text e text) ;;
  ret (l2_normalize e f).

(** The [try] with its retry on a text of at most 50 characters. *)
Definition clip_encode_retry (e : MyFaiss) (text : string) : M tensor :=
  try_except (clip_encode e text)
    (fun _ => clip_encode e (if 50 <? Py.len text then Py.slice_to text 50 else text)).

(** The features and the model type the search then runs with. *)
Definition text_features (e : MyFaiss) (model_type : string) (text : string)
  : M (tensor * string) :=
  if String.eqb model_type "clip" then
    f <- clip_encode_retry e text ;; ret (f, "clip"%string)
  else if String.eqb model_type "longclip" then
    match longclip_model e with
    | Some w => f <- LongCLIP.encode_text w text ;; ret (f, "longclip"%string)
    | None => f <- clip_encode_retry e text ;; ret (f, "clip"%string)
    end
  else if String.eqb model_type "beit3" then
    match beit3_model e with
    | Some enc => f <- call (EvEncodeText "beit3" text) (enc text) ;; ret (f, "beit3"%string)
    | None => raise RuntimeError "BEIT3 model not available"
    end
  else if String.eqb model_type "clip2video" then
    raise NotImplementedError "clip2video not supported yet in text_search()"
  else raise OtherError "UnboundLocalError".

Definition index_chosen (e : MyFaiss) (model_type : string) : Engine.Index :=
  if String.eqb model_type "clip" then index_clip e
  else if String.eqb model_type "longclip" then index_longclip e
  else index_beit3 e.

Definition text_search (e : MyFaiss) (text : string) (k : Z) (model_type : string)
  : M (list Q * list Z * list string) :=
  text <- call (EvTranslate text) (Ok (translator e text)) ;;
  let text := Clip._truncate_text_for_clip text 77 in
  fm <- text_features e model_type text ;;
  found <- Engine.index_search fm.2 (index_chosen e fm.2) fm.1 k ;;
  let idxs := map snd found in
  ret (map fst found, idxs, omap (fun i => id2img e !! i) idxs).

End FaissProcessing.

(** The texts handed to a text encoder are at most [n] characters long. *)
Definition encoded_texts_within (n : Z) (events : list event) : Prop :=
  Forall (fun ev => match ev with
                    | EvEncodeText _ s => Py.len s <= n
                    | _ => True
                    end) events.

(** ** Further vocabulary *)


(** The state of the candidate collection: distinct non-empty videos of
    mapped keyframes, mirrored by the set of seen videos, within the cap. *)
Definition candidates_ok (e : Engine.MyFaiss) (max_candidate_videos : Z)
  (st : list string * gset string) : Prop :=
  NoDup st.1 /\
  (forall v, v ∈ st.2 <-> In v st.1) /\
  Z.of_nat (length st.1) <= Z.max 0 max_candidate_videos /\
  Forall (fun v => v <> EmptyString /\
                   exists i p, Engine.id2img e !! i = Some p /\
                               v = Py.basename (Py.dirname p)) st.1.

(** The summed work of a frame sequence: [work[t][frames[t]]] over the
    sentences [t]. *)
Definition path_score (work : list (list Q)) (frames : list Z) : Q :=
  foldr Qplus 0%Q (zip_with (fun row f => default 0%Q (row !! Z.to_nat f)) work frames).

(** A frame sequence the alignment may choose: one row of the video per
    sentence, consecutive rows within the gap bounds. *)
Definition feasible (N : nat) (w_min : Z) (w_max : option Z) (n_sent : nat)
  (frames : list Z) : Prop :=
  length frames = n_sent /\
  Forall (fun i => 0 <= i < Z.of_nat N) frames /\
  gaps_ok w_min w_max frames.

(** The largest entry of a work matrix: a normalised similarity plus an
    anchor bonus. *)
Definition work_bound : Q := 11 # 10.

(** The state of the backward sweep after the rows [ws]: entry [j] of
    [score] bounds every feasible sequence from row [j]; it is attained
    along the back-pointers when there is one, and is near [neg_inf], with
    a broken pointer chain, when there is none. *)
Definition dp_invariant (N : nat) (w_min : Z) (w_max : option Z)
  (ws : list (list Q)) (score : list Q) (ptrs : list (list Z)) : Prop :=
  forall j, (j < N)%nat ->
    exists s, score !! j = Some s /\
      (forall rest, feasible N w_min w_max (length ws) (Z.of_nat j :: rest) ->
                    (path_score ws (Z.of_nat j :: rest) <= s)%Q) /\
      (((0 <= s)%Q /\
        exists rest,
          feasible N w_min w_max (length ws) (Z.of_nat j :: rest) /\
          (path_score ws (Z.of_nat j :: rest) == s)%Q /\
          forall pre, Temporal.follow ptrs (Z.of_nat j) (pre ++ [Z.of_nat j])
                      = (true, pre ++ Z.of_nat j :: rest))
       \/
       ((s <= Temporal.neg_inf + work_bound * inject_Z (Z.of_nat (length ws)))%Q /\
        (forall rest, ~ feasible N w_min w_max (length ws) (Z.of_nat j :: rest)) /\
        ptrs <> [] /\
        forall pre, (Temporal.follow ptrs (Z.of_nat j) pre).1 = false)).

(** * Properties *)

(** ** Text truncation *)
Section TruncateText.

Import Clip.

Lemma substring_all (s : string) (n : nat) :
  (String.length s <= n)%nat -> substring 0 n s = s.
Proof.
  revert n; induction s as [| c s IH]; intros [| n] Hn; simpl in *; try lia; auto.
  f_equal. apply IH. lia.
Qed.

Lemma substring_length_le (s : string) (n : nat) :
  (String.length (substring 0 n s) <= n)%nat.
Proof.
  revert s; induction n as [| n IH]; intros [| c s]; simpl; try lia.
  specialize (IH s). lia.
Qed.

Lemma slice_to_short (s : string) (n : Z) :
  Py.len s <= n -> Py.slice_to s n = s.
Proof.
  unfold Py.slice_to, Py.clamp, Py.len. intros Hn.
  destruct (n <? 0) eqn:E; [apply Z.ltb_lt in E; lia |].
  apply substring_all. lia.
Qed.

Lemma slice_to_len (s : string) (n : Z) :
  0 <= n -> Py.len (Py.slice_to s n) <= n.
Proof.
  unfold Py.slice_to, Py.clamp, Py.len. intros Hn.
  destruct (n <? 0) eqn:E; [apply Z.ltb_lt in E; lia |].
  pose proof (substring_length_le s (Z.to_nat (Z.min n (Z.of_nat (String.length s))))).
  lia.
Qed.

(** The two cut lengths never add up to more than the budget exceeded. *)
Lemma parts_below (max_tokens n : Z) :
  0 <= n -> max_tokens * 4 < n -> first_part max_tokens + last_part max_tokens < n.
Proof.
  unfold first_part, last_part. intros H0 H.
  Z.to_euclidean_division_equations. lia.
Qed.

Lemma head_tail_cut (text : string) (max_tokens : Z) :
  max_tokens * 4 < Py.len text ->
  head_tail text max_tokens =
    (Py.slice_to text (first_part max_tokens) ++ "..."
     ++ Py.slice_from text (- last_part max_tokens))%string.
Proof.
  intros H. unfold head_tail.
  assert (first_part max_tokens + last_part max_tokens < Py.len text) as Hlt
    by (apply parts_below; [unfold Py.len; lia | exact H]).
  apply Z.ltb_lt in Hlt. now rewrite Hlt.
Qed.

(** C9 (as amended): what [_truncate_text_for_clip] keeps, in the order the
    code tries it.  A text within the budget of [4 * max_tokens] characters
    is returned unchanged.  An over-length text with at least two sentences
    becomes the first sentence, a blank and the last sentence when that
    fits; failing that, the first sentence alone when it fits; in every
    other case (also with fewer than two sentences) it becomes the leading
    [int(2.4 * max_tokens)] characters, an ellipsis and the trailing
    [int(1.6 * max_tokens)] characters.  If tokenization of the text then
    fails, the text is cut to at most 50 characters and encoded once more,
    and the outcome of that second attempt is the outcome. *)
Theorem truncate_text_for_clip_order (text : string) (max_tokens : Z)
  (F : Type) (tokenize_encode : string -> result F) :
  let budget := max_tokens * 4 in
  let cut := (Py.slice_to text (first_part max_tokens) ++ "..."
              ++ Py.slice_from text (- last_part max_tokens))%string in
  (Py.len text <= budget -> _truncate_text_for_clip text max_tokens = text) /\
  (budget < Py.len text ->
   forall first second rest,
     split_sentences text = first :: second :: rest ->
     let last := List.last (second :: rest) EmptyString in
     (Py.len (joined first last) <= budget ->
      _truncate_text_for_clip text max_tokens = joined first last) /\
     (budget < Py.len (joined first last) -> Py.len first <= budget ->
      _truncate_text_for_clip text max_tokens = first) /\
     (budget < Py.len (joined first last) -> budget < Py.len first ->
      _truncate_text_for_clip text max_tokens = cut)) /\
  (budget < Py.len text -> (length (split_sentences text) <= 1)%nat ->
   _truncate_text_for_clip text max_tokens = cut) /\
  (forall e, tokenize_encode text = Err e ->
     encode_with_retry tokenize_encode text = tokenize_encode (Py.slice_to text 50)) /\
  (forall f, tokenize_encode text = Ok f ->
     encode_with_retry tokenize_encode text = Ok f) /\
  Py.len (Py.slice_to text 50) <= 50.
Proof.
  intros budget cut. subst budget cut. repeat split.
  - intros H. unfold _truncate_text_for_clip.
    apply Z.leb_le in H. now rewrite H.
  - intros Hfit. unfold _truncate_text_for_clip.
    assert ((Py.len text <=? max_tokens * 4) = false) as -> by (apply Z.leb_gt; lia).
    rewrite H0. cbv zeta.
    change (List.last (first :: second :: rest) EmptyString)
      with (List.last (second :: rest) EmptyString).
    apply Z.leb_le in Hfit. now rewrite Hfit.
  - intros Hbig Hfirst. unfold _truncate_text_for_clip.
    assert ((Py.len text <=? max_tokens * 4) = false) as -> by (apply Z.leb_gt; lia).
    rewrite H0. cbv zeta.
    change (List.last (first :: second :: rest) EmptyString)
      with (List.last (second :: rest) EmptyString).
    apply Z.leb_gt in Hbig. rewrite Hbig.
    apply Z.leb_le in Hfirst. now rewrite Hfirst.
  - intros Hbig Hfirst. unfold _truncate_text_for_clip.
    assert ((Py.len text <=? max_tokens * 4) = false) as -> by (apply Z.leb_gt; lia).
    rewrite H0. cbv zeta.
    change (List.last (first :: second :: rest) EmptyString)
      with (List.last (second :: rest) EmptyString).
    apply Z.leb_gt in Hbig. rewrite Hbig.
    apply Z.leb_gt in Hfirst. rewrite Hfirst.
    assert ((max_tokens * 4 <? Py.len text) = true) as -> by (apply Z.ltb_lt; lia).
    now apply head_tail_cut.
  - intros H Hs. unfold _truncate_text_for_clip.
    assert ((Py.len text <=? max_tokens * 4) = false) as -> by (apply Z.leb_gt; lia).
    assert ((max_tokens * 4 <? Py.len text) = true) as -> by (apply Z.ltb_lt; lia).
    cbv zeta. rewrite head_tail_cut by exact H.
    destruct (split_sentences text) as [| s1 [| s2 ss]]; simpl in Hs; try lia; reflexivity.
  - intros e He. unfold encode_with_retry. rewrite He.
    destruct (50 <? Py.len text) eqn:E; [reflexivity |].
    apply Z.ltb_ge in E. now rewrite slice_to_short.
  - intros f Hf. unfold encode_with_retry. now rewrite Hf.
  - apply slice_to_len. lia.
Qed.

(** The over-length text ["A. bbb...b. C."] (407 characters, budget 308)
    is cut to its first and last sentence. *)
Lemma truncate_text_for_clip_order_witness :
  Clip._truncate_text_for_clip Fixture.long_text 77 = "A. C."%string.
Proof.
  destruct (truncate_text_for_clip_order Fixture.long_text 77 unit (fun _ => Ok tt))
    as (_ & H & _).
  refine (proj1 (H _ "A."%string
    (String "b" (string_of_list_ascii (replicate 399 "b"%char)) ++ ".")%string
    ["C."%string] _) _).
  - vm_compute. reflexivity.
  - vm_compute. reflexivity.
  - vm_compute. discriminate.
Defined.

(** C9, counterexample: the first sentence ["A."] alone fits the budget of
    308 characters, yet the text is not cut to it: the first and the last
    sentence are kept together. *)
Lemma truncate_prefers_first_and_last :
  Clip.split_sentences Fixture.long_text
    = ["A."; (String "b" (string_of_list_ascii (replicate 399 "b"%char)) ++ "."); "C."]%string
  /\ 77 * 4 < Py.len Fixture.long_text
  /\ Py.len "A." <= 77 * 4
  /\ Clip._truncate_text_for_clip Fixture.long_text 77 = "A. C."%string
  /\ Clip._truncate_text_for_clip Fixture.long_text 77 <> "A."%string.
Proof.
  vm_compute. repeat split; try reflexivity; try discriminate.
Qed.

End TruncateText.

(** ** Image search: exactly one probe *)
Section ImageSearch.

Import Engine.

(** C10 (as amended): a call of [image_search] that names no probe, or
    both an [image_id] and an [image_source], raises before anything is
    reconstructed, loaded, encoded or searched: [ValueError] when the
    model type is [clip] or [longclip], and [NotImplementedError] (from
    the choice of the index, which comes first) for every other model
    type. *)
Theorem image_search_requires_one_probe (e : MyFaiss) (k : Z) (model_type : string)
  (image_id : option Z) (image_source : option image_source) :
  (image_id = None /\ image_source = None) \/
  (image_id <> None /\ image_source <> None) ->
  log (image_search e k model_type image_id image_source) = [] /\
  exists msg,
    outcome (image_search e k model_type image_id image_source)
    = Err (Raise (if supported_by_image_search model_type
                  then ValueError else NotImplementedError) msg).
Proof.
  intros H. unfold image_search, supported_by_image_search.
  assert ((image_id = None /\ image_source = None) \/
          exists i s, image_id = Some i /\ image_source = Some s) as H'.
  { destruct H as [[-> ->] | [H1 H2]]; [left; auto | right].
    destruct image_id; [| congruence]. destruct image_source; [| congruence]. eauto. }
  destruct (String.eqb model_type "clip");
    [| destruct (String.eqb model_type "longclip")]; cbn [orb];
    destruct H' as [[-> ->] | (i & s & -> & ->)];
    (split; [reflexivity | eexists; reflexivity]).
Qed.

Lemma image_search_requires_one_probe_witness :
  log (image_search Fixture.engine 3 "clip" None None) = [] /\
  exists msg,
    outcome (image_search Fixture.engine 3 "clip" None None)
    = Err (Raise ValueError msg).
Proof.
  apply (image_search_requires_one_probe Fixture.engine 3 "clip" None None).
  left. split; reflexivity.
Defined.

(** C10, counterexample: with [model_type = "beit3"] and no probe at all
    the call raises [NotImplementedError], not [ValueError]. *)
Lemma image_search_unsupported_model_first :
  image_search Fixture.engine 3 "beit3" None None
  = ([], Err (Raise NotImplementedError "not supported")).
Proof. reflexivity. Qed.

End ImageSearch.

(** ** Per-sentence normalisation *)
Section Normalisation.

Import Temporal.
Open Scope Q_scope.

Lemma Qltb_lt (a b : Q) : Qltb a b = true <-> a < b.
Proof.
  unfold Qltb. rewrite negb_true_iff. split.
  - intros H. apply Qnot_le_lt. intros Hle.
    apply Qle_bool_iff in Hle. congruence.
  - intros H. destruct (Qle_bool b a) eqn:E; [| reflexivity].
    apply Qle_bool_iff in E. exfalso. exact (Qlt_not_le _ _ H E).
Qed.

Lemma Qltb_ge (a b : Q) : Qltb a b = false <-> b <= a.
Proof.
  unfold Qltb. rewrite negb_false_iff. apply Qle_bool_iff.
Qed.

Lemma Qmin_cases (x y : Q) : Qmin x y = x \/ Qmin x y = y.
Proof.
  unfold Qmin, GenericMinMax.gmin. destruct (x ?= y); auto.
Qed.

Lemma Qmax_cases (x y : Q) : Qmax x y = x \/ Qmax x y = y.
Proof.
  unfold Qmax, GenericMinMax.gmax. destruct (x ?= y); auto.
Qed.

Lemma foldl_Qmin_bound (l : list Q) (a : Q) :
  foldl Qmin a l <= a /\ Forall (fun x => foldl Qmin a l <= x) l.
Proof.
  revert a; induction l as [| x l IH]; intros a; simpl.
  - split; [apply Qle_refl | constructor].
  - destruct (IH (Qmin a x)) as [H1 H2]. split.
    + eapply Qle_trans; [exact H1 | apply Q.le_min_l].
    + constructor; [| exact H2].
      eapply Qle_trans; [exact H1 | apply Q.le_min_r].
Qed.

Lemma foldl_Qmax_bound (l : list Q) (a : Q) :
  a <= foldl Qmax a l /\ Forall (fun x => x <= foldl Qmax a l) l.
Proof.
  revert a; induction l as [| x l IH]; intros a; simpl.
  - split; [apply Qle_refl | constructor].
  - destruct (IH (Qmax a x)) as [H1 H2]. split.
    + eapply Qle_trans; [apply Q.le_max_l | exact H1].
    + constructor; [| exact H2].
      eapply Qle_trans; [apply Q.le_max_r | exact H1].
Qed.

Lemma foldl_Qmin_In (l : list Q) (a : Q) : In (foldl Qmin a l) (a :: l).
Proof.
  revert a; induction l as [| x l IH]; intros a; simpl; [auto |].
  destruct (IH (Qmin a x)) as [H | H]; [| auto].
  rewrite <- H. destruct (Qmin_cases a x) as [-> | ->]; auto.
Qed.

Lemma foldl_Qmax_In (l : list Q) (a : Q) : In (foldl Qmax a l) (a :: l).
Proof.
  revert a; induction l as [| x l IH]; intros a; simpl; [auto |].
  destruct (IH (Qmax a x)) as [H | H]; [| auto].
  rewrite <- H. destruct (Qmax_cases a x) as [-> | ->]; auto.
Qed.

(** [smin] and [smax] are the least and the greatest entry of the row. *)
Lemma smin_smax_bounds (row : list Q) :
  Forall (fun s => smin row <= s <= smax row) row.
Proof.
  destruct row as [| x l]; [constructor |]. unfold smin, smax.
  destruct (foldl_Qmin_bound l x) as [H1 H2].
  destruct (foldl_Qmax_bound l x) as [H3 H4].
  constructor; [split; assumption |].
  rewrite List.Forall_forall in *. intros s Hs. split; [apply H2 | apply H4]; exact Hs.
Qed.

Lemma smin_smax_attained (row : list Q) :
  row <> [] -> In (smin row) row /\ In (smax row) row.
Proof.
  destruct row as [| x l]; [congruence |]. intros _. unfold smin, smax.
  split; [apply foldl_Qmin_In | apply foldl_Qmax_In].
Qed.

(** C4: for every query feature and every video matrix, each entry of the
    normalised similarity row lies in [[0, 1]]; the row is all zeros when
    [max - min < 1e-6], and is [(s - min) / (max - min)] entrywise
    otherwise, [min] and [max] being the least and greatest similarity of
    the row. *)
Theorem normalize_unit_interval (text_feat : Engine.tensor) (video : list Engine.tensor) :
  let S := Engine.sims text_feat video in
  Forall (fun v => 0 <= v <= 1) (normalize S) /\
  (smax S - smin S < eps -> normalize S = map (fun _ => 0) S) /\
  (~ smax S - smin S < eps ->
   normalize S = map (fun s => (s - smin S) / (smax S - smin S)) S) /\
  Forall (fun s => smin S <= s <= smax S) S /\
  (S <> [] -> In (smin S) S /\ In (smax S) S).
Proof.
  intros S. generalize S. clear. intros S.
  repeat split.
  - unfold normalize. destruct (Qltb (smax S - smin S) eps) eqn:E.
    + rewrite List.Forall_forall. intros v Hv. apply in_map_iff in Hv.
      destruct Hv as (s & <- & _). split; [apply Qle_refl | discriminate].
    + apply Qltb_ge in E.
      assert (0 < smax S - smin S) as Hd.
      { eapply Qlt_le_trans; [| exact E]. reflexivity. }
      pose proof (smin_smax_bounds S) as Hb.
      rewrite List.Forall_forall in *. intros v Hv. apply in_map_iff in Hv.
      destruct Hv as (s & <- & Hs). destruct (Hb s Hs) as [Hlo Hhi]. split.
      * apply Qle_shift_div_l; [exact Hd |]. lra.
      * apply Qle_shift_div_r; [exact Hd |]. lra.
  - intros H. unfold normalize. apply Qltb_lt in H. now rewrite H.
  - intros H. unfold normalize.
    destruct (Qltb (smax S - smin S) eps) eqn:E; [| reflexivity].
    apply Qltb_lt in E. contradiction.
  - apply smin_smax_bounds.
  - apply smin_smax_attained; assumption.
  - apply smin_smax_attained; assumption.
Qed.

(** Run on the two-row video of the fixture: the similarities [1] and
    [1/2] are spread to [1] and [0]. *)
Lemma normalize_unit_interval_witness :
  Forall (fun v => 0 <= v <= 1) (normalize (Engine.sims Fixture.unit_x [Fixture.unit_x; Fixture.unit_y])).
Proof.
  exact (proj1 (normalize_unit_interval Fixture.unit_x [Fixture.unit_x; Fixture.unit_y])).
Defined.

End Normalisation.

(** ** Anchor bonuses *)
Section AnchorBonus.

Import Temporal.

Lemma bump_length (j : Z) (bonus : list Q) (t : Z) :
  length (bump j bonus t) = length bonus.
Proof.
  unfold bump. destruct (bonus !! Z.to_nat t); [apply length_insert | reflexivity].
Qed.

Lemma bump_lookup (j : Z) (bonus : list Q) (t : Z) (i : nat) :
  bump j bonus t !! i =
  if decide (i = Z.to_nat t)
  then (fun b => Qmax b (anchor_boost * decay t j)) <$> bonus !! i
  else bonus !! i.
Proof.
  unfold bump. destruct (decide (i = Z.to_nat t)) as [-> | Hne].
  - destruct (bonus !! Z.to_nat t) as [b |] eqn:E; [| now rewrite E].
    rewrite list_lookup_insert_eq; [reflexivity |].
    eapply lookup_lt_Some; exact E.
  - destruct (bonus !! Z.to_nat t); [| reflexivity].
    now rewrite list_lookup_insert_ne.
Qed.

Lemma window_lookup (j : Z) (n : nat) (bonus : list Q) (L : Z) (i : nat) :
  0 <= L ->
  foldl (bump j) bonus (seqZ L (Z.of_nat n)) !! i =
  if decide (L <= Z.of_nat i < L + Z.of_nat n)
  then (fun b => Qmax b (anchor_boost * decay (Z.of_nat i) j)) <$> bonus !! i
  else bonus !! i.
Proof.
  revert bonus L. induction n as [| n IH]; intros bonus L HL.
  - simpl. destruct (decide _); [lia | reflexivity].
  - rewrite seqZ_cons by lia. simpl.
    replace (Z.pred (Z.of_nat (S n))) with (Z.of_nat n) by lia.
    rewrite IH by lia. rewrite bump_lookup.
    destruct (decide (i = Z.to_nat L)) as [-> | Hne].
    + rewrite Z2Nat.id by lia.
      destruct (decide (Z.succ L <= L < Z.succ L + Z.of_nat n)); [lia |].
      destruct (decide (L <= L < L + Z.of_nat (S n))); [reflexivity | lia].
    + destruct (decide (Z.succ L <= Z.of_nat i < Z.succ L + Z.of_nat n));
        destruct (decide (L <= Z.of_nat i < L + Z.of_nat (S n))); try reflexivity; lia.
Qed.

Lemma window_length (j : Z) (l : list Z) (bonus : list Q) :
  length (foldl (bump j) bonus l) = length bonus.
Proof.
  revert bonus; induction l as [| t l IH]; intros bonus; simpl; [reflexivity |].
  rewrite IH. apply bump_length.
Qed.

Lemma apply_hit_length (N : Z) (bonus : list Q) (h : unit_hit) :
  length (apply_hit N bonus h) = length bonus.
Proof.
  unfold apply_hit. destruct (hit_row h) as [j |]; [| reflexivity].
  destruct ((0 <=? j) && (j <? N)); [apply window_length | reflexivity].
Qed.

(** One hit: the entries within the window of an in-range row take the
    maximum with the decayed boost, every other entry is unchanged. *)
Lemma apply_hit_lookup (N : Z) (bonus : list Q) (h : unit_hit) (t : Z) :
  0 <= t < N ->
  apply_hit N bonus h !! Z.to_nat t =
  match contribution N t h with
  | Some c => (fun b => Qmax b c) <$> bonus !! Z.to_nat t
  | None => bonus !! Z.to_nat t
  end.
Proof.
  intros Ht. unfold apply_hit, contribution.
  destruct (hit_row h) as [j |]; [| reflexivity].
  destruct ((0 <=? j) && (j <? N)) eqn:E; [| reflexivity].
  apply andb_true_iff in E. destruct E as [E1 E2].
  apply Z.leb_le in E1. apply Z.ltb_lt in E2. cbn [andb].
  set (L := Z.max 0 (j - anchor_window)).
  set (R := Z.min N (j + anchor_window + 1)).
  assert (0 <= R - L) as HRL by (unfold L, R, anchor_window; lia).
  replace (R - L) with (Z.of_nat (Z.to_nat (R - L))) by lia.
  rewrite window_lookup by (unfold L; lia).
  rewrite !Z2Nat.id by lia.
  unfold L, R, anchor_window in *.
  destruct (decide _) as [Hin | Hout];
    destruct (Z.abs (t - j) <=? 2) eqn:Ew;
    try apply Z.leb_le in Ew; try apply Z.leb_gt in Ew; try reflexivity; lia.
Qed.

Lemma hits_lookup (N : Z) (hits : list unit_hit) (bonus : list Q) (t : Z) :
  0 <= t < N ->
  foldl (apply_hit N) bonus hits !! Z.to_nat t =
  (fun b => foldl Qmax b (omap (contribution N t) hits)) <$> bonus !! Z.to_nat t.
Proof.
  intros Ht. revert bonus. induction hits as [| h hits IH]; intros bonus; simpl.
  - now destruct (bonus !! Z.to_nat t).
  - rewrite IH, apply_hit_lookup by exact Ht.
    destruct (contribution N t h) as [c |]; [| reflexivity].
    now destruct (bonus !! Z.to_nat t).
Qed.

Lemma bonus_row_length (N : Z) (vid : string) (ranked_units : list unit_hit) :
  length (bonus_row N vid ranked_units) = Z.to_nat N.
Proof.
  unfold bonus_row.
  assert (forall hs b, length (foldl (apply_hit N) b hs) = length b) as Hlen.
  { induction hs as [| h hs IH]; intros b; simpl; [reflexivity |].
    rewrite IH. apply apply_hit_length. }
  rewrite Hlen. apply length_replicate.
Qed.

(** C5 (as amended): the bonus row of a sentence over a video with [N]
    rows is built from the first [anchor_top = 5] hits of the sentence's
    retained shortlist that belong to the video.  A hit whose path is
    missing or does not parse, or whose row [j] (frame number minus one)
    is not a row of the video, changes nothing.  A hit whose row [j] lies
    in [[0, N)] raises every entry [t] with [|t - j| <= 2] to the maximum
    of its value and [0.10 * (1 - |t - j| / 3)] and leaves the others.
    Hence entry [t] of the row is the maximum of zero and the boosts of
    the contributing hits. *)
Theorem anchor_bonus_rows (N : Z) (vid : string) (ranked_units : list unit_hit) :
  let hits := take anchor_top (hits_of_video vid ranked_units) in
  (length hits <= 5)%nat /\
  Forall (fun h => In h ranked_units /\ video_id h = Some vid) hits /\
  length (bonus_row N vid ranked_units) = Z.to_nat N /\
  (forall t, 0 <= t < N ->
     bonus_row N vid ranked_units !! Z.to_nat t
     = Some (foldl Qmax 0%Q (omap (contribution N t) hits))) /\
  (forall bonus h, hit_row h = None -> apply_hit N bonus h = bonus) /\
  (forall bonus h j, hit_row h = Some j -> ~ 0 <= j < N -> apply_hit N bonus h = bonus) /\
  (forall bonus h j t b,
     hit_row h = Some j -> 0 <= j < N -> 0 <= t < N ->
     bonus !! Z.to_nat t = Some b ->
     apply_hit N bonus h !! Z.to_nat t
     = Some (if Z.abs (t - j) <=? 2 then Qmax b (anchor_boost * decay t j) else b)) /\
  (forall t j, (anchor_boost * decay t j
                == (1 # 10) * (1 - inject_Z (Z.abs (t - j)) / 3))%Q).
Proof.
  intros hits. subst hits. repeat apply conj.
  - rewrite length_take. unfold anchor_top. lia.
  - rewrite List.Forall_forall. intros h Hh.
    assert (In h (hits_of_video vid ranked_units)) as Hin.
    { apply list_elem_of_In. eapply subseteq_take. apply list_elem_of_In. exact Hh. }
    apply filter_In in Hin. destruct Hin as [Hin Hv].
    apply bool_decide_eq_true in Hv. split; assumption.
  - apply bonus_row_length.
  - intros t Ht. unfold bonus_row. rewrite hits_lookup by exact Ht.
    rewrite lookup_replicate_2 by lia. reflexivity.
  - intros bonus h Hh. unfold apply_hit. now rewrite Hh.
  - intros bonus h j Hh Hj. unfold apply_hit. rewrite Hh.
    destruct ((0 <=? j) && (j <? N)) eqn:E; [| reflexivity].
    apply andb_true_iff in E. destruct E as [E1 E2].
    apply Z.leb_le in E1. apply Z.ltb_lt in E2. lia.
  - intros bonus h j t b Hh Hj Ht Hb.
    rewrite apply_hit_lookup by exact Ht. unfold contribution. rewrite Hh.
    assert ((0 <=? j) && (j <? N) = true) as ->.
    { apply andb_true_iff. split; [apply Z.leb_le | apply Z.ltb_lt]; lia. }
    cbn [andb]. unfold anchor_window. rewrite Hb.
    now destruct (Z.abs (t - j) <=? 2).
  - intros t j. unfold anchor_boost, decay, anchor_window. reflexivity.
Qed.

(** Run on a video of five rows and one hit on frame 4 (row 3): row 4 is
    inside the window and gets two thirds of the boost. *)
Lemma anchor_bonus_rows_witness :
  bonus_row 5 "L21_V001" [Fixture.hit_frame4] !! 4%nat
  = Some (foldl Qmax 0%Q (omap (contribution 5 4) [Fixture.hit_frame4])).
Proof.
  destruct (anchor_bonus_rows 5 "L21_V001" [Fixture.hit_frame4]) as (_ & _ & _ & H & _).
  apply (H 4). lia.
Defined.

(** C5, counterexample: the hit's file name [004.jpg] parses to row
    [j = 3] of a video with [N = 3] rows.  Row [t = 2] lies in
    [[j - 2, j + 2]] and in [[0, N)], and the boost there would be
    [0.10 * (1 - 1/3) > 0]; the code leaves the whole row at zero, because
    [j] itself is not a row of the video. *)
Lemma anchor_bonus_ignores_row_beyond_video :
  hit_row Fixture.hit_frame4 = Some 3 /\
  (3 - 2 <= 2 <= 3 + 2 /\ 0 <= 2 < 3) /\
  bonus_row 3 "L21_V001" [Fixture.hit_frame4] = [0; 0; 0]%Q /\
  (0 < Qmax 0 (anchor_boost * decay 2 3))%Q.
Proof.
  repeat apply conj; try (vm_compute; reflexivity); lia.
Qed.

End AnchorBonus.

(** ** The dynamic programme *)
Section DynamicProgramme.

Import Temporal.

Variables (w_min : Z) (w_max : option Z).

Lemma argmax_from_lookup (l pre : list Q) (best : Q) (besti i : nat) (v : Q) (c : nat) :
  length pre = i -> pre !! besti = Some best ->
  argmax_from best besti i l = (v, c) ->
  (pre ++ l) !! c = Some v.
Proof.
  revert pre best besti i. induction l as [| x l IH]; intros pre best besti i Hlen Hb H.
  - simpl in H. injection H as <- <-. rewrite app_nil_r. exact Hb.
  - simpl in H. replace (pre ++ x :: l) with ((pre ++ [x]) ++ l)
      by (now rewrite <- app_assoc).
    destruct (Qltb best x).
    + eapply IH; [| | exact H].
      * rewrite length_app. simpl. lia.
      * rewrite lookup_app_r by lia. rewrite Hlen, Nat.sub_diag. reflexivity.
    + eapply IH; [| | exact H].
      * rewrite length_app. simpl. lia.
      * apply lookup_app_l_Some. exact Hb.
Qed.

Lemma row_max_lookup (l : list Q) (v : Q) (c : nat) :
  l <> [] -> row_max l = (v, c) -> l !! c = Some v.
Proof.
  destruct l as [| x l]; [congruence |]. intros _ H. unfold row_max in H.
  change (x :: l) with ([x] ++ l).
  eapply argmax_from_lookup; [| | exact H]; reflexivity.
Qed.

Lemma masked_row_lookup (score_next : list Q) (j : Z) (c : nat) :
  masked_row w_min w_max score_next j !! c =
  (fun s => if valid w_min w_max j (Z.of_nat c) then s else neg_inf) <$> score_next !! c.
Proof. unfold masked_row. apply list_lookup_imap. Qed.

Lemma masked_row_length (score_next : list Q) (j : Z) :
  length (masked_row w_min w_max score_next j) = length score_next.
Proof. unfold masked_row. apply length_imap. Qed.

Lemma dp_layer_pointer (score_next work_prev : list Q) :
  good_table (length score_next) w_min w_max (dp_layer w_min w_max score_next work_prev).2.
Proof.
  unfold dp_layer, good_table. cbn [snd]. split.
  - rewrite !length_map, length_seqZ. lia.
  - intros j c Hp Hc.
    rewrite !list_lookup_fmap in Hp.
    destruct (seqZ 0 (Z.of_nat (length score_next)) !! j) as [z |] eqn:Ez;
      [| discriminate].
    apply lookup_seqZ in Ez. destruct Ez as [-> Hj]. simpl in Hp.
    injection Hp as Hp. unfold pointer_of in Hp.
    destruct (row_max (masked_row w_min w_max score_next (0 + Z.of_nat j)))
      as [v col] eqn:Er.
    cbn [fst snd] in Hp.
    destruct (Qltb neg_thresh v) eqn:Ev; [| lia]. subst c.
    apply Qltb_lt in Ev.
    apply row_max_lookup in Er.
    2:{ intros Hnil. apply (f_equal length) in Hnil.
        rewrite masked_row_length in Hnil. simpl in Hnil. lia. }
    rewrite masked_row_lookup in Er.
    destruct (score_next !! col) as [s |] eqn:Es; [| discriminate].
    simpl in Er. injection Er as Er.
    apply lookup_lt_Some in Es. split; [| lia].
    replace (0 + Z.of_nat j) with (Z.of_nat j) in Er by lia.
    destruct (valid w_min w_max (Z.of_nat j) (Z.of_nat col)); [reflexivity |].
    subst v. exfalso. revert Ev. unfold neg_thresh, neg_inf. intros Ev.
    apply Qlt_not_le in Ev. apply Ev. discriminate.
Qed.

Lemma dp_layer_length (score_next work_prev : list Q) :
  length work_prev = length score_next ->
  length (dp_layer w_min w_max score_next work_prev).1 = length score_next.
Proof.
  intros H. unfold dp_layer. cbn [fst].
  rewrite length_zip_with, !length_map, length_seqZ. lia.
Qed.

Lemma dp_sweep_tables (N : nat) (prevs : list (list Q)) (st : list Q * list (list Z)) :
  length st.1 = N -> Forall (good_table N w_min w_max) st.2 ->
  Forall (fun w => length w = N) prevs ->
  length (foldl (dp_step w_min w_max) st prevs).1 = N /\
  Forall (good_table N w_min w_max) (foldl (dp_step w_min w_max) st prevs).2 /\
  length (foldl (dp_step w_min w_max) st prevs).2 = (length st.2 + length prevs)%nat.
Proof.
  revert st. induction prevs as [| w prevs IH]; intros st Hlen Hgood Hw.
  - simpl. repeat split; auto.
  - simpl. pose proof (Forall_inv Hw) as Hw1. pose proof (Forall_inv_tail Hw) as Hw2.
    assert (dp_step w_min w_max st w
            = ((dp_layer w_min w_max st.1 w).1,
               st.2 ++ [(dp_layer w_min w_max st.1 w).2])) as Hstep.
    { unfold dp_step. now destruct (dp_layer w_min w_max st.1 w). }
    rewrite Hstep.
    destruct (IH ((dp_layer w_min w_max st.1 w).1,
                  st.2 ++ [(dp_layer w_min w_max st.1 w).2])) as (H1 & H2 & H3).
    + cbn [fst]. rewrite dp_layer_length; congruence.
    + cbn [snd]. apply Forall_app. split; [exact Hgood |].
      constructor; [| constructor]. rewrite <- Hlen. apply dp_layer_pointer.
    + exact Hw2.
    + repeat split; [exact H1 | exact H2 |].
      rewrite H3. cbn [snd]. rewrite length_app. simpl. lia.
Qed.

Lemma dp_tables_good (N : nat) (work : list (list Q)) :
  Forall (fun w => length w = N) work -> work <> [] ->
  length (dp_tables w_min w_max work).1 = N /\
  Forall (good_table N w_min w_max) (dp_tables w_min w_max work).2 /\
  S (length (dp_tables w_min w_max work).2) = length work.
Proof.
  intros Hw Hne. unfold dp_tables.
  assert (Forall (fun w => length w = N) (rev work)) as Hr.
  { rewrite List.Forall_forall in *. intros w Hin. apply Hw. now apply in_rev. }
  assert (length (rev work) = length work) as Hl by apply length_rev.
  destruct (rev work) as [| last prevs]; [destruct work; simpl in *; congruence |].
  pose proof (Forall_inv Hr) as Hr1. pose proof (Forall_inv_tail Hr) as Hr2.
  simpl in Hr1.
  destruct (dp_sweep_tables N prevs (last, [])) as (H1 & H2 & H3); auto.
  repeat split; [exact H1 | exact H2 |].
  rewrite H3. simpl in *. lia.
Qed.

Lemma gaps_ok_snoc (l : list Z) (a b : Z) :
  gaps_ok w_min w_max (l ++ [a]) -> valid w_min w_max a b = true ->
  gaps_ok w_min w_max ((l ++ [a]) ++ [b]).
Proof.
  induction l as [| x l IH]; intros H Hv.
  - simpl. auto.
  - destruct l as [| y l].
    + simpl in *. tauto.
    + simpl in H. destruct H as [Hxy H].
      change (((x :: y :: l) ++ [a]) ++ [b]) with (x :: ((y :: l) ++ [a]) ++ [b]).
      specialize (IH H Hv).
      change (((y :: l) ++ [a]) ++ [b]) with (y :: (l ++ [a]) ++ [b]) in *.
      simpl. split; [exact Hxy | exact IH].
Qed.

(** Backtracking: a feasible walk visits one row per table, each step
    within the gap bounds. *)
Lemma follow_feasible (N : nat) (ptrs : list (list Z)) (cur : Z) (pre frames : list Z) :
  Forall (good_table N w_min w_max) ptrs ->
  0 <= cur < Z.of_nat N ->
  Forall (fun i => 0 <= i < Z.of_nat N) (pre ++ [cur]) ->
  gaps_ok w_min w_max (pre ++ [cur]) ->
  follow ptrs cur (pre ++ [cur]) = (true, frames) ->
  length frames = (length pre + 1 + length ptrs)%nat /\
  Forall (fun i => 0 <= i < Z.of_nat N) frames /\
  gaps_ok w_min w_max frames.
Proof.
  revert cur pre. induction ptrs as [| p ptrs IH]; intros cur pre Hg Hc Hr Hgap H.
  - simpl in H. injection H as <-. rewrite length_app. simpl.
    repeat split; [lia | exact Hr | exact Hgap].
  - simpl in H. pose proof (Forall_inv Hg) as Hp. pose proof (Forall_inv_tail Hg) as Hps.
    destruct (p !! Z.to_nat cur) as [nxt |] eqn:En; [| discriminate].
    destruct (nxt <? 0) eqn:Eneg; [discriminate |].
    apply Z.ltb_ge in Eneg.
    destruct Hp as [_ Hp]. destruct (Hp _ _ En Eneg) as [Hv Hn].
    rewrite Z2Nat.id in Hv by lia.
    destruct (IH nxt (pre ++ [cur]) Hps) as (H1 & H2 & H3); try assumption.
    + lia.
    + apply Forall_app. split; [exact Hr |]. constructor; [lia | constructor].
    + apply gaps_ok_snoc; assumption.
    + repeat split; [| exact H2 | exact H3].
      rewrite H1, length_app. simpl. lia.
Qed.

(** A returned alignment names [n_sent] rows of the video, consecutive
    ones within the gap bounds. *)
Lemma align_sound (N n_sent : nat) (work : list (list Q)) (frames : list Z) (sc : Q) :
  (0 < N)%nat -> work <> [] ->
  Forall (fun w => length w = N) work ->
  align n_sent w_min w_max work = Some (frames, sc) ->
  length frames = n_sent /\
  Forall (fun i => 0 <= i < Z.of_nat N) frames /\
  gaps_ok w_min w_max frames.
Proof.
  intros HN Hne Hw H. unfold align in H.
  destruct (dp_tables_good N work Hw Hne) as (Hlen & Hgood & _).
  destruct (dp_tables w_min w_max work) as [score_next tables].
  cbn [fst snd] in *.
  destruct (row_max score_next) as [total f0] eqn:Er.
  apply row_max_lookup in Er; [| intros ->; simpl in Hlen; lia].
  apply lookup_lt_Some in Er.
  destruct (follow (rev tables) (Z.of_nat f0) [Z.of_nat f0]) as [feasible frs] eqn:Ef.
  destruct feasible; [| discriminate]. cbn [andb] in H.
  destruct (length frs =? n_sent)%nat eqn:El; [| discriminate].
  injection H as <- _. apply Nat.eqb_eq in El.
  destruct (follow_feasible N (rev tables) (Z.of_nat f0) [] frs) as (_ & H2 & H3).
  - rewrite List.Forall_forall in *. intros p Hp. apply Hgood. now apply in_rev.
  - lia.
  - constructor; [lia | constructor].
  - simpl. exact I.
  - exact Ef.
  - repeat split; assumption.
Qed.

End DynamicProgramme.

(** ** Facts about the effect layer *)
Section Effects.

Lemma bind_ok_inv {A B} (m : M A) (f : A -> M B) (b : B) :
  outcome (bind m f) = Ok b ->
  exists a, outcome m = Ok a /\ outcome (f a) = Ok b.
Proof.
  unfold bind, outcome. destruct m as [l [a | e]]; simpl; [eauto | discriminate].
Qed.

Lemma bind_ok {A B} (m : M A) (f : A -> M B) (a : A) :
  outcome m = Ok a ->
  bind m f = (log m ++ log (f a), outcome (f a)).
Proof.
  unfold bind, outcome, log. destruct m as [l r]; simpl. now intros ->.
Qed.

Lemma bind_err {A B} (m : M A) (f : A -> M B) (e : exn) :
  outcome m = Err e -> bind m f = (log m, Err e).
Proof.
  unfold bind, outcome, log. destruct m as [l r]; simpl. now intros ->.
Qed.

Lemma try_except_ok {A} (m : M A) (h : exn -> M A) (a : A) :
  outcome m = Ok a -> try_except m h = m.
Proof.
  unfold try_except, outcome. now intros ->.
Qed.

Lemma try_except_err {A} (m : M A) (h : exn -> M A) (e : exn) :
  outcome m = Err e -> outcome (try_except m h) = outcome (h e).
Proof.
  unfold try_except, outcome. now intros ->.
Qed.

Lemma log_bind_prefix {A B} (m : M A) (f : A -> M B) :
  exists rest, log (bind m f) = log m ++ rest.
Proof.
  unfold bind, log. destruct m as [l [a | e]]; simpl.
  - eauto.
  - exists []. now rewrite app_nil_r.
Qed.

End Effects.

(** ** Sorting by descending score *)
Section SortDesc.

Import Engine.
Context {A : Type} (key : A -> Q).

Lemma insert_desc_perm (x : A) (l : list A) :
  Permutation (insert_desc key x l) (x :: l).
Proof.
  induction l as [| y l IH]; simpl; [reflexivity |].
  destruct (Temporal.Qltb (key x) (key y)); [| reflexivity].
  rewrite IH. apply perm_swap.
Qed.

Lemma sort_desc_perm (l : list A) : Permutation (sort_desc key l) l.
Proof.
  induction l as [| x l IH]; simpl; [reflexivity |].
  unfold sort_desc in *. simpl. rewrite insert_desc_perm. now constructor.
Qed.

Lemma sort_desc_In (l : list A) (x : A) : In x (sort_desc key l) <-> In x l.
Proof.
  split; apply Permutation_in; [| symmetry]; apply sort_desc_perm.
Qed.

Lemma insert_desc_sorted (x : A) (l : list A) :
  StronglySorted (desc key) l -> StronglySorted (desc key) (insert_desc key x l).
Proof.
  induction l as [| y l IH]; intros Hs; simpl.
  - constructor; [constructor | constructor].
  - pose proof (StronglySorted_inv Hs) as [Hs' Hy].
    destruct (Temporal.Qltb (key x) (key y)) eqn:E.
    + apply Qltb_lt in E. constructor; [apply IH; exact Hs' |].
      unfold desc in *. rewrite List.Forall_forall in *. intros z Hz.
      apply (Permutation_in _ (insert_desc_perm x l)) in Hz.
      destruct Hz as [<- | Hz]; [apply Qlt_le_weak; exact E | apply Hy; exact Hz].
    + apply Qltb_ge in E. constructor; [exact Hs |].
      unfold desc in *. constructor; [exact E |].
      rewrite List.Forall_forall in *. intros z Hz.
      eapply Qle_trans; [apply Hy; exact Hz | exact E].
Qed.

Lemma sort_desc_sorted (l : list A) : StronglySorted (desc key) (sort_desc key l).
Proof.
  induction l as [| x l IH]; [constructor |].
  unfold sort_desc in *. simpl. now apply insert_desc_sorted.
Qed.

Lemma top_k_In (k : Z) (l : list A) (x : A) : In x (top_k k l) -> In x l.
Proof.
  unfold top_k. destruct (0 <? k); [| auto].
  intros H. apply list_elem_of_In. eapply subseteq_take. apply list_elem_of_In. exact H.
Qed.

End SortDesc.

(** ** Temporal search: the frames of a result *)
Section TemporalFrames.

Import Temporal Engine.

Lemma normalize_length (row : list Q) : length (normalize row) = length row.
Proof.
  unfold normalize. destruct (Qltb _ _); apply length_map.
Qed.

Lemma work_matrix_rows (feats : list (tensor * tensor)) (per_sentence : list sentence_units)
  (vid : string) (video : list tensor) :
  Forall (fun w => length w = length video) (work_matrix feats per_sentence vid video).
Proof.
  unfold work_matrix. apply Forall_lookup. intros i w Hw.
  apply lookup_zip_with_Some in Hw. destruct Hw as (norm & bonus & -> & Hn & Hb).
  rewrite list_lookup_fmap in Hn. rewrite list_lookup_fmap in Hb.
  destruct (feats !! i) as [f |]; [| discriminate].
  destruct (per_sentence !! i) as [ps |]; [| discriminate].
  simpl in Hn, Hb. injection Hn as <-. injection Hb as <-.
  unfold work_row. rewrite length_zip_with, normalize_length.
  unfold sims. rewrite length_map.
  rewrite bonus_row_length. lia.
Qed.

Lemma numel_nonzero (video : list tensor) : numel video <> 0%nat -> (0 < length video)%nat.
Proof. destruct video; simpl; [congruence | lia]. Qed.

Lemma gaps_ok_lookup (w_min : Z) (w_max : option Z) (l : list Z) (t : nat) (a b : Z) :
  gaps_ok w_min w_max l -> l !! t = Some a -> l !! S t = Some b ->
  valid w_min w_max a b = true.
Proof.
  revert t. induction l as [| x l IH]; intros t Hg Ha Hb; [discriminate |].
  destruct l as [| y l]; [discriminate |].
  destruct Hg as [Hxy Hg]. destruct t as [| t].
  - simpl in Ha, Hb. injection Ha as <-. injection Hb as <-. exact Hxy.
  - apply (IH t Hg); assumption.
Qed.

(** A scored video carries the alignment of its own work matrix. *)
Lemma score_video_sound (n_sent : nat) (w_min : Z) (w_max : option Z)
  (feats : list (tensor * tensor)) (per_sentence : list sentence_units)
  (vid : string) (video : list tensor) (r : aligned_result) :
  (2 <= n_sent)%nat ->
  score_video n_sent w_min w_max feats per_sentence vid video = Some r ->
  result_video_id r = vid /\
  length (frames r) = n_sent /\
  Forall (fun i => 0 <= i < Z.of_nat (length video)) (frames r) /\
  gaps_ok w_min w_max (frames r).
Proof.
  intros Hn H. unfold score_video in H.
  destruct (numel video =? 0)%nat eqn:En; [discriminate |].
  apply Nat.eqb_neq in En. apply numel_nonzero in En.
  destruct (length video <? n_sent)%nat; [discriminate |].
  destruct (align n_sent w_min w_max (work_matrix feats per_sentence vid video))
    as [[frs sc] |] eqn:Ea; [| discriminate].
  injection H as <-. cbn [result_video_id frames]. split; [reflexivity |].
  pose proof (work_matrix_rows feats per_sentence vid video) as Hrows.
  destruct (work_matrix feats per_sentence vid video) as [| w ws] eqn:Ew.
  - exfalso. unfold align in Ea. simpl in Ea.
    destruct n_sent as [| [| n]]; try discriminate; lia.
  - eapply align_sound; [exact En | | exact Hrows | exact Ea]. discriminate.
Qed.

Lemma align_video_outcome (e : MyFaiss) (model_type : string) (n_sent : nat)
  (w_min : Z) (w_max : option Z) (feats : list (tensor * tensor))
  (per_sentence : list sentence_units) (results : list aligned_result) (vid : string) :
  outcome (align_video e model_type n_sent w_min w_max feats per_sentence results vid)
  = Ok (match video_features e model_type vid with
        | Ok video =>
            match score_video n_sent w_min w_max feats per_sentence vid video with
            | Some r => results ++ [r]
            | None => results
            end
        | Err _ => results
        end).
Proof.
  unfold align_video, bind, try_except, call, ret, outcome. simpl.
  destruct (video_features e model_type vid); reflexivity.
Qed.

(** The loop over the candidate videos only adds scored, loaded videos. *)
Lemma align_loop_results (e : MyFaiss) (model_type : string) (n_sent : nat)
  (w_min : Z) (w_max : option Z) (feats : list (tensor * tensor))
  (per_sentence : list sentence_units) (cands : list string)
  (acc rs : list aligned_result) :
  outcome (for_each (align_video e model_type n_sent w_min w_max feats per_sentence)
             cands acc) = Ok rs ->
  forall r, In r rs ->
    In r acc \/
    exists vid video,
      In vid cands /\ video_features e model_type vid = Ok video /\
      score_video n_sent w_min w_max feats per_sentence vid video = Some r.
Proof.
  revert acc. induction cands as [| vid cands IH]; intros acc H r Hr.
  - simpl in H. injection H as <-. now left.
  - simpl in H. apply bind_ok_inv in H. destruct H as (acc' & Hacc & H).
    rewrite align_video_outcome in Hacc.
    injection Hacc as Hacc. subst acc'.
    destruct (IH _ H r Hr) as [Hin | (v & video & Hv & Hload & Hs)].
    + destruct (video_features e model_type vid) as [video | ex] eqn:El; [| now left].
      destruct (score_video n_sent w_min w_max feats per_sentence vid video)
        as [r' |] eqn:Es; [| now left].
      apply in_app_or in Hin. destruct Hin as [Hin | [<- | []]]; [now left |].
      right. exists vid, video. simpl. auto.
    + right. exists v, video. simpl. auto.
Qed.

(** C1 (as amended): every result of a multi-sentence [temporal_search]
    names a video whose feature matrix was loaded; its frames are as many
    as the sentences, each is a row index of that matrix
    ([0 <= i < F_v]), and consecutive frames differ by at least [w_min]
    and, when [w_max] is set, by at most [w_max].  When [w_min >= 1] (the
    default, and the least value the request schema admits) the frames
    are strictly increasing. *)
Theorem temporal_frames_within_gaps (e : MyFaiss) (text : string) (k : Z)
  (model_type : string) (topk_per_sentence max_candidate_videos w_min : Z)
  (w_max : option Z) (ss : list string) (ps : list sentence_units)
  (cv : list string) (rs : list aligned_result) (r : aligned_result) :
  outcome (temporal_search e text k model_type topk_per_sentence
             max_candidate_videos w_min w_max) = Ok (MultiSentence ss ps cv rs) ->
  In r rs ->
  exists video,
    video_features e model_type (result_video_id r) = Ok video /\
    (2 <= length ss)%nat /\
    length (frames r) = length ss /\
    Forall (fun i => 0 <= i < Z.of_nat (length video)) (frames r) /\
    (forall t a b, frames r !! t = Some a -> frames r !! S t = Some b ->
       w_min <= b - a /\
       (forall w, w_max = Some w -> b - a <= w) /\
       (1 <= w_min -> a < b)).
Proof.
  intros H Hr. unfold temporal_search in H.
  apply bind_ok_inv in H. destruct H as (t & _ & H).
  destruct (split_query t) as [| s1 [| s2 ss']] eqn:Es.
  - discriminate.
  - apply bind_ok_inv in H. destruct H as ([[scores idxs] paths] & _ & H).
    destruct (unit_loop k (zip scores paths) [] ∅). discriminate.
  - apply bind_ok_inv in H. destruct H as ([[ps' cv'] results] & Hall & H).
    injection H as <- <- <- <-.
    apply top_k_In in Hr.
    unfold align_all in Hall.
    apply bind_ok_inv in Hall. destruct Hall as (feats & _ & Hall).
    apply bind_ok_inv in Hall. destruct Hall as (index & _ & Hall).
    apply bind_ok_inv in Hall. destruct Hall as (found & _ & Hall).
    destruct (found.2.1) as [| c cs] eqn:Ec.
    + injection Hall as <- <- <-. destruct Hr.
    + apply bind_ok_inv in Hall. destruct Hall as (results0 & Hloop & Hall).
      injection Hall as <- <- <-.
      apply sort_desc_In in Hr.
      destruct (align_loop_results _ _ _ _ _ _ _ _ _ _ Hloop r Hr)
        as [[] | (vid & video & _ & Hload & Hscore)].
      apply score_video_sound in Hscore; [| simpl; lia].
      destruct Hscore as (Hvid & Hlen & Hrange & Hgaps).
      exists video. rewrite Hvid. repeat apply conj; try assumption.
      * simpl. lia.
      * intros i a b Ha Hb.
        pose proof (gaps_ok_lookup _ _ _ _ _ _ Hgaps Ha Hb) as Hv.
        unfold valid in Hv. apply andb_true_iff in Hv. destruct Hv as [Hv1 Hv2].
        apply Z.leb_le in Hv1. repeat apply conj.
        -- exact Hv1.
        -- intros w ->. now apply Z.leb_le in Hv2.
        -- lia.
Qed.

Lemma temporal_frames_within_gaps_witness :
  exists video,
    video_features Fixture.engine "clip" "L21_V001" = Ok video /\
    (2 <= 2)%nat /\
    length [0; 1] = 2%nat /\
    Forall (fun i => 0 <= i < Z.of_nat (length video)) [0; 1] /\
    (forall t a b, [0; 1] !! t = Some a -> [0; 1] !! S t = Some b ->
       1 <= b - a /\
       (forall w, Some 5 = Some w -> b - a <= w) /\
       (1 <= 1 -> a < b)).
Proof.
  pose (d := outcome (temporal_search Fixture.engine "a. b" 5 "clip" 3 30 1 (Some 5))).
  assert (exists ps cv r,
             d = Ok (MultiSentence ["a"; "b"]%string ps cv [r]) /\
             result_video_id r = "L21_V001"%string /\ frames r = [0; 1]) as Hd.
  { vm_compute. do 3 eexists. repeat split. }
  destruct Hd as (ps & cv & r & Hd & Hv & Hf).
  rewrite <- Hv, <- Hf.
  exact (temporal_frames_within_gaps Fixture.engine "a. b" 5 "clip" 3 30 1 (Some 5)
           ["a"; "b"]%string ps cv [r] r Hd (or_introl eq_refl)).
Defined.

(** C1, counterexample: with [w_min = 0] the engine aligns both sentences
    of the query to the same row, so the returned frames [[0; 0]] are not
    strictly increasing. *)
Lemma temporal_frames_repeat_at_zero_gap :
  exists ps cv r,
    outcome (temporal_search Fixture.engine "a. b" 5 "clip" 3 30 0 None)
    = Ok (MultiSentence ["a"; "b"]%string ps cv [r]) /\
    frames r = [0; 0].
Proof.
  vm_compute. do 3 eexists. split; reflexivity.
Qed.

End TemporalFrames.

(** ** Multi-model fusion *)
Section Fusion.

Import SearchService.

Lemma StronglySorted_sublist {A} (R : A -> A -> Prop) (l1 l2 : list A) :
  sublist l1 l2 -> StronglySorted R l2 -> StronglySorted R l1.
Proof.
  induction 1 as [| x l1 l2 Hsub IH | x l1 l2 Hsub IH]; intros Hs.
  - constructor.
  - apply StronglySorted_inv in Hs. destruct Hs as [Hs Hx].
    constructor; [apply IH; exact Hs |].
    rewrite List.Forall_forall in *. intros y Hy. apply Hx.
    apply list_elem_of_In. eapply sublist_subseteq; [exact Hsub |].
    apply list_elem_of_In. exact Hy.
  - apply StronglySorted_inv in Hs. destruct Hs as [Hs _]. apply IH. exact Hs.
Qed.

Variable limit : Z.

Lemma fuse_loop_sublist (sorted unique : list SearchResult) (seen : gset (option string)) :
  exists suffix,
    fuse_loop limit sorted unique seen = unique ++ suffix /\ sublist suffix sorted.
Proof.
  revert unique seen. induction sorted as [| r rest IH]; intros unique seen; simpl.
  - exists []. rewrite app_nil_r. split; [reflexivity | constructor].
  - case_bool_decide.
    + destruct (IH unique seen) as (suffix & -> & Hsub).
      exists suffix. split; [reflexivity | now apply sublist_cons].
    + destruct (limit <=? Z.of_nat (length (unique ++ [r]))).
      * exists [r]. split; [reflexivity |]. apply sublist_skip, sublist_nil_l.
      * destruct (IH (unique ++ [r]) ({[link r]} ∪ seen)) as (suffix & -> & Hsub).
        exists (r :: suffix). rewrite <- app_assoc. split; [reflexivity |].
        now apply sublist_skip.
Qed.

(** A hit the loop adds is the first of the sorted list with its path. *)
Lemma fuse_loop_first (sorted unique : list SearchResult) (seen : gset (option string)) :
  forall r, In r (fuse_loop limit sorted unique seen) ->
    In r unique \/
    exists pre post,
      sorted = pre ++ r :: post /\ (link r ∉ seen) /\
      forall x, In x pre -> link x <> link r.
Proof.
  revert unique seen. induction sorted as [| y rest IH]; intros unique seen r Hr;
    simpl in Hr.
  - now left.
  - case_bool_decide as Hy.
    + destruct (IH _ _ _ Hr) as [Hin | (pre & post & -> & Hns & Hpre)]; [now left |].
      right. exists (y :: pre), post. repeat split; [assumption |].
      intros x [<- | Hx]; [| now apply Hpre]. intros Heq. apply Hns. now rewrite <- Heq.
    + assert (In r unique \/ r = y \/
              exists pre post, rest = pre ++ r :: post /\ (link r ∉ {[link y]} ∪ seen) /\
                               forall x, In x pre -> link x <> link r) as Hcases.
      { destruct (limit <=? Z.of_nat (length (unique ++ [y]))).
        - apply in_app_or in Hr. destruct Hr as [Hr | [<- | []]]; auto.
        - destruct (IH _ _ _ Hr) as [Hin | Hex]; [| auto].
          apply in_app_or in Hin. destruct Hin as [Hin | [<- | []]]; auto. }
      destruct Hcases as [Hin | [-> | (pre & post & -> & Hns & Hpre)]].
      * now left.
      * right. exists [], rest. repeat split; [assumption |]. intros x [].
      * right. exists (y :: pre), post. repeat split.
        -- set_solver.
        -- intros x [<- | Hx]; [| now apply Hpre]. set_solver.
Qed.

Lemma fuse_loop_nodup (sorted unique : list SearchResult) (seen : gset (option string)) :
  NoDup (map link unique) ->
  (forall u, In u unique -> link u ∈ seen) ->
  NoDup (map link (fuse_loop limit sorted unique seen)).
Proof.
  revert unique seen. induction sorted as [| y rest IH]; intros unique seen Hnd Hseen;
    simpl.
  - exact Hnd.
  - case_bool_decide as Hy; [now apply IH |].
    assert (NoDup (map link (unique ++ [y]))) as Hnd'.
    { rewrite map_app. simpl. apply NoDup_app. repeat split.
      - exact Hnd.
      - intros p Hp Hp'. apply list_elem_of_In in Hp. apply in_map_iff in Hp.
        destruct Hp as (u & <- & Hu). apply Hy.
        apply list_elem_of_In in Hp'. destruct Hp' as [Heq | []].
        rewrite Heq. now apply Hseen.
      - apply NoDup_singleton. }
    destruct (limit <=? Z.of_nat (length (unique ++ [y]))); [exact Hnd' |].
    apply IH; [exact Hnd' |].
    intros u Hu. apply in_app_or in Hu. destruct Hu as [Hu | [<- | []]].
    + specialize (Hseen u Hu). set_solver.
    + set_solver.
Qed.

Lemma fuse_loop_length (sorted unique : list SearchResult) (seen : gset (option string)) :
  Z.of_nat (length unique) < limit ->
  Z.of_nat (length (fuse_loop limit sorted unique seen)) <= limit.
Proof.
  revert unique seen. induction sorted as [| y rest IH]; intros unique seen Hlen; simpl.
  - lia.
  - case_bool_decide; [now apply IH |].
    destruct (limit <=? Z.of_nat (length (unique ++ [y]))) eqn:E.
    + rewrite length_app in *. simpl in *. lia.
    + apply Z.leb_gt in E. now apply IH.
Qed.

(** The closing loop on any collected list: no path twice, best score
    first, and for each path its best-scoring hit. *)
Lemma fuse_sound (all_results : list SearchResult) :
  NoDup (map link (fuse limit all_results)) /\
  StronglySorted (desc score) (fuse limit all_results) /\
  (forall r, In r (fuse limit all_results) ->
     In r all_results /\
     forall r', In r' all_results -> link r' = link r -> (score r' <= score r)%Q) /\
  (1 <= limit -> Z.of_nat (length (fuse limit all_results)) <= limit).
Proof.
  unfold fuse. pose proof (sort_desc_sorted score all_results) as Hs.
  repeat apply conj.
  - apply fuse_loop_nodup; [constructor | intros u []].
  - destruct (fuse_loop_sublist (Engine.sort_desc score all_results) [] ∅)
      as (suffix & -> & Hsub).
    simpl. eapply StronglySorted_sublist; eassumption.
  - intros r Hr. apply fuse_loop_first in Hr.
    destruct Hr as [[] | (pre & post & Heq & _ & Hpre)].
    assert (In r (Engine.sort_desc score all_results)) as Hin
      by (rewrite Heq; apply in_or_app; right; now left).
    split; [now apply sort_desc_In in Hin |].
    intros r' Hr' Hlink. apply (sort_desc_In score) in Hr'.
    rewrite Heq in Hr', Hs. apply in_app_or in Hr'.
    destruct Hr' as [Hr' | [<- | Hr']].
    + exfalso. exact (Hpre r' Hr' Hlink).
    + apply Qle_refl.
    + apply StronglySorted_app_1_r in Hs. apply StronglySorted_inv in Hs.
      destruct Hs as [_ Hs]. rewrite List.Forall_forall in Hs. now apply Hs.
  - intros Hk. apply fuse_loop_length. simpl. lia.
Qed.

End Fusion.

(** ** Multi-model search through the service *)
Section SearchAllModels.

Import SearchService.










End SearchAllModels.

(** ** Single-model text search through the service *)
Section SimilarityFloor.

Import SearchService.

Lemma unique_loop_subset (limit : Z) (results unique : list SearchResult)
  (seen : gset string) :
  forall r, In r (unique_loop limit results unique seen) -> In r unique \/ In r results.
Proof.
  revert unique seen. induction results as [| y rest IH]; intros unique seen r Hr;
    simpl in Hr.
  - now left.
  - case_bool_decide.
    + destruct (IH _ _ _ Hr); [now left | right; now right].
    + destruct (limit <=? Z.of_nat (length (unique ++ [y]))).
      * apply in_app_or in Hr. destruct Hr as [Hr | [<- | []]];
          [now left | right; now left].
      * destruct (IH _ _ _ Hr) as [Hin | Hin]; [| right; now right].
        apply in_app_or in Hin. destruct Hin as [Hin | [<- | []]];
          [now left | right; now left].
Qed.

Lemma enhance_one_score (lookup : string -> result (option frame_metadata))
  (r : SearchResult) : score (enhance_one lookup r) = score r.
Proof.
  unfold enhance_one. destruct (String.prefix "beit3_" (image_id r)); [reflexivity |].
  destruct (lookup (image_id r)) as [[md |] | ex]; reflexivity.
Qed.

Lemma enhance_scores (svc : SearchService) (results : list SearchResult) (floor : Q) :
  Forall (fun r => (floor <= score r)%Q) results ->
  Forall (fun r => (floor <= score r)%Q) (_enhance_results_with_metadata svc results).
Proof.
  intros H. unfold _enhance_results_with_metadata.
  destruct (metadata_service svc) as [lookup |]; [| exact H].
  rewrite List.Forall_forall in *. intros r Hr. apply in_map_iff in Hr.
  destruct Hr as (r0 & <- & Hr0). rewrite enhance_one_score. now apply H.
Qed.

(** The hits of the single-model branch that pass the floor. *)
Lemma passing_hits_floor (m : ModelType) (found : list Q * list Z * list string) :
  Forall (fun r => (similarity_threshold m <= score r)%Q)
    (map (make_result (value m))
       (List.filter (fun h => Py.truthy h.2 && Qle_bool (similarity_threshold m) h.1.1)
          (zip3 found))).
Proof.
  rewrite List.Forall_forall. intros r Hr. apply in_map_iff in Hr.
  destruct Hr as ([[s i] p] & <- & Hh). apply filter_In in Hh.
  destruct Hh as [_ Hh]. apply andb_true_iff in Hh. destruct Hh as [_ Hh].
  apply Qle_bool_iff in Hh. exact Hh.
Qed.

Lemma single_model_search_outcome (svc : SearchService) (e : Engine.MyFaiss)
  (query : string) (m : ModelType) (limit : Z) (found : list Q * list Z * list string) :
  outcome (Engine.text_search e query limit (value m)) = Ok found ->
  exists hits,
    outcome (single_model_search svc e query m limit) = Ok hits /\
    Forall (fun r => (similarity_threshold m <= score r)%Q) hits /\
    (Forall (fun s => (s < similarity_threshold m)%Q) found.1.1 -> hits = []).
Proof.
  intros Hf. unfold single_model_search. rewrite (bind_ok _ _ _ Hf). cbn [outcome snd].
  pose proof (passing_hits_floor m found) as Hpass.
  set (passing := List.filter _ (zip3 found)) in *.
  assert (Forall (fun s => (s < similarity_threshold m)%Q) found.1.1 -> passing = [])
    as Hnone.
  { intros Hlow. subst passing.
    destruct (List.filter _ (zip3 found)) as [| h t] eqn:E; [reflexivity |].
    exfalso. assert (In h (h :: t)) as Hin by now left. rewrite <- E in Hin.
    apply filter_In in Hin. destruct Hin as [Hin Hh].
    apply andb_true_iff in Hh. destruct Hh as [_ Hh]. apply Qle_bool_iff in Hh.
    assert (In h.1.1 found.1.1) as Hs.
    { destruct found as [[scores idxs] paths]. unfold zip3 in Hin. cbn [fst snd] in *.
      destruct h as [[s i] p]. apply in_combine_l in Hin. apply in_combine_l in Hin.
      exact Hin. }
    rewrite List.Forall_forall in Hlow. apply Hlow in Hs.
    exact (Qlt_not_le _ _ Hs Hh). }
  destruct (map (make_result (value m)) passing) as [| r rs] eqn:Em.
  - exists []. split; [reflexivity | split; [constructor | reflexivity]].
  - eexists. split; [reflexivity |]. split.
    + apply enhance_scores. rewrite List.Forall_forall in *. intros x Hx.
      apply unique_loop_subset in Hx. destruct Hx as [[] | Hx]. now apply Hpass.
    + intros Hlow. rewrite (Hnone Hlow) in Em. discriminate.
Qed.

(** C7 (as amended): for a single-model text search with the engine
    loaded, whenever the engine's [text_search] returns, every hit of the
    answer has a score of at least the model's floor ([0.2] for CLIP,
    [0.4] for BEiT-3, [1.0] for LongCLIP and CLIP2Video); hits below it
    are dropped without an error, so the answer is empty when no score
    reaches the floor.  When the engine's [text_search] raises, the
    service answers with the empty list for a [ValueError] whose message
    contains "not available", and with the mock hits otherwise. *)
Theorem text_search_floor (svc : SearchService) (e : Engine.MyFaiss) (query : string)
  (m : ModelType) (limit : Z) :
  faiss_engine svc = Some e -> m <> ALL ->
  (forall found,
     outcome (Engine.text_search e query limit (value m)) = Ok found ->
     exists hits,
       outcome (text_search svc query m limit) = Ok hits /\
       Forall (fun r => (similarity_threshold m <= score r)%Q) hits /\
       (Forall (fun s => (s < similarity_threshold m)%Q) found.1.1 -> hits = [])) /\
  (forall ex,
     outcome (Engine.text_search e query limit (value m)) = Err ex ->
     outcome (text_search svc query m limit)
     = Ok (if match kind ex with ValueError => true | _ => false end
              && Py.contains "not available" (Py.lower (message ex))
           then [] else _mock_search_results limit "text" query)) /\
  (similarity_threshold CLIP = 2 # 10 /\ similarity_threshold BEIT3 = 4 # 10 /\
   similarity_threshold LONGCLIP = 1 /\ similarity_threshold CLIP2VIDEO = 1)%Q.
Proof.
  intros Hsvc Hm.
  assert (text_search svc query m limit
          = try_except (single_model_search svc e query m limit)
              (fun ex =>
                 match kind ex with
                 | ValueError =>
                     if Py.contains "not available" (Py.lower (message ex)) then ret []
                     else ret (_mock_search_results limit "text" query)
                 | _ => ret (_mock_search_results limit "text" query)
                 end)) as ->.
  { unfold text_search. rewrite Hsvc. destruct m; try reflexivity. congruence. }
  repeat apply conj; try reflexivity.
  - intros found Hf.
    destruct (single_model_search_outcome svc e query m limit found Hf)
      as (hits & Hout & Hfloor & Hempty).
    exists hits. repeat split; try assumption.
    unfold try_except. fold (outcome (single_model_search svc e query m limit)).
    rewrite Hout. exact Hout.
  - intros ex Hex. unfold single_model_search.
    rewrite (bind_err _ _ _ Hex). unfold try_except. cbn [snd fst].
    destruct ex as [kd msg]. cbn [kind message].
    destruct kd; try reflexivity.
    destruct (Py.contains "not available" (Py.lower msg)); reflexivity.
Qed.

Lemma text_search_floor_witness :
  exists hits,
    outcome (text_search Fixture.service "a dog" CLIP 3) = Ok hits /\
    Forall (fun r => (similarity_threshold CLIP <= score r)%Q) hits.
Proof.
  destruct (text_search_floor Fixture.service Fixture.engine "a dog" CLIP 3 eq_refl)
    as (H & _); [discriminate |].
  destruct (H _ eq_refl) as (hits & Hout & Hfloor & _).
  exists hits. split; assumption.
Defined.

(** C7, counterexample: the engine is loaded, but its [text_search] has
    no CLIP2Video model to call and raises; the service answers with the
    mock hits, whose first score [0.9] is below the floor [1.0]. *)
Lemma text_search_mock_below_floor :
  exists r rest,
    outcome (text_search Fixture.service "a dog" CLIP2VIDEO 3) = Ok (r :: rest) /\
    (score r < similarity_threshold CLIP2VIDEO)%Q /\
    kind_of_failure (outcome (Engine.text_search Fixture.engine "a dog" 3 "clip2video"))
    = Some AttributeError.
Proof.
  vm_compute. do 2 eexists. repeat split.
Qed.

End SimilarityFloor.

(** ** Fallbacks *)
Section Fallbacks.

Import Engine.

Lemma temporal_service_total (engine : result MyFaiss) (query : string)
  (m : SearchService.ModelType) (limit tps mcv w_min : Z) (w_max : option Z) :
  exists data,
    outcome (TemporalService.temporal_search engine query m limit tps mcv w_min w_max)
    = Ok data.
Proof.
  unfold TemporalService.temporal_search, try_except, outcome.
  match goal with |- context [bind ?a ?f] => destruct (bind a f) as [l [d | ex]] end;
    simpl; eauto.
Qed.

(** C2 (as amended): the search operations do substitute results for
    failures.  (a) [text_search] with model type [beit3] and no BEiT-3
    model loaded does not fail: it searches the BEiT-3 index with a
    normalised random vector.  (b) The LongCLIP encoder returns random
    features when its model is missing and when encoding raises.  (c) The
    temporal service never surfaces an error: when loading the engine or
    the engine's [temporal_search] raises it answers with the fixed mock
    data, and it runs the model types CLIP2Video and ALL on [clip].
    (d) Only a model type without a branch makes [text_search] raise
    [NotImplementedError]. *)
Theorem fallbacks_instead_of_errors (e : MyFaiss) (text : string) (k : Z) :
  (beit3_model e = None ->
   log (text_search e text k "beit3")
   = [EvTranslate text; EvRandomFeatures 1024; EvIndexSearch "beit3" k] /\
   outcome (text_search e text k "beit3")
   = match search (index_beit3 e) (l2_normalize e (randn e 1024)) k with
     | Ok found => Ok (map fst found, map snd found, paths_of e (map snd found))
     | Err ex => Err ex
     end) /\
  (forall w : LongCLIP.LongCLIPModel,
     (LongCLIP.model w = None ->
      LongCLIP.encode_text w text
      = ([EvRandomFeatures 512], Ok (LongCLIP.mock_features w))) /\
     (forall enc ex, LongCLIP.model w = Some enc -> enc text = Err ex ->
        LongCLIP.encode_text w text
        = ([EvEncodeText "longclip" text; EvRandomFeatures 512],
           Ok (LongCLIP.mock_features w)))) /\
  (forall engine m limit tps mcv w_min w_max,
     (exists data,
        outcome (TemporalService.temporal_search engine text m limit tps mcv w_min w_max)
        = Ok data) /\
     (forall ex, engine = Err ex ->
        outcome (TemporalService.temporal_search engine text m limit tps mcv w_min w_max)
        = Ok (TemporalService.mock_data text limit)) /\
     (forall e' ex, engine = Ok e' ->
        outcome (temporal_search e' text limit (TemporalService.model_type_str m)
                   tps mcv w_min w_max) = Err ex ->
        outcome (TemporalService.temporal_search engine text m limit tps mcv w_min w_max)
        = Ok (TemporalService.mock_data text limit))) /\
  (TemporalService.model_type_str SearchService.CLIP2VIDEO = "clip"%string /\
   TemporalService.model_type_str SearchService.ALL = "clip"%string) /\
  (forall model_type, known_model_type model_type = false ->
     exists msg,
       outcome (text_search e text k model_type) = Err (Raise NotImplementedError msg)).
Proof.
  repeat apply conj.
  - intros Hb. unfold text_search, text_features, index_chosen, beit3_text_features,
      index_search, translate.
    rewrite Hb. cbn.
    destruct (search (index_beit3 e) (l2_normalize e (randn e 1024)) k);
      split; reflexivity.
  - intros w. split.
    + intros Hw. unfold LongCLIP.encode_text. now rewrite Hw.
    + intros enc ex Hw Hex. unfold LongCLIP.encode_text. rewrite Hw.
      unfold try_except, call. cbn. now rewrite Hex.
  - intros engine m limit tps mcv w_min w_max. repeat apply conj.
    + apply temporal_service_total.
    + intros ex ->. reflexivity.
    + intros e' ex -> Hex. unfold TemporalService.temporal_search.
      rewrite (try_except_err _ _ ex); [reflexivity |].
      unfold bind at 1. cbn [snd fst]. rewrite (bind_err _ _ _ Hex). reflexivity.
  - reflexivity.
  - reflexivity.
  - intros model_type Hk. unfold known_model_type in Hk.
    apply orb_false_iff in Hk. destruct Hk as [Hk H4].
    apply orb_false_iff in Hk. destruct Hk as [Hk H3].
    apply orb_false_iff in Hk. destruct Hk as [H1 H2].
    unfold text_search, text_features, translate. rewrite H1, H2, H3, H4. cbn.
    eexists. reflexivity.
Qed.

Lemma fallbacks_instead_of_errors_witness :
  log (text_search Fixture.engine "a dog" 2 "beit3")
  = [EvTranslate "a dog"; EvRandomFeatures 1024; EvIndexSearch "beit3" 2].
Proof.
  exact (proj1 (proj1 (fallbacks_instead_of_errors Fixture.engine "a dog" 2) eq_refl)).
Defined.

(** C2, counterexample: the BEiT-3 model of the engine is not loaded, yet
    a BEiT-3 text search returns hits: the query was never encoded, the
    index was searched with a random vector. *)
Lemma text_search_random_vector_for_missing_model :
  beit3_model Fixture.engine = None /\
  text_search Fixture.engine "a dog" 2 "beit3"
  = ([EvTranslate "a dog"; EvRandomFeatures 1024; EvIndexSearch "beit3" 2],
     Ok ([1; 0]%Q, [1; 0],
         ["keyframe_btc/Keyframes_L21/keyframes/L21_V001/002.jpg";
          "keyframe_btc/Keyframes_L21/keyframes/L21_V001/001.jpg"]%string)).
Proof.
  split; vm_compute; reflexivity.
Qed.

End Fallbacks.

(** ** The result count [k] *)
Section ResultCount.

Import Engine.

(** C3 (as amended): [k = 0] is no shortcut.  [text_search] translates
    and encodes the query and then, if the encoding returned, searches
    the index with [k = 0] (spelled out for CLIP in the second part).  For
    a query of two or more sentences [temporal_search] makes the same
    external calls for every [k], and its result for [k] is its result
    for [k = 0] cut by [top_k k]: the list is cut to its first [k]
    entries only when [k > 0], and for [k = 0] it is returned whole. *)
Theorem k_zero_is_no_shortcut (e : MyFaiss) (text : string) (model_type : string)
  (tps mcv w_min : Z) (w_max : option Z) :
  (log (text_search e text 0 model_type)
   = [EvTranslate text]
     ++ log (text_features e model_type (translator e text))
     ++ match outcome (text_features e model_type (translator e text)) with
        | Ok _ => [EvIndexSearch model_type 0]
        | Err _ => []
        end) /\
  (forall f, clip_encode_text e (translator e text) = Ok f ->
     log (text_search e text 0 "clip")
     = [EvTranslate text; EvEncodeText "clip" (translator e text);
        EvIndexSearch "clip" 0]) /\
  (forall k,
     (2 <= length (split_query (translator e text)))%nat ->
     temporal_search e text k model_type tps mcv w_min w_max
     = M_map (cut_results k) (temporal_search e text 0 model_type tps mcv w_min w_max)) /\
  (forall (rs : list aligned_result), top_k 0 rs = rs) /\
  (forall (rs : list aligned_result) k, 0 < k -> top_k k rs = take (Z.to_nat k) rs).
Proof.
  repeat apply conj.
  - unfold text_search, translate, index_search, call, bind, log, outcome. cbn.
    destruct (text_features e model_type (translator e text)) as [l [f | ex]]; cbn.
    + now destruct (search (index_chosen e model_type) f 0).
    + now rewrite app_nil_r.
  - intros f Hf. unfold text_search, text_features, translate, index_search, call, bind, log.
    cbn. rewrite Hf. cbn.
    now destruct (search (index_clip e) (l2_normalize e f) 0).
  - intros k HM.
    destruct (split_query (translator e text)) as [| s1 [| s2 ss]] eqn:Es;
      simpl in HM; try lia.
    assert (forall k',
              temporal_search e text k' model_type tps mcv w_min w_max
              = bind (translate e text) (fun _ =>
                  bind (align_all e (s1 :: s2 :: ss) model_type tps mcv w_min w_max)
                    (fun r => ret (MultiSentence (s1 :: s2 :: ss) r.1.1 r.1.2
                                     (top_k k' r.2))))) as Heq.
    { intros k'. unfold temporal_search, translate, call, bind. cbn [fst snd].
      rewrite Es.
      destruct (align_all e (s1 :: s2 :: ss) model_type tps mcv w_min w_max)
        as [l [[[ps cv] rs] | ex]]; reflexivity. }
    rewrite (Heq k), (Heq 0). unfold M_map, translate, call, bind. cbn [fst snd].
    destruct (align_all e (s1 :: s2 :: ss) model_type tps mcv w_min w_max)
      as [l [[[ps cv] rs] | ex]]; reflexivity.
  - reflexivity.
  - intros rs k Hk. unfold top_k. apply Z.ltb_lt in Hk. now rewrite Hk.
Qed.

Lemma k_zero_is_no_shortcut_witness :
  temporal_search Fixture.engine "a. b" 5 "clip" 3 30 1 None
  = M_map (cut_results 5) (temporal_search Fixture.engine "a. b" 0 "clip" 3 30 1 None).
Proof.
  refine (proj1 (proj2 (proj2
            (k_zero_is_no_shortcut Fixture.engine "a. b" "clip" 3 30 1 None))) 5 _).
  vm_compute. lia.
Defined.

(** C3, counterexample: with [k = 0] the engine encodes both sentences,
    searches the index twice, loads a video and returns one result. *)
Lemma temporal_search_at_k_zero :
  exists ps cv r,
    temporal_search Fixture.engine "a. b" 0 "clip" 3 30 1 None
    = ([EvTranslate "a. b"; EvEncodeText "clip" "a"; EvEncodeText "clip" "b";
        EvIndexSearch "clip" 3; EvIndexSearch "clip" 3;
        EvLoadVideoFeatures "clip" "L21_V001"],
       Ok (MultiSentence ["a"; "b"]%string ps cv [r])).
Proof.
  vm_compute. do 3 eexists. reflexivity.
Qed.

End ResultCount.

(** ** The single-sentence branch *)
Section SingleSentenceBranch.

Import Engine.

(** Every one-sentence query takes the single-sentence branch, whose
    dictionary has no [candidate_videos]. *)
Lemma single_sentence_branch (e : MyFaiss) (text : string) (k : Z) (model_type : string)
  (tps mcv w_min : Z) (w_max : option Z) (s : string) (d : temporal_dict) :
  split_query (translator e text) = [s] ->
  outcome (temporal_search e text k model_type tps mcv w_min w_max) = Ok d ->
  (exists seen out, d = SingleSentence [s] seen out) /\
  ~ In "candidate_videos"%string (keys d).
Proof.
  intros Hs H. unfold temporal_search in H.
  apply bind_ok_inv in H. destruct H as (t & Ht & H).
  unfold translate, call, outcome in Ht. cbn [snd] in Ht. injection Ht as <-.
  rewrite Hs in H.
  apply bind_ok_inv in H. destruct H as ([[scores idxs] paths] & _ & H).
  destruct (unit_loop k (zip scores paths) [] ∅) as [out seen].
  injection H as <-. split; [eauto |].
  simpl. intros [H | [H | [H | []]]]; discriminate.
Qed.

(** The temporal service answers every one-sentence query with its mock
    data: the engine either raises, or returns the dictionary the service
    cannot read. *)
Lemma service_single_sentence_mock (e : MyFaiss) (query : string)
  (m : SearchService.ModelType) (limit tps mcv w_min : Z) (w_max : option Z) (s : string) :
  split_query (translator e query) = [s] ->
  outcome (TemporalService.temporal_search (Ok e) query m limit tps mcv w_min w_max)
  = Ok (TemporalService.mock_data query limit).
Proof.
  intros Hs. unfold TemporalService.temporal_search.
  destruct (outcome (temporal_search e query limit (TemporalService.model_type_str m)
                       tps mcv w_min w_max)) as [d | ex] eqn:Hd.
  - destruct (single_sentence_branch _ _ _ _ _ _ _ _ _ _ Hs Hd)
      as ((seen & out & ->) & _).
    assert (exists ex, outcome (TemporalService.convert (SingleSentence [s] seen out))
                       = Err ex) as (ex & Hex).
    { destruct out; simpl; eauto. }
    rewrite (try_except_err _ _ ex); [reflexivity |].
    unfold bind at 1. cbn [snd fst]. rewrite (bind_ok _ _ _ Hd). exact Hex.
  - rewrite (try_except_err _ _ ex); [reflexivity |].
    unfold bind at 1. cbn [snd fst]. rewrite (bind_err _ _ _ Hd). reflexivity.
Qed.

(** C6, at the query ["a dog"]: the dictionary the engine returns for a
    one-sentence query has the keys [sentences], [candidates] and
    [results], so it carries no [candidate_videos]; the temporal service,
    which reads [video_id] and [candidate_videos], falls back to its mock
    data. *)
Lemma single_sentence_dict_lacks_candidate_videos :
  exists seen,
    outcome (temporal_search Fixture.engine "a dog" 5 "clip" 200 30 1 None)
    = Ok (SingleSentence ["a dog"]%string seen [UnitResult "L21_V001" 1]) /\
    keys (SingleSentence ["a dog"]%string seen [UnitResult "L21_V001" 1])
    = ["sentences"; "candidates"; "results"]%string /\
    outcome (TemporalService.temporal_search (Ok Fixture.engine) "a dog"
               SearchService.CLIP 5 200 30 1 None)
    = Ok (TemporalService.mock_data "a dog" 5).
Proof.
  eexists. repeat apply conj; vm_compute; reflexivity.
Qed.

End SingleSentenceBranch.

(** * Further properties of the modelled code *)

(** ** Duplicate removal in the service *)
Section RemoveDuplicates.

Import SearchService.

Variable limit : Z.

Lemma unique_loop_spec (results unique : list SearchResult) (seen : gset string) :
  (forall x, x ∈ seen <-> In x (map image_id unique)) ->
  NoDup (map image_id unique) ->
  exists suffix,
    unique_loop limit results unique seen = unique ++ suffix /\
    sublist suffix results /\
    NoDup (map image_id (unique ++ suffix)) /\
    (Z.of_nat (length unique) < limit ->
     Z.of_nat (length (unique ++ suffix)) <= limit) /\
    (Z.of_nat (length (unique ++ suffix)) < limit ->
     forall r, In r results -> In (image_id r) (map image_id (unique ++ suffix))).
Proof.
  revert unique seen. induction results as [| y rest IH]; intros unique seen Hseen Hnd.
  - exists []. simpl. rewrite app_nil_r.
    split; [reflexivity |]. split; [constructor |]. split; [exact Hnd |].
    split; [lia | intros _ r []].
  - simpl. case_bool_decide as Hy.
    + destruct (IH unique seen Hseen Hnd) as (suffix & Heq & Hsub & Hnd' & Hlen & Hall).
      exists suffix. repeat apply conj; auto.
      * now apply sublist_cons.
      * intros Hlt r [<- | Hr]; [| now apply Hall].
        rewrite map_app. apply in_or_app. left. now apply Hseen.
    + assert (NoDup (map image_id (unique ++ [y]))) as Hnd1.
      { rewrite map_app. simpl. apply NoDup_app. repeat split.
        - exact Hnd.
        - intros p Hp Hp'. apply list_elem_of_In in Hp, Hp'.
          destruct Hp' as [<- | []]. apply Hy. now apply Hseen.
        - apply NoDup_singleton. }
      destruct (limit <=? Z.of_nat (length (unique ++ [y]))) eqn:E.
      * apply Z.leb_le in E. exists [y]. repeat apply conj; auto.
        -- apply sublist_skip, sublist_nil_l.
        -- rewrite length_app in *. simpl in *. lia.
        -- lia.
      * apply Z.leb_gt in E.
        destruct (IH (unique ++ [y]) ({[image_id y]} ∪ seen)) as
          (suffix & Heq & Hsub & Hnd' & Hlen & Hall).
        { intros x. rewrite map_app, in_app_iff. simpl. rewrite <- Hseen.
          rewrite elem_of_union, elem_of_singleton. intuition congruence. }
        { exact Hnd1. }
        exists (y :: suffix). rewrite <- app_assoc in *. simpl in *.
        repeat apply conj; auto.
        -- now apply sublist_skip.
        -- intros Hlt r [<- | Hr]; [| now apply Hall].
           rewrite map_app. apply in_or_app. right. simpl. now left.
Qed.


End RemoveDuplicates.

(** ** The single-sentence branch of temporal search *)
Section UnitLoop.

Import Engine.

Variable k : Z.

Lemma unit_loop_spec (hits : list (Q * string)) (out : list unit_result)
  (seen : gset string) :
  (forall x, x ∈ seen <-> In x (map unit_id out)) ->
  NoDup (map unit_id out) ->
  exists suffix,
    (unit_loop k hits out seen).1 = out ++ suffix /\
    sublist suffix
      (map (fun h => UnitResult (Py.basename (Py.dirname h.2)) h.1) hits) /\
    NoDup (map unit_id (out ++ suffix)) /\
    (forall x, x ∈ (unit_loop k hits out seen).2 <-> In x (map unit_id (out ++ suffix))) /\
    (Z.of_nat (length out) < k -> Z.of_nat (length (out ++ suffix)) <= k) /\
    (Z.of_nat (length (out ++ suffix)) < k ->
     forall h, In h hits ->
       In (Py.basename (Py.dirname h.2)) (map unit_id (out ++ suffix))).
Proof.
  revert out seen. induction hits as [| [score path] rest IH]; intros out seen Hseen Hnd.
  - exists []. simpl. rewrite app_nil_r.
    split; [reflexivity |]. split; [constructor |]. split; [exact Hnd |].
    split; [exact Hseen |]. split; [lia | intros _ h []].
  - simpl. case_bool_decide as Hy.
    + destruct (IH out seen Hseen Hnd) as (suffix & Heq & Hsub & Hnd' & Hs & Hlen & Hall).
      exists suffix. repeat apply conj; auto.
      * now apply sublist_cons.
      * intros Hlt h [<- | Hh]; [| now apply Hall].
        rewrite map_app. apply in_or_app. left. now apply Hseen.
    + set (u := UnitResult (Py.basename (Py.dirname path)) score).
      assert (NoDup (map unit_id (out ++ [u]))) as Hnd1.
      { rewrite map_app. simpl. apply NoDup_app. repeat split.
        - exact Hnd.
        - intros p Hp Hp'. apply list_elem_of_In in Hp, Hp'.
          destruct Hp' as [<- | []]. apply Hy. now apply Hseen.
        - apply NoDup_singleton. }
      assert (forall x, x ∈ {[Py.basename (Py.dirname path)]} ∪ seen
                        <-> In x (map unit_id (out ++ [u]))) as Hseen1.
      { intros x. rewrite map_app, in_app_iff. simpl. rewrite <- Hseen.
        rewrite elem_of_union, elem_of_singleton. intuition congruence. }
      destruct (k <=? Z.of_nat (length (out ++ [u]))) eqn:E.
      * apply Z.leb_le in E. exists [u]. cbn [fst snd]. repeat apply conj; auto.
        -- apply sublist_skip, sublist_nil_l.
        -- rewrite length_app in *. simpl in *. lia.
        -- lia.
      * apply Z.leb_gt in E.
        destruct (IH (out ++ [u]) _ Hseen1 Hnd1)
          as (suffix & Heq & Hsub & Hnd' & Hs & Hlen & Hall).
        exists (u :: suffix). rewrite <- app_assoc in *. simpl in *.
        repeat apply conj; auto.
        -- now apply sublist_skip.
        -- intros Hlt h [<- | Hh]; [| now apply Hall].
           rewrite map_app. apply in_or_app. right. simpl. now left.
Qed.

End UnitLoop.

Section SingleSentenceResults.

Import Engine.

(** X2: a one-sentence [temporal_search] returns one entry per distinct
    video, in the order in which the videos first occur among the paths
    of the text search; its [candidates] are exactly the videos of its
    results; it returns at most [k] entries when [k >= 1], and misses no
    video of the paths when it stays below [k]. *)
Theorem single_sentence_one_hit_per_video (e : MyFaiss) (text : string) (k : Z)
  (model_type : string) (tps mcv w_min : Z) (w_max : option Z)
  (ss : list string) (seen : gset string) (out : list unit_result) :
  outcome (temporal_search e text k model_type tps mcv w_min w_max)
  = Ok (SingleSentence ss seen out) ->
  exists s scores idxs paths,
    ss = [s] /\
    outcome (text_search e s k model_type) = Ok (scores, idxs, paths) /\
    sublist out (map (fun h => UnitResult (Py.basename (Py.dirname h.2)) h.1)
                   (zip scores paths)) /\
    NoDup (map unit_id out) /\
    (forall v, v ∈ seen <-> In v (map unit_id out)) /\
    (1 <= k -> Z.of_nat (length out) <= k) /\
    (Z.of_nat (length out) < k ->
     forall h, In h (zip scores paths) ->
       In (Py.basename (Py.dirname h.2)) (map unit_id out)).
Proof.
  intros H. unfold temporal_search in H.
  apply bind_ok_inv in H. destruct H as (t & _ & H).
  destruct (split_query t) as [| s1 [| s2 ss']] eqn:Es.
  - discriminate.
  - apply bind_ok_inv in H. destruct H as ([[scores idxs] paths] & Hts & H).
    destruct (unit_loop_spec k (zip scores paths) [] ∅)
      as (suffix & Heq & Hsub & Hnd & Hs & Hlen & Hall).
    { intros x. simpl. set_solver. }
    { constructor. }
    destruct (unit_loop k (zip scores paths) [] ∅) as [out' seen'] eqn:Eu.
    injection H as <- <- <-. cbn [fst snd] in *. simpl in Heq. subst out'.
    simpl in *. exists s1, scores, idxs, paths. repeat apply conj; auto.
    intros Hk. apply Hlen. lia.
  - apply bind_ok_inv in H. destruct H as ([[ps cv] rs] & _ & H). discriminate.
Qed.

Lemma single_sentence_one_hit_per_video_witness :
  exists s scores idxs paths,
    ["a dog"]%string = [s] /\
    outcome (text_search Fixture.engine s 5 "clip") = Ok (scores, idxs, paths) /\
    sublist [UnitResult "L21_V001" 1]
      (map (fun h => UnitResult (Py.basename (Py.dirname h.2)) h.1) (zip scores paths)).
Proof.
  pose (d := outcome (temporal_search Fixture.engine "a dog" 5 "clip" 200 30 1 None)).
  assert (exists seen, d = Ok (SingleSentence ["a dog"]%string seen
                                 [UnitResult "L21_V001" 1])) as (seen & Hd).
  { vm_compute. eexists. reflexivity. }
  destruct (single_sentence_one_hit_per_video Fixture.engine "a dog" 5 "clip" 200 30 1
              None _ _ _ Hd) as (s & scores & idxs & paths & H1 & H2 & H3 & _).
  exists s, scores, idxs, paths. repeat split; assumption.
Defined.

End SingleSentenceResults.

(** ** Sentence segmentation *)
Section SplitQuery.

Lemma lstrip_l_In (l : list ascii) (c : ascii) : In c (Py.lstrip_l l) -> In c l.
Proof.
  induction l as [| x l IH]; simpl; [auto |].
  destruct (Py.is_space x); [right; auto | auto].
Qed.

Lemma rstrip_l_In (l : list ascii) (c : ascii) : In c (Py.rstrip_l l) -> In c l.
Proof.
  unfold Py.rstrip_l. intros H. apply in_rev in H. apply lstrip_l_In in H.
  now apply in_rev.
Qed.

Lemma lstrip_l_fixed (l : list ascii) :
  match l with c :: _ => Py.is_space c = false | [] => True end ->
  Py.lstrip_l l = l.
Proof. destruct l as [| c l]; simpl; [auto |]. now intros ->. Qed.

Lemma lstrip_l_head (l : list ascii) :
  match Py.lstrip_l l with c :: _ => Py.is_space c = false | [] => True end.
Proof.
  induction l as [| x l IH]; simpl; [exact I |].
  destruct (Py.is_space x) eqn:E; [exact IH | exact E].
Qed.

Lemma lstrip_l_snoc (a : list ascii) (c : ascii) :
  Py.is_space c = false -> Py.lstrip_l (a ++ [c]) = Py.lstrip_l a ++ [c].
Proof.
  intros Hc. induction a as [| x a IH]; simpl; [now rewrite Hc |].
  destruct (Py.is_space x); [exact IH | reflexivity].
Qed.

Lemma rstrip_l_cons (c : ascii) (l : list ascii) :
  Py.is_space c = false -> Py.rstrip_l (c :: l) = c :: Py.rstrip_l l.
Proof.
  intros Hc. unfold Py.rstrip_l. simpl. rewrite lstrip_l_snoc by exact Hc.
  rewrite rev_app_distr. reflexivity.
Qed.

Lemma rstrip_l_idem (l : list ascii) : Py.rstrip_l (Py.rstrip_l l) = Py.rstrip_l l.
Proof.
  unfold Py.rstrip_l. rewrite rev_involutive.
  rewrite (lstrip_l_fixed (Py.lstrip_l (rev l))); [reflexivity | apply lstrip_l_head].
Qed.

Lemma strip_l_idem (l : list ascii) :
  Py.rstrip_l (Py.lstrip_l (Py.rstrip_l (Py.lstrip_l l))) = Py.rstrip_l (Py.lstrip_l l).
Proof.
  pose proof (lstrip_l_head l) as Hh.
  destruct (Py.lstrip_l l) as [| c y]; [reflexivity |].
  rewrite rstrip_l_cons by exact Hh. simpl. rewrite Hh.
  rewrite rstrip_l_cons by exact Hh. now rewrite rstrip_l_idem.
Qed.

Lemma strip_idem (s : string) : Py.strip (Py.strip s) = Py.strip s.
Proof.
  unfold Py.strip. rewrite list_ascii_of_string_of_list_ascii. now rewrite strip_l_idem.
Qed.

Lemma strip_In (s : string) (c : ascii) :
  In c (list_ascii_of_string (Py.strip s)) -> In c (list_ascii_of_string s).
Proof.
  unfold Py.strip. rewrite list_ascii_of_string_of_list_ascii.
  intros H. apply rstrip_l_In in H. now apply lstrip_l_In in H.
Qed.

Lemma split_l_no_sep (sep : ascii) (l w : list ascii) :
  In w (Py.split_l sep l) -> ~ In sep w.
Proof.
  revert w. induction l as [| c l IH]; intros w Hw; simpl in Hw.
  - destruct Hw as [<- | []]. auto.
  - destruct (Ascii.eqb c sep) eqn:E.
    + destruct Hw as [<- | Hw]; [auto | now apply IH].
    + apply Ascii.eqb_neq in E.
      destruct (Py.split_l sep l) as [| w0 ws] eqn:Es.
      * destruct Hw as [<- | []]. intros [H | []]. congruence.
      * destruct Hw as [<- | Hw].
        -- intros [H | H]; [congruence |]. apply (IH w0); [now left | exact H].
        -- apply IH. now right.
Qed.

(** X3: every sentence [temporal_search] works with is non-empty, contains
    no period, and has no white space at either end. *)
Theorem split_query_sentences (text : string) :
  Forall (fun s => s <> EmptyString /\
                   ~ In "."%char (list_ascii_of_string s) /\
                   Py.strip s = s)
         (Engine.split_query text).
Proof.
  unfold Engine.split_query. rewrite List.Forall_forall. intros s Hs.
  apply filter_In in Hs. destruct Hs as [Hs Ht].
  apply in_map_iff in Hs. destruct Hs as (piece & <- & Hp).
  unfold Py.split in Hp. apply in_map_iff in Hp. destruct Hp as (w & <- & Hw).
  repeat apply conj.
  - intros Heq. rewrite Heq in Ht. discriminate.
  - intros Hdot. apply strip_In in Hdot.
    rewrite list_ascii_of_string_of_list_ascii in Hdot.
    exact (split_l_no_sep _ _ _ Hw Hdot).
  - apply strip_idem.
Qed.

End SplitQuery.

(** ** Multi-sentence temporal search: shortlists, candidates, results *)
Section TemporalStructure.

Import Temporal Engine.

Lemma for_each_inv {A S} (P : S -> Prop) (body : S -> A -> M S) (xs : list A) (acc r : S) :
  P acc ->
  (forall s x s', P s -> In x xs -> outcome (body s x) = Ok s' -> P s') ->
  outcome (for_each body xs acc) = Ok r -> P r.
Proof.
  revert acc. induction xs as [| x xs IH]; intros acc Hacc Hstep H.
  - simpl in H. injection H as <-. exact Hacc.
  - simpl in H. apply bind_ok_inv in H. destruct H as (acc' & Hb & H).
    apply (IH acc'); [| | exact H].
    + apply (Hstep acc x); [exact Hacc | now left | exact Hb].
    + intros s y s' Hs Hy. apply Hstep; [exact Hs | now right].
Qed.

Lemma choose_index_known (e : MyFaiss) (model_type : string) (index : Index) :
  outcome (choose_index e model_type) = Ok index ->
  model_type = "clip"%string \/ model_type = "longclip"%string \/
  model_type = "beit3"%string.
Proof.
  unfold choose_index.
  destruct (String.eqb_spec model_type "clip"); [auto |].
  destruct (String.eqb_spec model_type "longclip"); [auto |].
  destruct (String.eqb_spec model_type "beit3"); [auto | discriminate].
Qed.

Lemma encode_sentence_some (e : MyFaiss) (model_type s : string)
  (f : option (tensor * tensor)) :
  model_type = "clip"%string \/ model_type = "longclip"%string \/
  model_type = "beit3"%string ->
  outcome (encode_sentence e model_type s) = Ok f -> exists x, f = Some x.
Proof.
  intros [-> | [-> | ->]] H; unfold encode_sentence in H; cbn in H;
    apply bind_ok_inv in H; destruct H as (x & _ & H); injection H as <-; eauto.
Qed.

Lemma encode_sentences_length (e : MyFaiss) (model_type : string)
  (ss : list string) (acc feats : list (tensor * tensor)) :
  model_type = "clip"%string \/ model_type = "longclip"%string \/
  model_type = "beit3"%string ->
  outcome (for_each (fun feats s =>
                       f <- encode_sentence e model_type s ;;
                       ret (match f with Some f => feats ++ [f] | None => feats end))
                    ss acc) = Ok feats ->
  length feats = (length acc + length ss)%nat.
Proof.
  intros Hm. revert acc. induction ss as [| s ss IH]; intros acc H.
  - simpl in H. injection H as <-. simpl. lia.
  - simpl in H. apply bind_ok_inv in H. destruct H as (acc' & Hb & H).
    apply bind_ok_inv in Hb. destruct Hb as (f & Hf & Hb).
    destruct (encode_sentence_some _ _ _ _ Hm Hf) as (x & ->).
    injection Hb as <-. apply IH in H. rewrite H, length_app. simpl. lia.
Qed.

Lemma add_candidate_ok (e : MyFaiss) (mcv : Z) (st : list string * gset string)
  (hit : Q * Z) :
  candidates_ok e mcv st -> candidates_ok e mcv (add_candidate mcv st (make_unit e hit)).
Proof.
  intros Hst. pose proof Hst as (Hnd & Hseen & Hlen & Hall).
  unfold add_candidate, make_unit. cbn [video_id].
  destruct (id2img e !! hit.2) as [p |] eqn:Ep; [| exact Hst].
  destruct (Py.truthy p) eqn:Etp; [| exact Hst].
  set (v := Py.basename (Py.dirname p)).
  destruct (Py.truthy v) eqn:Etv; [| exact Hst].
  case_bool_decide as Hv; [exact Hst |].
  destruct (Z.of_nat (length st.1) <? mcv) eqn:El; [| exact Hst].
  apply Z.ltb_lt in El. cbn [andb negb fst snd]. repeat apply conj.
  - apply NoDup_app. repeat split; [exact Hnd | | apply NoDup_singleton].
    intros x Hx Hx'. apply list_elem_of_In in Hx, Hx'.
    destruct Hx' as [<- | []]. apply Hv. now apply Hseen.
  - intros x. cbn [fst snd]. rewrite in_app_iff, elem_of_union, elem_of_singleton, Hseen.
    simpl. intuition congruence.
  - cbn [fst snd]. rewrite length_app. simpl. lia.
  - cbn [fst snd]. apply Forall_app. split; [exact Hall |]. constructor; [| constructor].
    split; [intros Heq; rewrite Heq in Etv; discriminate | eauto].
Qed.

Lemma add_candidates_ok (e : MyFaiss) (mcv : Z) (found : list (Q * Z))
  (st : list string * gset string) :
  candidates_ok e mcv st ->
  candidates_ok e mcv (foldl (add_candidate mcv) st (map (make_unit e) found)).
Proof.
  revert st. induction found as [| h found IH]; intros st Hst; simpl; [exact Hst |].
  apply IH. now apply add_candidate_ok.
Qed.

(** The loop of phase 1.3: one shortlist per sentence, in order, each of
    at most [temp = 20] units; the candidates stay well-formed. *)
Lemma search_loop_spec (e : MyFaiss) (model_type : string) (index : Index)
  (tps mcv : Z) (pairs : list (string * (tensor * tensor)))
  (st st' : list sentence_units * (list string * gset string)) :
  candidates_ok e mcv st.2 ->
  outcome (for_each (search_sentence e model_type index tps mcv) pairs st) = Ok st' ->
  exists new,
    st'.1 = st.1 ++ new /\
    map sentence new = map fst pairs /\
    Forall (fun ps => (length (ranked_units ps) <= 20)%nat) new /\
    candidates_ok e mcv st'.2.
Proof.
  revert st. induction pairs as [| sf pairs IH]; intros st Hst H.
  - simpl in H. injection H as <-. exists []. rewrite app_nil_r.
    repeat split; try assumption; try constructor; apply Hst.
  - simpl in H. apply bind_ok_inv in H. destruct H as (st1 & Hb & H).
    unfold search_sentence in Hb. apply bind_ok_inv in Hb.
    destruct Hb as (found & _ & Hb). injection Hb as <-.
    apply IH in H; [| exact (add_candidates_ok e mcv found st.2 Hst)].
    destruct H as (new & Heq & Hmap & Hlen & Hc).
    cbn [fst snd] in *.
    exists (SentenceUnits sf.1 (take temp (map (make_unit e) found)) :: new).
    rewrite Heq, <- app_assoc. simpl. split; [reflexivity |].
    split; [now rewrite Hmap |]. split; [| exact Hc].
    constructor; [| exact Hlen]. cbn [ranked_units]. rewrite length_take.
    unfold temp. lia.
Qed.

Lemma score_video_id (n_sent : nat) (w_min : Z) (w_max : option Z)
  (feats : list (tensor * tensor)) (per_sentence : list sentence_units)
  (vid : string) (video : list tensor) (r : aligned_result) :
  score_video n_sent w_min w_max feats per_sentence vid video = Some r ->
  result_video_id r = vid.
Proof.
  unfold score_video. destruct (numel video =? 0)%nat; [discriminate |].
  destruct (length video <? n_sent)%nat; [discriminate |].
  destruct (align _ _ _ _) as [[frs sc] |]; [| discriminate].
  now intros [= <-].
Qed.

(** The loop of phase 1.4 never raises, and adds at most one result per
    candidate, in the order of the candidates. *)
Lemma align_loop_spec (e : MyFaiss) (model_type : string) (n_sent : nat)
  (w_min : Z) (w_max : option Z) (feats : list (tensor * tensor))
  (per_sentence : list sentence_units) (cands : list string)
  (acc : list aligned_result) :
  exists suffix,
    outcome (for_each (align_video e model_type n_sent w_min w_max feats per_sentence)
               cands acc) = Ok (acc ++ suffix) /\
    sublist (map result_video_id suffix) cands.
Proof.
  revert acc. induction cands as [| vid cands IH]; intros acc.
  - exists []. rewrite app_nil_r. split; [reflexivity | constructor].
  - simpl. rewrite (bind_ok _ _ _ (align_video_outcome _ _ _ _ _ _ _ _ _)).
    cbn [outcome snd].
    destruct (video_features e model_type vid) as [video | ex].
    + destruct (score_video n_sent w_min w_max feats per_sentence vid video)
        as [r |] eqn:Es.
      * destruct (IH (acc ++ [r])) as (suffix & Heq & Hsub).
        exists (r :: suffix). rewrite <- app_assoc in Heq. split; [exact Heq |].
        simpl. rewrite (score_video_id _ _ _ _ _ _ _ _ Es). now apply sublist_skip.
      * destruct (IH acc) as (suffix & Heq & Hsub).
        exists suffix. split; [exact Heq | now apply sublist_cons].
    + destruct (IH acc) as (suffix & Heq & Hsub).
      exists suffix. split; [exact Heq | now apply sublist_cons].
Qed.

Lemma sublist_map {A B} (f : A -> B) (l1 l2 : list A) :
  sublist l1 l2 -> sublist (map f l1) (map f l2).
Proof.
  induction 1; simpl; [constructor | now apply sublist_skip | now apply sublist_cons].
Qed.

(** What a returned multi-sentence dictionary was built from. *)
Lemma temporal_multi_inv (e : MyFaiss) (text : string) (k : Z) (model_type : string)
  (tps mcv w_min : Z) (w_max : option Z) (ss : list string)
  (ps : list sentence_units) (cv : list string) (rs : list aligned_result) :
  outcome (temporal_search e text k model_type tps mcv w_min w_max)
  = Ok (MultiSentence ss ps cv rs) ->
  ss = split_query (translator e text) /\ (2 <= length ss)%nat /\
  exists feats index found results0,
    outcome (encode_sentences e model_type ss) = Ok feats /\
    outcome (choose_index e model_type) = Ok index /\
    outcome (for_each (search_sentence e model_type index tps mcv)
               (zip ss feats) ([], ([], ∅))) = Ok found /\
    ps = found.1 /\ cv = found.2.1 /\
    outcome (for_each (align_video e model_type (length ss) w_min w_max feats ps)
               cv []) = Ok results0 /\
    rs = top_k k (sort_desc result_score results0).
Proof.
  intros H. unfold temporal_search in H.
  apply bind_ok_inv in H. destruct H as (t & Ht & H).
  unfold translate, call, outcome in Ht. cbn [snd] in Ht. injection Ht as <-.
  destruct (split_query (translator e text)) as [| s1 [| s2 ss']] eqn:Es.
  - discriminate.
  - apply bind_ok_inv in H. destruct H as ([[scores idxs] paths] & _ & H).
    destruct (unit_loop k (zip scores paths) [] ∅). discriminate.
  - apply bind_ok_inv in H. destruct H as ([[ps' cv'] results] & Hall & H).
    injection H as <- <- <- <-. split; [reflexivity |]. split; [simpl; lia |].
    unfold align_all in Hall.
    apply bind_ok_inv in Hall. destruct Hall as (feats & Hf & Hall).
    apply bind_ok_inv in Hall. destruct Hall as (index & Hi & Hall).
    apply bind_ok_inv in Hall. destruct Hall as (found & Hs & Hall).
    exists feats, index, found.
    destruct (found.2.1) as [| c cs] eqn:Ec.
    + injection Hall as <- <- <-. exists []. repeat split; auto.
    + apply bind_ok_inv in Hall. destruct Hall as (results0 & Hloop & Hall).
      injection Hall as <- <- <-. exists results0. repeat split; auto.
Qed.

Lemma multi_sentence_structure (e : MyFaiss) (text : string) (k : Z)
  (model_type : string) (tps mcv w_min : Z) (w_max : option Z) (ss : list string)
  (ps : list sentence_units) (cv : list string) (rs : list aligned_result) :
  outcome (temporal_search e text k model_type tps mcv w_min w_max)
  = Ok (MultiSentence ss ps cv rs) ->
  map sentence ps = ss /\
  Forall (fun p => (length (ranked_units p) <= 20)%nat) ps /\
  NoDup cv /\
  Z.of_nat (length cv) <= Z.max 0 mcv /\
  Forall (fun v => v <> EmptyString /\
                   exists i p, id2img e !! i = Some p /\
                               v = Py.basename (Py.dirname p)) cv.
Proof.
  intros H. apply temporal_multi_inv in H.
  destruct H as (_ & _ & feats & index & found & results0 & Hf & Hi & Hs & -> & -> & _).
  apply choose_index_known in Hi.
  apply encode_sentences_length in Hf; [| exact Hi]. simpl in Hf.
  assert (candidates_ok e mcv ([], ∅)) as Hinit.
  { unfold candidates_ok. cbn [fst snd]. split; [constructor |].
    split; [intros v; simpl; set_solver |]. split; [simpl; lia | constructor]. }
  apply search_loop_spec in Hs; [| exact Hinit].
  destruct Hs as (new & Heq & Hmap & Hlen & Hnd & Hseen & Hcap & Hall).
  simpl in Heq. rewrite Heq. repeat apply conj; auto.
  rewrite Hmap. rewrite fst_zip; [reflexivity | lia].
Qed.

(** X4: a returned multi-sentence dictionary has one shortlist per
    sentence, in the order of the sentences, each of at most 20 units; its
    candidate videos are pairwise distinct, non-empty, the folder of some
    mapped keyframe path, and at most [max_candidate_videos]. *)
Theorem temporal_shortlists_and_candidates (e : MyFaiss) (text : string) (k : Z)
  (model_type : string) (tps mcv w_min : Z) (w_max : option Z) (ss : list string)
  (ps : list sentence_units) (cv : list string) (rs : list aligned_result) :
  outcome (temporal_search e text k model_type tps mcv w_min w_max)
  = Ok (MultiSentence ss ps cv rs) ->
  map sentence ps = ss /\
  Forall (fun p => (length (ranked_units p) <= 20)%nat) ps /\
  NoDup cv /\
  Z.of_nat (length cv) <= Z.max 0 mcv /\
  Forall (fun v => v <> EmptyString /\
                   exists i p, id2img e !! i = Some p /\
                               v = Py.basename (Py.dirname p)) cv.
Proof. apply multi_sentence_structure. Qed.

Lemma temporal_shortlists_and_candidates_witness :
  exists ps cv rs,
    outcome (temporal_search Fixture.engine "a. b" 5 "clip" 3 30 1 (Some 5))
    = Ok (MultiSentence ["a"; "b"]%string ps cv rs) /\
    map sentence ps = ["a"; "b"]%string /\
    Forall (fun p => (length (ranked_units p) <= 20)%nat) ps /\
    NoDup cv /\
    Z.of_nat (length cv) <= Z.max 0 30 /\
    Forall (fun v => v <> EmptyString /\
                     exists i p, id2img Fixture.engine !! i = Some p /\
                                 v = Py.basename (Py.dirname p)) cv.
Proof.
  assert (exists ps cv rs,
             outcome (temporal_search Fixture.engine "a. b" 5 "clip" 3 30 1 (Some 5))
             = Ok (MultiSentence ["a"; "b"]%string ps cv rs)) as Hd.
  { vm_compute. do 3 eexists. reflexivity. }
  destruct Hd as (ps & cv & rs & Hd). exists ps, cv, rs. split; [exact Hd |].
  exact (temporal_shortlists_and_candidates Fixture.engine "a. b" 5 "clip" 3 30 1
           (Some 5) ["a"; "b"]%string ps cv rs Hd).
Defined.

Lemma multi_sentence_ranked (e : MyFaiss) (text : string) (k : Z)
  (model_type : string) (tps mcv w_min : Z) (w_max : option Z) (ss : list string)
  (ps : list sentence_units) (cv : list string) (rs : list aligned_result) :
  outcome (temporal_search e text k model_type tps mcv w_min w_max)
  = Ok (MultiSentence ss ps cv rs) ->
  StronglySorted (desc result_score) rs /\
  NoDup (map result_video_id rs) /\
  Forall (fun r => In (result_video_id r) cv) rs /\
  (length rs <= length cv)%nat /\
  (0 < k -> Z.of_nat (length rs) <= k).
Proof.
  intros H. pose proof (multi_sentence_structure _ _ _ _ _ _ _ _ _ _ _ _ H)
    as (_ & _ & Hndc & _).
  apply temporal_multi_inv in H.
  destruct H as (_ & _ & feats & index & found & results0 & _ & _ & _ & -> & -> & Hl & ->).
  destruct (align_loop_spec e model_type (length ss) w_min w_max feats
              found.1 found.2.1 []) as (suffix & Heq & Hsub).
  rewrite Hl in Heq. injection Heq as ->. simpl in *.
  set (sorted := sort_desc result_score suffix).
  assert (Permutation sorted suffix) as Hperm by apply sort_desc_perm.
  assert (sublist (top_k k sorted) sorted) as Htop.
  { unfold top_k. destruct (0 <? k); [apply sublist_take | reflexivity]. }
  assert (NoDup (map result_video_id suffix)) as Hnd.
  { eapply sublist_NoDup; [exact Hndc | exact Hsub]. }
  repeat apply conj.
  - eapply StronglySorted_sublist; [exact Htop | apply sort_desc_sorted].
  - eapply sublist_NoDup; [| apply sublist_map; exact Htop].
    assert (map result_video_id sorted ≡ₚ map result_video_id suffix) as ->
      by (apply Permutation_map; exact Hperm).
    exact Hnd.
  - rewrite List.Forall_forall. intros r Hr.
    apply list_elem_of_In. eapply sublist_subseteq; [exact Hsub |].
    apply list_elem_of_In. apply in_map.
    apply (Permutation_in _ Hperm).
    apply list_elem_of_In. eapply sublist_subseteq; [exact Htop |].
    now apply list_elem_of_In.
  - apply sublist_length in Htop, Hsub. rewrite length_map in Hsub.
    apply Permutation_length in Hperm. lia.
  - intros Hk. unfold top_k. apply Z.ltb_lt in Hk. rewrite Hk.
    rewrite length_take. lia.
Qed.

(** X5: the results of a multi-sentence [temporal_search] are sorted by
    descending score, name pairwise distinct videos, all of them
    candidate videos, and number at most [k] when [k > 0]. *)
Theorem temporal_results_ranked (e : MyFaiss) (text : string) (k : Z)
  (model_type : string) (tps mcv w_min : Z) (w_max : option Z) (ss : list string)
  (ps : list sentence_units) (cv : list string) (rs : list aligned_result) :
  outcome (temporal_search e text k model_type tps mcv w_min w_max)
  = Ok (MultiSentence ss ps cv rs) ->
  StronglySorted (desc result_score) rs /\
  NoDup (map result_video_id rs) /\
  Forall (fun r => In (result_video_id r) cv) rs /\
  (length rs <= length cv)%nat /\
  (0 < k -> Z.of_nat (length rs) <= k).
Proof. apply multi_sentence_ranked. Qed.

Lemma temporal_results_ranked_witness :
  exists ps cv rs,
    outcome (temporal_search Fixture.engine "a. b" 5 "clip" 3 30 1 (Some 5))
    = Ok (MultiSentence ["a"; "b"]%string ps cv rs) /\
    StronglySorted (desc result_score) rs /\
    NoDup (map result_video_id rs) /\
    Forall (fun r => In (result_video_id r) cv) rs /\
    (length rs <= length cv)%nat /\
    (0 < 5 -> Z.of_nat (length rs) <= 5).
Proof.
  assert (exists ps cv rs,
             outcome (temporal_search Fixture.engine "a. b" 5 "clip" 3 30 1 (Some 5))
             = Ok (MultiSentence ["a"; "b"]%string ps cv rs)) as Hd.
  { vm_compute. do 3 eexists. reflexivity. }
  destruct Hd as (ps & cv & rs & Hd). exists ps, cv, rs. split; [exact Hd |].
  exact (temporal_results_ranked Fixture.engine "a. b" 5 "clip" 3 30 1
           (Some 5) ["a"; "b"]%string ps cv rs Hd).
Defined.

End TemporalStructure.

(** ** The dynamic programme finds the best alignment *)
Section BestAlignment.

Import Temporal.

Variables (N : nat) (w_min : Z) (w_max : option Z).
Hypothesis N_pos : (0 < N)%nat.

Lemma argmax_from_max (l : list Q) (best : Q) (besti i : nat) (v : Q) (c : nat) :
  argmax_from best besti i l = (v, c) ->
  (best <= v)%Q /\ Forall (fun x => (x <= v)%Q) l.
Proof.
  revert best besti i. induction l as [| x l IH]; intros best besti i H.
  - simpl in H. injection H as <- <-. split; [apply Qle_refl | constructor].
  - simpl in H. destruct (Qltb best x) eqn:E.
    + apply Qltb_lt in E. apply IH in H. destruct H as [H1 H2].
      split; [lra | constructor; assumption].
    + apply Qltb_ge in E. apply IH in H. destruct H as [H1 H2].
      split; [exact H1 | constructor; [lra | exact H2]].
Qed.

Lemma row_max_max (l : list Q) (v : Q) (c : nat) :
  row_max l = (v, c) -> Forall (fun x => (x <= v)%Q) l.
Proof.
  destruct l as [| x l]; [constructor |]. unfold row_max. intros H.
  apply argmax_from_max in H. destruct H as [H1 H2]. constructor; assumption.
Qed.

Lemma dp_layer_lookup (score_next work_prev : list Q) (j : nat) (w : Q) :
  (j < length score_next)%nat -> work_prev !! j = Some w ->
  (dp_layer w_min w_max score_next work_prev).1 !! j
  = Some ((row_max (masked_row w_min w_max score_next (Z.of_nat j))).1 + w)%Q /\
  (dp_layer w_min w_max score_next work_prev).2 !! j
  = Some (pointer_of (row_max (masked_row w_min w_max score_next (Z.of_nat j)))).
Proof.
  intros Hj Hw. unfold dp_layer. cbn [fst snd].
  rewrite lookup_zip_with, !list_lookup_fmap, lookup_seqZ_lt by lia.
  rewrite Hw. simpl. split; reflexivity.
Qed.

Lemma infeasible_bound (n : nat) :
  Z.of_nat n <= 100000000 ->
  (neg_inf + work_bound * inject_Z (Z.of_nat n) <= neg_thresh)%Q.
Proof.
  intros H. unfold neg_inf, neg_thresh, work_bound, Qle. simpl. lia.
Qed.

Lemma feasible_cons_inv (n : nat) (j : nat) (rest : list Z) :
  (0 < n)%nat ->
  feasible N w_min w_max (S n) (Z.of_nat j :: rest) ->
  exists c rest',
    rest = Z.of_nat c :: rest' /\ (c < N)%nat /\
    valid w_min w_max (Z.of_nat j) (Z.of_nat c) = true /\
    feasible N w_min w_max n (Z.of_nat c :: rest').
Proof.
  intros Hn (Hlen & Hall & Hgap).
  destruct rest as [| b rest']; [simpl in Hlen; lia |].
  pose proof (Forall_inv (Forall_inv_tail Hall)) as Hb. simpl in Hb.
  exists (Z.to_nat b), rest'. rewrite Z2Nat.id by lia.
  simpl in Hgap. destruct Hgap as [Hv Hgap].
  repeat apply conj; try reflexivity; try lia; try assumption.
  - simpl in Hlen. simpl. lia.
  - exact (Forall_inv_tail Hall).
Qed.

(** The start of the sweep: the last sentence may sit on any row. *)
Lemma dp_invariant_base (w : list Q) :
  length w = N -> Forall (fun x => (0 <= x <= work_bound)%Q) w ->
  dp_invariant N w_min w_max [w] w [].
Proof.
  intros Hlen Hw j Hj.
  destruct (lookup_lt_is_Some_2 w j ltac:(lia)) as [wj Ewj].
  assert (0 <= wj <= work_bound)%Q as Hwj.
  { rewrite List.Forall_forall in Hw. apply Hw. apply list_elem_of_In.
    eapply list_elem_of_lookup_2. exact Ewj. }
  exists wj. split; [exact Ewj |]. split.
  - intros rest (Hl & _ & _). destruct rest; [| simpl in Hl; lia].
    unfold path_score. simpl. rewrite Nat2Z.id, Ewj. simpl. lra.
  - left. split; [apply Hwj |]. exists []. repeat apply conj.
    + reflexivity.
    + constructor; [lia | constructor].
    + exact I.
    + unfold path_score. simpl. rewrite Nat2Z.id, Ewj. simpl. lra.
    + intros pre. reflexivity.
Qed.

(** One iteration of the sweep keeps the invariant. *)
Lemma dp_layer_invariant (ws : list (list Q)) (score : list Q) (ptrs : list (list Z))
  (w : list Q) :
  ws <> [] -> Z.of_nat (length ws) <= 100000000 ->
  length score = N -> length w = N ->
  Forall (fun x => (0 <= x <= work_bound)%Q) w ->
  dp_invariant N w_min w_max ws score ptrs ->
  dp_invariant N w_min w_max (w :: ws) (dp_layer w_min w_max score w).1
    ((dp_layer w_min w_max score w).2 :: ptrs).
Proof.
  intros Hne Hbound Hlen Hlw Hw Hinv j Hj.
  assert (0 < length ws)%nat as Hpos by (destruct ws; [congruence | simpl; lia]).
  destruct (lookup_lt_is_Some_2 w j ltac:(lia)) as [wj Ewj].
  assert (0 <= wj <= work_bound)%Q as Hwj.
  { rewrite List.Forall_forall in Hw. apply Hw. apply list_elem_of_In.
    eapply list_elem_of_lookup_2. exact Ewj. }
  destruct (dp_layer_lookup score w j wj ltac:(lia) Ewj) as [Hs Hp].
  destruct (row_max (masked_row w_min w_max score (Z.of_nat j))) as [v c] eqn:Er.
  cbn [fst] in Hs.
  pose proof (row_max_max _ _ _ Er) as Hmax.
  apply row_max_lookup in Er.
  2:{ intros Hnil. apply (f_equal length) in Hnil.
      rewrite masked_row_length in Hnil. simpl in Hnil. lia. }
  rewrite masked_row_lookup in Er.
  destruct (score !! c) as [sc |] eqn:Esc; [| discriminate].
  simpl in Er. injection Er as Ev.
  assert (c < N)%nat as Hc by (apply lookup_lt_Some in Esc; lia).
  destruct (Hinv c Hc) as (sc' & Esc' & HAc & Hcase_c).
  rewrite Esc in Esc'. injection Esc' as <-.
  (* every valid successor is bounded by the row maximum *)
  assert (forall c'' s'', (c'' < N)%nat -> score !! c'' = Some s'' ->
            valid w_min w_max (Z.of_nat j) (Z.of_nat c'') = true -> (s'' <= v)%Q)
    as Hle.
  { intros c'' s'' Hc'' Es'' Hv''. rewrite List.Forall_forall in Hmax. apply Hmax.
    apply list_elem_of_In. apply (list_elem_of_lookup_2 _ c'').
    rewrite masked_row_lookup, Es''. simpl. now rewrite Hv''. }
  pose proof (infeasible_bound (length ws) Hbound) as Hgapb.
  assert (neg_thresh < 0)%Q as Hneg by reflexivity.
  exists (v + wj)%Q. split; [exact Hs |]. split.
  - intros rest Hf. apply feasible_cons_inv in Hf; [| exact Hpos].
    destruct Hf as (c'' & rest' & -> & Hc'' & Hv'' & Hf'').
    destruct (Hinv c'' Hc'') as (s'' & Es'' & HA'' & _).
    specialize (HA'' rest' Hf''). specialize (Hle c'' s'' Hc'' Es'' Hv'').
    change (path_score (w :: ws) (Z.of_nat j :: Z.of_nat c'' :: rest'))
      with (default 0 (w !! Z.to_nat (Z.of_nat j))
            + path_score ws (Z.of_nat c'' :: rest'))%Q.
    rewrite Nat2Z.id, Ewj. simpl. lra.
  - destruct (Qltb neg_thresh v) eqn:Et.
    + apply Qltb_lt in Et. left.
      destruct (valid w_min w_max (Z.of_nat j) (Z.of_nat c)) eqn:Evalid.
      2:{ exfalso. subst v. revert Et. unfold neg_thresh, neg_inf. intros Et.
          apply Qlt_not_le in Et. apply Et. discriminate. }
      subst v.
      destruct Hcase_c as [(Hsc0 & rest' & Hf' & Hsum' & Hfol') | (Hsmall & _)];
        [| exfalso; lra].
      split; [lra |]. exists (Z.of_nat c :: rest'). repeat apply conj.
      * destruct Hf' as (Hl' & _). simpl in *. lia.
      * constructor; [lia | apply Hf'].
      * exact Evalid.
      * apply Hf'.
      * change (path_score (w :: ws) (Z.of_nat j :: Z.of_nat c :: rest'))
          with (default 0 (w !! Z.to_nat (Z.of_nat j))
                + path_score ws (Z.of_nat c :: rest'))%Q.
        rewrite Nat2Z.id, Ewj. simpl. lra.
      * intros pre. cbn [follow]. rewrite Nat2Z.id, Hp.
        unfold pointer_of. cbn [fst snd].
        assert (Qltb neg_thresh sc = true) as -> by now apply Qltb_lt.
        assert ((Z.of_nat c <? 0) = false) as -> by (apply Z.ltb_ge; lia).
        rewrite (Hfol' (pre ++ [Z.of_nat j])). now rewrite <- app_assoc.
    + apply Qltb_ge in Et. right. repeat apply conj.
      * assert (v <= neg_inf + work_bound * inject_Z (Z.of_nat (length ws)))%Q as Hv.
        { destruct (valid w_min w_max (Z.of_nat j) (Z.of_nat c)); subst v.
          - destruct Hcase_c as [(Hsc0 & _) | (Hsmall & _)]; [lra | exact Hsmall].
          - assert (0 <= inject_Z (Z.of_nat (length ws)))%Q
              by (unfold Qle; simpl; lia).
            unfold work_bound. nra. }
        change (length (w :: ws)) with (S (length ws)).
        rewrite Nat2Z.inj_succ. unfold Z.succ. rewrite inject_Z_plus.
        unfold work_bound in *. change (inject_Z 1) with 1%Q. lra.
      * intros rest Hf. apply feasible_cons_inv in Hf; [| exact Hpos].
        destruct Hf as (c'' & rest' & -> & Hc'' & Hv'' & Hf'').
        destruct (Hinv c'' Hc'') as (s'' & Es'' & _ & Hcase'').
        specialize (Hle c'' s'' Hc'' Es'' Hv'').
        destruct Hcase'' as [(Hs0 & _) | (_ & Hno & _)]; [lra |].
        exact (Hno rest' Hf'').
      * discriminate.
      * intros pre. cbn [follow]. rewrite Nat2Z.id, Hp.
        unfold pointer_of. cbn [fst snd].
        assert (Qltb neg_thresh v = false) as -> by now apply Qltb_ge.
        reflexivity.
Qed.

Lemma dp_sweep_invariant (prevs ws : list (list Q)) (st : list Q * list (list Z)) :
  ws <> [] -> Z.of_nat (length ws + length prevs) <= 100000000 ->
  length st.1 = N ->
  Forall (fun w => length w = N) prevs ->
  Forall (Forall (fun x => (0 <= x <= work_bound)%Q)) prevs ->
  dp_invariant N w_min w_max ws st.1 (rev st.2) ->
  dp_invariant N w_min w_max (rev prevs ++ ws)
    (foldl (dp_step w_min w_max) st prevs).1
    (rev (foldl (dp_step w_min w_max) st prevs).2).
Proof.
  revert ws st. induction prevs as [| w prevs IH]; intros ws st Hne Hb Hlen Hl Hw Hinv.
  - exact Hinv.
  - simpl.
    assert (dp_step w_min w_max st w
            = ((dp_layer w_min w_max st.1 w).1,
               st.2 ++ [(dp_layer w_min w_max st.1 w).2])) as Hstep.
    { unfold dp_step. now destruct (dp_layer w_min w_max st.1 w). }
    rewrite Hstep, <- app_assoc. simpl in Hb.
    apply (IH (w :: ws)).
    + discriminate.
    + simpl. lia.
    + cbn [fst]. rewrite dp_layer_length; [exact Hlen |].
      rewrite (Forall_inv Hl). now symmetry.
    + exact (Forall_inv_tail Hl).
    + exact (Forall_inv_tail Hw).
    + cbn [fst snd]. rewrite rev_app_distr. simpl.
      apply dp_layer_invariant; try assumption.
      * lia.
      * exact (Forall_inv Hl).
      * exact (Forall_inv Hw).
Qed.

Lemma dp_tables_invariant (work : list (list Q)) :
  work <> [] -> Z.of_nat (length work) <= 100000000 ->
  Forall (fun w => length w = N) work ->
  Forall (Forall (fun x => (0 <= x <= work_bound)%Q)) work ->
  dp_invariant N w_min w_max work (dp_tables w_min w_max work).1
    (rev (dp_tables w_min w_max work).2).
Proof.
  intros Hne Hb Hl Hw. unfold dp_tables.
  assert (work = rev (rev work)) as Hrr by (symmetry; apply rev_involutive).
  assert (Forall (fun w => length w = N) (rev work)) as Hl'.
  { rewrite List.Forall_forall in *. intros w Hin. apply Hl. now apply in_rev. }
  assert (Forall (Forall (fun x => (0 <= x <= work_bound)%Q)) (rev work)) as Hw'.
  { rewrite List.Forall_forall in *. intros w Hin. apply Hw. now apply in_rev. }
  assert (length (rev work) = length work) as Hlr by apply length_rev.
  destruct (rev work) as [| last prevs]; [destruct work; simpl in *; congruence |].
  rewrite Hrr. simpl.
  apply (dp_sweep_invariant prevs [last] (last, [])).
  - discriminate.
  - simpl in *. lia.
  - exact (Forall_inv Hl').
  - exact (Forall_inv_tail Hl').
  - exact (Forall_inv_tail Hw').
  - apply dp_invariant_base; [exact (Forall_inv Hl') | exact (Forall_inv Hw')].
Qed.

Lemma align_best (n_sent : nat) (work : list (list Q)) :
  length work = n_sent -> (1 <= n_sent)%nat -> Z.of_nat n_sent <= 100000000 ->
  Forall (fun w => length w = N) work ->
  Forall (Forall (fun x => (0 <= x <= work_bound)%Q)) work ->
  match align n_sent w_min w_max work with
  | Some (frames, sc) =>
      feasible N w_min w_max n_sent frames /\
      (sc == path_score work frames * (100 / inject_Z (Z.of_nat n_sent)))%Q /\
      forall frames', feasible N w_min w_max n_sent frames' ->
                      (path_score work frames' <= path_score work frames)%Q
  | None => forall frames', ~ feasible N w_min w_max n_sent frames'
  end.
Proof.
  intros Hlen Hn Hb Hl Hw.
  assert (work <> []) as Hne by (destruct work; [simpl in Hlen; lia | discriminate]).
  pose proof (dp_tables_invariant work Hne ltac:(lia) Hl Hw) as Hinv.
  destruct (dp_tables_good w_min w_max N work Hl Hne) as (Hslen & _ & _).
  unfold align.
  destruct (dp_tables w_min w_max work) as [score_next tables].
  cbn [fst snd] in *.
  destruct (row_max score_next) as [total f0] eqn:Er.
  pose proof (row_max_max _ _ _ Er) as Hmax.
  apply row_max_lookup in Er; [| intros ->; simpl in Hslen; lia].
  assert (f0 < N)%nat as Hf0 by (apply lookup_lt_Some in Er; lia).
  (* every feasible sequence is bounded by the best start *)
  assert (forall frames', feasible N w_min w_max n_sent frames' ->
            exists j s rest, frames' = Z.of_nat j :: rest /\ (j < N)%nat /\
              score_next !! j = Some s /\ (s <= total)%Q /\
              (path_score work frames' <= s)%Q) as Hstart.
  { intros frames' Hf'. pose proof Hf' as (Hl' & Hall' & _).
    destruct frames' as [| a rest]; [simpl in Hl'; lia |].
    pose proof (Forall_inv Hall') as Ha. simpl in Ha.
    remember (Z.to_nat a) as j eqn:Hj.
    assert (a = Z.of_nat j) as Ha' by lia. clear Hj. subst a.
    destruct (Hinv j ltac:(lia)) as (s & Es & HA & _).
    exists j, s, rest. repeat apply conj; auto; try lia.
    - rewrite List.Forall_forall in Hmax. apply Hmax. apply list_elem_of_In.
      eapply list_elem_of_lookup_2. exact Es.
    - apply HA. rewrite Hlen. exact Hf'. }
  destruct (Hinv f0 Hf0) as (s0 & Es0 & _ & Hcase).
  rewrite Er in Es0. injection Es0 as <-.
  destruct Hcase as [(H0 & rest & Hf & Hsum & Hfol) | (Hsmall & Hno & Hptr & Hfol)].
  - specialize (Hfol []). simpl in Hfol. rewrite Hfol.
    rewrite Hlen in Hf. pose proof Hf as (Hfl & _).
    apply Nat.eqb_eq in Hfl. rewrite Hfl. cbn [andb].
    repeat apply conj; try apply Hf.
    + rewrite Hsum. reflexivity.
    + intros frames' Hf'. destruct (Hstart frames' Hf')
        as (j & s & rest' & _ & _ & _ & Hs & Hp). lra.
  - specialize (Hfol [Z.of_nat f0]).
    destruct (follow (rev tables) (Z.of_nat f0) [Z.of_nat f0]) as [ok frs].
    simpl in Hfol. subst ok. cbn [andb].
    intros frames' Hf'. pose proof Hf' as Hf''.
    destruct (Hstart frames' Hf') as (j & s & rest' & -> & Hj & Es & Hs & _).
    destruct (Hinv j Hj) as (s' & Es' & _ & Hcase').
    rewrite Es in Es'. injection Es' as <-.
    pose proof (infeasible_bound (length work) ltac:(lia)) as Hgapb.
    assert (neg_thresh < 0)%Q as Hneg by reflexivity.
    destruct Hcase' as [(Hs0 & _) | (_ & Hno' & _)]; [lra |].
    apply (Hno' rest'). rewrite Hlen. exact Hf''.
Qed.


End BestAlignment.


(** ** The work matrix and the best alignment of a result *)
Section WorkMatrix.

Import Temporal Engine.

Lemma normalize_bounds (row : list Q) : Forall (fun v => (0 <= v <= 1)%Q) (normalize row).
Proof.
  unfold normalize. destruct (Qltb (smax row - smin row) eps) eqn:E.
  - rewrite List.Forall_forall. intros v Hv. apply in_map_iff in Hv.
    destruct Hv as (s & <- & _). split; [apply Qle_refl | discriminate].
  - apply Qltb_ge in E.
    assert (0 < smax row - smin row)%Q as Hd.
    { eapply Qlt_le_trans; [| exact E]. reflexivity. }
    pose proof (smin_smax_bounds row) as Hb.
    rewrite List.Forall_forall in *. intros v Hv. apply in_map_iff in Hv.
    destruct Hv as (s & <- & Hs). destruct (Hb s Hs) as [Hlo Hhi]. split.
    + apply Qle_shift_div_l; [exact Hd |]. lra.
    + apply Qle_shift_div_r; [exact Hd |]. lra.
Qed.

Lemma contribution_bounds (N t : Z) (h : unit_hit) (c : Q) :
  contribution N t h = Some c -> (0 <= c <= 1 # 10)%Q.
Proof.
  unfold contribution. destruct (hit_row h) as [j |]; [| discriminate].
  destruct ((0 <=? j) && (j <? N)); [| discriminate]. cbn [andb].
  unfold anchor_window. destruct (Z.abs (t - j) <=? 2) eqn:Ew; [| discriminate].
  apply Z.leb_le in Ew. intros [= <-]. unfold decay, anchor_window.
  assert (Z.abs (t - j) = 0 \/ Z.abs (t - j) = 1 \/ Z.abs (t - j) = 2) as Habs by lia.
  destruct Habs as [-> | [-> | ->]]; split; discriminate.
Qed.

Lemma foldl_Qmax_range (cs : list Q) (a lo hi : Q) :
  (lo <= a <= hi)%Q -> Forall (fun c => (lo <= c <= hi)%Q) cs ->
  (lo <= foldl Qmax a cs <= hi)%Q.
Proof.
  intros Ha Hcs. destruct (foldl_Qmax_In cs a) as [<- | Hin]; [exact Ha |].
  rewrite List.Forall_forall in Hcs. now apply Hcs.
Qed.

Lemma bonus_row_bounds (N : Z) (vid : string) (ranked_units : list unit_hit) :
  Forall (fun b => (0 <= b <= 1 # 10)%Q) (bonus_row N vid ranked_units).
Proof.
  apply Forall_lookup. intros i b Hb.
  pose proof (lookup_lt_Some _ _ _ Hb) as Hi. rewrite bonus_row_length in Hi.
  assert (0 <= Z.of_nat i < N) as Ht by lia.
  unfold bonus_row in Hb.
  pose proof (hits_lookup N (take anchor_top (hits_of_video vid ranked_units))
                (replicate (Z.to_nat N) 0%Q) (Z.of_nat i) Ht) as Hl.
  rewrite Nat2Z.id in Hl. rewrite Hl in Hb.
  rewrite lookup_replicate_2 in Hb by lia. simpl in Hb. injection Hb as <-.
  apply foldl_Qmax_range; [split; discriminate |].
  rewrite List.Forall_forall. intros c Hc.
  apply list_elem_of_In in Hc. apply list_elem_of_omap in Hc.
  destruct Hc as (h & _ & Hh). exact (contribution_bounds _ _ _ _ Hh).
Qed.

Lemma work_matrix_entries (feats : list (tensor * tensor))
  (per_sentence : list sentence_units) (vid : string) (video : list tensor) :
  Forall (Forall (fun x => (0 <= x <= work_bound)%Q))
    (work_matrix feats per_sentence vid video).
Proof.
  unfold work_matrix. apply Forall_lookup. intros i w Hw.
  apply lookup_zip_with_Some in Hw. destruct Hw as (norm & bonus & -> & Hn & Hb).
  rewrite list_lookup_fmap in Hn. rewrite list_lookup_fmap in Hb.
  destruct (feats !! i) as [f |]; [| discriminate].
  destruct (per_sentence !! i) as [ps |]; [| discriminate].
  simpl in Hn, Hb. injection Hn as <-. injection Hb as <-.
  unfold work_row. apply Forall_lookup. intros t x Hx.
  apply lookup_zip_with_Some in Hx. destruct Hx as (n & b & -> & Hn & Hb).
  pose proof (normalize_bounds (sims f.1 video)) as Hnb.
  pose proof (bonus_row_bounds (Z.of_nat (length video)) vid (ranked_units ps)) as Hbb.
  rewrite Forall_lookup in Hnb. rewrite Forall_lookup in Hbb.
  specialize (Hnb _ _ Hn). specialize (Hbb _ _ Hb). simpl in Hnb, Hbb.
  unfold work_bound. lra.
Qed.


Lemma align_loop_complete (e : MyFaiss) (model_type : string) (n_sent : nat)
  (w_min : Z) (w_max : option Z) (feats : list (tensor * tensor))
  (per_sentence : list sentence_units) (cands : list string)
  (acc rs : list aligned_result) :
  outcome (for_each (align_video e model_type n_sent w_min w_max feats per_sentence)
             cands acc) = Ok rs ->
  (forall r, In r acc -> In r rs) /\
  forall vid video r,
    In vid cands -> video_features e model_type vid = Ok video ->
    score_video n_sent w_min w_max feats per_sentence vid video = Some r ->
    In r rs.
Proof.
  revert acc. induction cands as [| c cands IH]; intros acc H.
  - simpl in H. injection H as <-. split; [auto | intros ? ? ? []].
  - simpl in H. apply bind_ok_inv in H. destruct H as (acc' & Hacc & H).
    rewrite align_video_outcome in Hacc. injection Hacc as Hacc.
    destruct (IH _ H) as [Hkeep Hnew].
    assert (forall r, In r acc -> In r acc') as Hsub.
    { intros r Hr. subst acc'.
      destruct (video_features e model_type c); [| exact Hr].
      destruct (score_video _ _ _ _ _ _ _); [| exact Hr].
      apply in_or_app. now left. }
    split; [intros r Hr; apply Hkeep, Hsub, Hr |].
    intros vid video r [<- | Hin] Hload Hscore.
    + apply Hkeep. subst acc'. rewrite Hload, Hscore. apply in_or_app. right. now left.
    + exact (Hnew vid video r Hin Hload Hscore).
Qed.

(** What the search was run with, for a returned multi-sentence
    dictionary. *)
Lemma multi_sentence_work (e : MyFaiss) (text : string) (k : Z) (model_type : string)
  (tps mcv w_min : Z) (w_max : option Z) (ss : list string)
  (ps : list sentence_units) (cv : list string) (rs : list aligned_result) :
  outcome (temporal_search e text k model_type tps mcv w_min w_max)
  = Ok (MultiSentence ss ps cv rs) ->
  (2 <= length ss)%nat /\
  exists feats results0,
    outcome (encode_sentences e model_type ss) = Ok feats /\
    length feats = length ss /\ length ps = length ss /\
    outcome (for_each (align_video e model_type (length ss) w_min w_max feats ps)
               cv []) = Ok results0 /\
    rs = top_k k (sort_desc result_score results0).
Proof.
  intros H. pose proof (multi_sentence_structure _ _ _ _ _ _ _ _ _ _ _ _ H) as (Hps & _).
  apply temporal_multi_inv in H.
  destruct H as (_ & Hn & feats & index & found & results0 & Hf & Hi & _ & -> & -> & Hl & ->).
  split; [exact Hn |]. exists feats, results0.
  pose proof Hf as Hlen. apply encode_sentences_length in Hlen;
    [| exact (choose_index_known _ _ _ Hi)].
  simpl in Hlen. repeat apply conj; auto.
  rewrite <- Hps. now rewrite length_map.
Qed.



(** X9: a candidate video is not lost: when its feature matrix loads, is
    not empty, has at least as many rows as there are sentences and admits
    a feasible frame sequence, the video is among the results, unless the
    cut to [k > 0] results has filled them. *)
Theorem temporal_feasible_video_is_returned (e : MyFaiss) (text : string) (k : Z)
  (model_type : string) (tps mcv w_min : Z) (w_max : option Z) (ss : list string)
  (ps : list sentence_units) (cv : list string) (rs : list aligned_result)
  (vid : string) (video : list tensor) (frames' : list Z) :
  outcome (temporal_search e text k model_type tps mcv w_min w_max)
  = Ok (MultiSentence ss ps cv rs) ->
  Z.of_nat (length ss) <= 100000000 ->
  In vid cv ->
  video_features e model_type vid = Ok video ->
  numel video <> 0%nat -> (length ss <= length video)%nat ->
  feasible (length video) w_min w_max (length ss) frames' ->
  (exists r, In r rs /\ result_video_id r = vid) \/
  (0 < k /\ Z.of_nat (length rs) = k).
Proof.
  intros H Hb Hvid Hload Hnumel Hrows Hfeas. apply multi_sentence_work in H.
  destruct H as (Hn & feats & results0 & Hf & Hlf & Hlp & Hl & ->).
  assert (exists r, score_video (length ss) w_min w_max feats ps vid video = Some r
                    /\ result_video_id r = vid) as (r & Hscore & Hid).
  { unfold score_video.
    apply Nat.eqb_neq in Hnumel. rewrite Hnumel.
    apply Nat.eqb_neq in Hnumel. apply numel_nonzero in Hnumel.
    assert ((length video <? length ss)%nat = false) as -> by (apply Nat.ltb_ge; lia).
    pose proof (align_best (length video) w_min w_max Hnumel (length ss)
                  (work_matrix feats ps vid video)) as Hbest.
    destruct (align (length ss) w_min w_max (work_matrix feats ps vid video))
      as [[frs sc] |]; [eexists; split; reflexivity |].
    exfalso. apply (Hbest ltac:(unfold work_matrix;
                                rewrite length_zip_with, !length_map; lia)
                      ltac:(lia) Hb (work_matrix_rows _ _ _ _)
                      (work_matrix_entries _ _ _ _) frames' Hfeas). }
  destruct (align_loop_complete _ _ _ _ _ _ _ _ _ _ Hl) as [_ Hin].
  specialize (Hin vid video r Hvid Hload Hscore).
  apply (sort_desc_In result_score) in Hin.
  unfold top_k. destruct (0 <? k) eqn:Ek; [| left; eauto].
  apply Z.ltb_lt in Ek.
  destruct (decide (length (sort_desc result_score results0) <= Z.to_nat k)%nat)
    as [Hle | Hgt].
  - left. exists r. rewrite take_ge by exact Hle. auto.
  - right. split; [exact Ek |]. rewrite length_take. lia.
Qed.

Lemma temporal_feasible_video_is_returned_witness :
  exists ps cv rs,
    outcome (temporal_search Fixture.engine "a. b" 5 "clip" 3 30 1 (Some 5))
    = Ok (MultiSentence ["a"; "b"]%string ps cv rs) /\
    ((exists r, In r rs /\ result_video_id r = "L21_V001"%string) \/
     (0 < 5 /\ Z.of_nat (length rs) = 5)).
Proof.
  assert (exists ps cv rs,
             outcome (temporal_search Fixture.engine "a. b" 5 "clip" 3 30 1 (Some 5))
             = Ok (MultiSentence ["a"; "b"]%string ps cv rs) /\
             In "L21_V001"%string cv) as Hd.
  { vm_compute. do 3 eexists. split; [reflexivity | now left]. }
  destruct Hd as (ps & cv & rs & Hd & Hcv). exists ps, cv, rs. split; [exact Hd |].
  apply (temporal_feasible_video_is_returned Fixture.engine "a. b" 5 "clip" 3 30 1
           (Some 5) ["a"; "b"]%string ps cv rs "L21_V001"
           [Fixture.unit_x; Fixture.unit_y] [0; 1] Hd).
  - simpl. lia.
  - exact Hcv.
  - reflexivity.
  - simpl. lia.
  - simpl. lia.
  - split; [reflexivity |]. split; [repeat constructor; lia |].
    simpl. auto.
Defined.

End WorkMatrix.

(** ** Feature files and the outcome of a temporal search *)
Section FeatureFiles.

Import Temporal Engine.

Lemma outcome_bind {A B} (m : M A) (f : A -> M B) :
  outcome (bind m f)
  = match outcome m with Ok a => outcome (f a) | Err ex => Err ex end.
Proof. unfold bind, outcome. now destruct m.2. Qed.



End FeatureFiles.

(** ** Keyframe paths of a text search *)
Section KeyframePaths.

Import Engine SearchService.

Lemma omap_length_le {A B} (f : A -> option B) (l : list A) :
  (length (omap f l) <= length l)%nat.
Proof.
  induction l as [| x l IH]; csimpl; [lia |]. destruct (f x); csimpl; lia.
Qed.

Lemma zip_omap_aligned {A} (e : MyFaiss) (scores : list A) (idxs : list Z) :
  Forall (fun i => is_Some (id2img e !! i)) idxs ->
  Forall (fun h => id2img e !! h.1.2 = Some h.2)
    (zip (zip scores idxs) (paths_of e idxs)).
Proof.
  revert scores. induction idxs as [| i idxs IH]; intros scores Hall.
  - destruct scores; constructor.
  - pose proof (Forall_inv Hall) as [p Hp]. pose proof (Forall_inv_tail Hall) as Hall'.
    destruct scores as [| s scores]; [constructor |].
    unfold paths_of in *. simpl. rewrite Hp. simpl.
    constructor; [exact Hp | apply IH, Hall'].
Qed.

(** X11: a successful engine [text_search] returns as many scores as ids;
    its paths are those of the ids that have a keyframe, in order, so
    they are at most as many.  When every id has a keyframe, zipping the
    three lists pairs each id with its own path; an id without keyframe
    is paired with the path of a later id. *)
Theorem text_search_paths (e : MyFaiss) (text : string) (k : Z) (model_type : string)
  (found : list Q * list Z * list string) :
  outcome (Engine.text_search e text k model_type) = Ok found ->
  length found.1.1 = length found.1.2 /\
  found.2 = omap (fun i => id2img e !! i) found.1.2 /\
  (length found.2 <= length found.1.2)%nat /\
  (Forall (fun i => is_Some (id2img e !! i)) found.1.2 ->
   Forall (fun h => id2img e !! h.1.2 = Some h.2) (zip3 found)) /\
  (forall i0 i1 rest p,
     found.1.2 = i0 :: i1 :: rest -> id2img e !! i0 = None ->
     id2img e !! i1 = Some p ->
     exists s0, List.hd_error (zip3 found) = Some (s0, i0, p)).
Proof.
  intros H. unfold Engine.text_search in H.
  apply bind_ok_inv in H. destruct H as (t & _ & H).
  apply bind_ok_inv in H. destruct H as (f & _ & H).
  apply bind_ok_inv in H. destruct H as (hits & _ & H).
  injection H as <-. cbn [fst snd]. repeat apply conj.
  - now rewrite !length_map.
  - reflexivity.
  - apply omap_length_le.
  - intros Hall. unfold zip3. cbn [fst snd]. now apply zip_omap_aligned.
  - intros i0 i1 rest p Hidx H0 H1. unfold zip3, paths_of. cbn [fst snd].
    rewrite Hidx. destruct hits as [| [s0 j0] [| [s1 j1] hits]]; try discriminate.
    simpl in Hidx. injection Hidx as -> -> _. simpl. rewrite H0, H1. simpl. eauto.
Qed.

Lemma text_search_paths_witness :
  exists found,
    outcome (Engine.text_search Fixture.engine "a dog" 3 "clip") = Ok found /\
    length found.1.1 = length found.1.2 /\
    (length found.2 <= length found.1.2)%nat.
Proof.
  assert (exists found,
             outcome (Engine.text_search Fixture.engine "a dog" 3 "clip") = Ok found)
    as [found Hf].
  { vm_compute. eexists. reflexivity. }
  exists found. split; [exact Hf |].
  destruct (text_search_paths Fixture.engine "a dog" 3 "clip" found Hf)
    as (H1 & _ & H3 & _).
  split; assumption.
Defined.

End KeyframePaths.

(** ** Image search: the engine and the service *)
Section ImageSearches.

Import Engine SearchService ImageService.




Lemma try_except_total {A} (m : M A) (h : exn -> M A) :
  (forall ex, exists a, outcome (h ex) = Ok a) ->
  exists a, outcome (try_except m h) = Ok a.
Proof.
  intros Hh. destruct (outcome m) as [a | ex] eqn:E.
  - rewrite (try_except_ok _ _ _ E). eauto.
  - rewrite (try_except_err _ _ _ E). apply Hh.
Qed.

(** X13: the searches of the service never raise: with or without an
    engine, whatever the engine does, text, image, neighbour and visual
    search return a list of results. *)
Theorem service_searches_never_raise (svc : SearchService) (limit : Z) (m : ModelType) :
  (forall query, exists hits,
     outcome (SearchService.text_search svc query m limit) = Ok hits) /\
  (forall src, exists hits, outcome (ImageService.image_search svc src m limit) = Ok hits) /\
  (forall image_id, exists hits,
     outcome (neighbor_search svc image_id m limit) = Ok hits) /\
  (forall n, exists hits, outcome (visual_search svc n limit) = Ok hits) /\
  (faiss_engine svc = None ->
   (forall query, SearchService.text_search svc query m limit
                  = ret (_mock_search_results limit "text" query)) /\
   (forall src, ImageService.image_search svc src m limit
                = ret (_mock_search_results limit "image" "image_query")) /\
   (forall image_id, neighbor_search svc image_id m limit
                     = ret (_mock_search_results limit "neighbor" image_id))).
Proof.
  repeat apply conj.
  - intros query. unfold SearchService.text_search.
    destruct (faiss_engine svc); [| eexists; reflexivity].
    apply try_except_total. intros ex.
    destruct (kind ex); try (eexists; reflexivity).
    destruct (Py.contains _ _); eexists; reflexivity.
  - intros src. unfold ImageService.image_search.
    destruct (faiss_engine svc); [| eexists; reflexivity].
    apply try_except_total. intros ex. eexists; reflexivity.
  - intros image_id. unfold neighbor_search.
    destruct (faiss_engine svc); [| eexists; reflexivity].
    apply try_except_total. intros ex. eexists; reflexivity.
  - intros n. eexists. reflexivity.
  - intros H. repeat apply conj; intros x.
    + unfold SearchService.text_search. now rewrite H.
    + unfold ImageService.image_search. now rewrite H.
    + unfold neighbor_search. now rewrite H.
Qed.

(** X14: a single-model image or neighbour search for a model without an
    image index ([clip2video], [beit3]) answers with the mock results,
    and calls neither the image loader, an encoder nor an index. *)
Theorem image_search_mock_for_models_without_index (svc : SearchService) (e : MyFaiss)
  (m : ModelType) (limit : Z) :
  faiss_engine svc = Some e -> m = CLIP2VIDEO \/ m = BEIT3 ->
  (forall src, ImageService.image_search svc src m limit
               = ([], Ok (_mock_search_results limit "image" "image_query"))) /\
  (forall image_id, neighbor_search svc image_id m limit
                    = ([], Ok (_mock_search_results limit "neighbor" image_id))).
Proof.
  intros He Hm. split.
  - intros src. unfold ImageService.image_search. rewrite He.
    destruct Hm as [-> | ->]; reflexivity.
  - intros image_id. unfold neighbor_search. rewrite He.
    destruct Hm as [-> | ->]; reflexivity.
Qed.

Lemma image_search_mock_for_models_without_index_witness :
  ImageService.image_search Fixture.service (SrcStr "query.jpg") BEIT3 5
  = ([], Ok (_mock_search_results 5 "image" "image_query")).
Proof.
  exact (proj1 (image_search_mock_for_models_without_index Fixture.service
                  Fixture.engine BEIT3 5 eq_refl (or_intror eq_refl))
           (SrcStr "query.jpg")).
Defined.

Lemma image_block_outcome (e : MyFaiss) (limit : Z) (model_type : string)
  (image_id : option Z) (image_source : option image_source)
  (acc : list SearchResult) :
  outcome (image_block e limit model_type image_id image_source acc)
  = Ok (match outcome (Engine.image_search e limit model_type image_id image_source) with
        | Ok found => acc ++ path_hits model_type found
        | Err _ => acc
        end).
Proof.
  unfold image_block.
  destruct (outcome (Engine.image_search e limit model_type image_id image_source))
    as [found | ex] eqn:E.
  - set (body := bind _ _).
    assert (outcome body = Ok (acc ++ path_hits model_type found)) as Hb
      by (subst body; rewrite outcome_bind, E; reflexivity).
    rewrite (try_except_ok _ _ _ Hb). exact Hb.
  - set (body := bind _ _).
    assert (outcome body = Err ex) as Hb
      by (subst body; rewrite outcome_bind, E; reflexivity).
    rewrite (try_except_err _ _ _ Hb). reflexivity.
Qed.

Lemma path_hits_prefix (prefix : string) (found : list Q * list Z * list string) :
  Forall (fun r => exists idx p s,
            image_id r = (prefix ++ "_" ++ Py.str_of_int idx)%string /\
            link r = Some p /\ p <> EmptyString /\ score r = s /\
            In (s, idx, p) (zip3 found))
    (path_hits prefix found).
Proof.
  unfold path_hits. rewrite List.Forall_forall. intros r Hr.
  apply in_map_iff in Hr. destruct Hr as ([[s idx] p] & <- & Hin).
  apply filter_In in Hin. destruct Hin as [Hin Ht]. simpl in Ht.
  exists idx, p, s. cbn. repeat split; auto.
  intros ->. discriminate.
Qed.

(** X15: the all-model image and neighbour searches never raise and fuse
    the hits of the CLIP and LongCLIP indexes only (the [clip2video] and
    [beit3] blocks always fail inside the engine): every result is
    labelled [clip_] or [longclip_], links are pairwise distinct, scores
    descend, and for [limit >= 1] there are at most [limit] results. *)
Theorem image_all_models_fuse_clip_and_longclip (e : MyFaiss) (limit : Z)
  (image_id : option Z) (image_source : option image_source) :
  let hits model_type :=
    match outcome (Engine.image_search e limit model_type image_id image_source) with
    | Ok found => path_hits model_type found
    | Err _ => []
    end in
  let fused := fuse limit (hits "clip"%string ++ hits "longclip"%string) in
  outcome (collect_image_models e limit image_id image_source)
  = Ok (hits "clip"%string ++ hits "longclip"%string) /\
  (forall src, image_id = None -> image_source = Some src ->
     outcome (_image_search_all_models e src limit) = Ok fused) /\
  (forall id, image_source = None -> image_id = Some (numeric_id id) ->
     outcome (_neighbor_search_all_models e id limit) = Ok fused) /\
  Forall (fun r => String.prefix "clip_" (SearchService.image_id r) = true \/
                   String.prefix "longclip_" (SearchService.image_id r) = true) fused /\
  NoDup (map link fused) /\
  StronglySorted (desc SearchService.score) fused /\
  (1 <= limit -> Z.of_nat (length fused) <= limit).
Proof.
  intros hits fused.
  assert (outcome (collect_image_models e limit image_id image_source)
          = Ok (hits "clip"%string ++ hits "longclip"%string)) as Hcollect.
  { unfold collect_image_models. rewrite !outcome_bind, image_block_outcome.
    rewrite !outcome_bind, image_block_outcome.
    rewrite !outcome_bind, image_block_outcome.
    rewrite image_block_outcome. subst hits. cbn beta.
    assert (forall m, m = "clip2video"%string \/ m = "beit3"%string ->
              exists ex, outcome (Engine.image_search e limit m image_id image_source)
                         = Err ex) as Hno.
    { intros m [-> | ->]; eexists; reflexivity. }
    destruct (Hno "clip2video"%string (or_introl eq_refl)) as [ex1 ->].
    destruct (Hno "beit3"%string (or_intror eq_refl)) as [ex2 ->].
    destruct (outcome (Engine.image_search e limit "clip" image_id image_source));
      destruct (outcome (Engine.image_search e limit "longclip" image_id image_source));
      rewrite ?app_nil_r; reflexivity. }
  pose proof (fuse_sound limit (hits "clip"%string ++ hits "longclip"%string))
    as (Hnd & Hsorted & Hin & Hlen).
  repeat apply conj.
  - exact Hcollect.
  - intros src -> ->. unfold _image_search_all_models.
    now rewrite outcome_bind, Hcollect.
  - intros id -> ->. unfold _neighbor_search_all_models.
    now rewrite outcome_bind, Hcollect.
  - rewrite List.Forall_forall. intros r Hr. apply Hin in Hr. destruct Hr as [Hr _].
    apply in_app_or in Hr. subst hits. cbn beta in Hr.
    destruct Hr as [Hr | Hr]; [left | right].
    + destruct (outcome (Engine.image_search e limit "clip" image_id image_source))
        as [found |]; [| destruct Hr].
      pose proof (path_hits_prefix "clip" found) as Hp.
      rewrite List.Forall_forall in Hp. destruct (Hp r Hr) as (idx & p & s & -> & _).
      unfold append. simpl. now destruct (Py.str_of_int idx).
    + destruct (outcome (Engine.image_search e limit "longclip" image_id image_source))
        as [found |]; [| destruct Hr].
      pose proof (path_hits_prefix "longclip" found) as Hp.
      rewrite List.Forall_forall in Hp. destruct (Hp r Hr) as (idx & p & s & -> & _).
      unfold append. simpl. now destruct (Py.str_of_int idx).
  - exact Hnd.
  - exact Hsorted.
  - exact Hlen.
Qed.

End ImageSearches.

(** ** The text search of [faiss_processing.py] *)
Section FaissTextSearch.

Import Clip FaissProcessing.

Lemma substring_length_bound (s : string) (n m : nat) :
  (String.length (substring n m s) <= m)%nat.
Proof.
  revert n m. induction s as [| c s IH]; intros [| n] [| m]; simpl; try lia.
  - specialize (IH 0%nat m). lia.
  - apply IH.
  - apply IH.
Qed.

Lemma append_length (s1 s2 : string) :
  String.length (s1 ++ s2) = (String.length s1 + String.length s2)%nat.
Proof.
  induction s1 as [| c s1 IH]; simpl; [reflexivity |]. now rewrite IH.
Qed.

Lemma slice_from_len (s : string) (n : Z) :
  1 <= n -> Py.len (Py.slice_from s (- n)) <= n.
Proof.
  intros Hn. unfold Py.slice_from, Py.clamp.
  assert ((- n <? 0) = true) as -> by (apply Z.ltb_lt; lia).
  unfold Py.len at 1.
  pose proof (substring_length_bound s (Z.to_nat (Z.max 0 (Py.len s + - n)))
                (Z.to_nat (Py.len s - Z.max 0 (Py.len s + - n)))) as H.
  unfold Py.len in *. lia.
Qed.

Lemma head_tail_len (text : string) (max_tokens : Z) :
  1 <= max_tokens -> max_tokens * 4 < Py.len text ->
  Py.len (head_tail text max_tokens) <= first_part max_tokens + last_part max_tokens + 3.
Proof.
  intros Hm Hlen. rewrite head_tail_cut by exact Hlen.
  unfold Py.len. rewrite !append_length.
  assert (0 <= first_part max_tokens /\ 1 <= last_part max_tokens) as [Hf Hl].
  { unfold first_part, last_part. Z.to_euclidean_division_equations. lia. }
  pose proof (slice_to_len text (first_part max_tokens) Hf) as H1.
  pose proof (slice_from_len text (last_part max_tokens) Hl) as H2.
  unfold Py.len in H1, H2. simpl. lia.
Qed.

Lemma truncate_cases (text : string) (max_tokens : Z) :
  _truncate_text_for_clip text max_tokens = text /\ Py.len text <= max_tokens * 4 \/
  max_tokens * 4 < Py.len text /\
  (Py.len (_truncate_text_for_clip text max_tokens) <= max_tokens * 4 \/
   _truncate_text_for_clip text max_tokens = head_tail text max_tokens).
Proof.
  unfold _truncate_text_for_clip.
  destruct (Py.len text <=? max_tokens * 4) eqn:E.
  - left. apply Z.leb_le in E. auto.
  - right. apply Z.leb_gt in E. split; [exact E |].
    assert ((max_tokens * 4 <? Py.len text) = true) as -> by now apply Z.ltb_lt.
    destruct (split_sentences text) as [| first [| second rest]]; auto.
    destruct (Py.len (joined first _) <=? max_tokens * 4) eqn:E1;
      [left; now apply Z.leb_le |].
    destruct (Py.len first <=? max_tokens * 4) eqn:E2;
      [left; now apply Z.leb_le | auto].
Qed.

(** X16: for [max_tokens >= 1] the truncated text has at most
    [4 * max_tokens + 3] characters (at most 310 for the default 77), and
    a text within the budget of [4 * max_tokens] is the only one returned
    unchanged in every case. *)
Theorem truncate_text_for_clip_length (text : string) (max_tokens : Z) :
  1 <= max_tokens ->
  Py.len (_truncate_text_for_clip text max_tokens) <= max_tokens * 4 + 3 /\
  Py.len (_truncate_text_for_clip text max_tokens)
  <= Z.max (max_tokens * 4) (first_part max_tokens + last_part max_tokens + 3) /\
  (_truncate_text_for_clip text max_tokens <> text -> max_tokens * 4 < Py.len text).
Proof.
  intros Hm.
  assert (first_part max_tokens + last_part max_tokens <= max_tokens * 4) as Hparts.
  { unfold first_part, last_part. Z.to_euclidean_division_equations. lia. }
  destruct (truncate_cases text max_tokens) as [[-> Hle] | [Hgt [Hle | ->]]].
  - repeat split; try lia. congruence.
  - repeat split; try lia.
  - pose proof (head_tail_len text max_tokens Hm Hgt). repeat split; try lia.
Qed.

Lemma truncate_text_for_clip_length_witness :
  Py.len (_truncate_text_for_clip Fixture.long_text 77) <= 77 * 4 + 3.
Proof.
  exact (proj1 (truncate_text_for_clip_length Fixture.long_text 77 ltac:(lia))).
Defined.

Lemma truncate_default_len (text : string) :
  Py.len (_truncate_text_for_clip text 77) <= 310.
Proof.
  destruct (truncate_cases text 77) as [[-> Hle] | [Hgt [Hle | ->]]]; try lia.
  pose proof (head_tail_len text 77 ltac:(lia) Hgt) as H.
  change (first_part 77 + last_part 77 + 3) with 310 in H. exact H.
Qed.

Lemma log_bind {A B} (m : M A) (f : A -> M B) :
  log (bind m f)
  = log m ++ match outcome m with Ok a => log (f a) | Err _ => [] end.
Proof.
  unfold bind, log, outcome. destruct m.2; [reflexivity | now rewrite app_nil_r].
Qed.

Lemma log_try_except {A} (m : M A) (h : exn -> M A) :
  log (try_except m h)
  = log m ++ match outcome m with Ok _ => [] | Err ex => log (h ex) end.
Proof.
  unfold try_except, log, outcome. destruct m.2; [now rewrite app_nil_r | reflexivity].
Qed.

Lemma clip_encode_log (e : MyFaiss) (text : string) (n : Z) :
  Py.len text <= n -> encoded_texts_within n (log (clip_encode e text)).
Proof.
  intros H. unfold clip_encode. rewrite log_bind. unfold call, log, outcome. cbn [fst snd].
  apply Forall_app. split; [repeat constructor; exact H |].
  destruct (clip_encode_text e text); constructor.
Qed.

Lemma clip_encode_retry_log (e : MyFaiss) (text : string) (n : Z) :
  50 <= n -> Py.len text <= n ->
  encoded_texts_within n (log (clip_encode_retry e text)).
Proof.
  intros Hn H. unfold clip_encode_retry. rewrite log_try_except.
  apply Forall_app. split; [now apply clip_encode_log |].
  destruct (outcome (clip_encode e text)); [constructor |].
  apply clip_encode_log. destruct (50 <? Py.len text); [| exact H].
  pose proof (slice_to_len text 50 ltac:(lia)). lia.
Qed.

Lemma longclip_encode_log (w : LongCLIP.LongCLIPModel) (text : string) (n : Z) :
  Py.len text <= n -> encoded_texts_within n (log (LongCLIP.encode_text w text)).
Proof.
  intros H. unfold LongCLIP.encode_text, LongCLIP._generate_mock_features.
  destruct (LongCLIP.model w) as [enc |]; [| repeat constructor].
  rewrite log_try_except. unfold call, log, outcome. cbn [fst snd].
  apply Forall_app. split; [repeat constructor; exact H |].
  destruct (enc text); repeat constructor.
Qed.

Lemma longclip_encode_total (w : LongCLIP.LongCLIPModel) (text : string) :
  exists f, outcome (LongCLIP.encode_text w text) = Ok f.
Proof.
  unfold LongCLIP.encode_text, LongCLIP._generate_mock_features.
  destruct (LongCLIP.model w) as [enc |]; [| eexists; reflexivity].
  unfold try_except, call, outcome. cbn [fst snd].
  destruct (enc text); eexists; reflexivity.
Qed.

Lemma text_features_log (e : MyFaiss) (model_type text : string) (n : Z) :
  50 <= n -> Py.len text <= n ->
  encoded_texts_within n (log (text_features e model_type text)).
Proof.
  intros Hn H. unfold text_features.
  destruct (String.eqb model_type "clip").
  { rewrite log_bind. apply Forall_app. split; [now apply clip_encode_retry_log |].
    destruct (outcome _); constructor. }
  destruct (String.eqb model_type "longclip").
  { destruct (longclip_model e) as [w |]; rewrite log_bind; apply Forall_app; split;
      try (destruct (outcome _); constructor).
    - now apply longclip_encode_log.
    - now apply clip_encode_retry_log. }
  destruct (String.eqb model_type "beit3").
  { destruct (beit3_model e) as [enc |]; [| constructor].
    rewrite log_bind. unfold call, log, outcome. cbn [fst snd].
    apply Forall_app. split; [repeat constructor; exact H |].
    destruct (enc text); constructor. }
  destruct (String.eqb model_type "clip2video"); constructor.
Qed.

(** X17: whatever the query and the model type, every text that
    [text_search] of [faiss_processing.py] hands to a text encoder (CLIP,
    also on the retry, LongCLIP or BEiT-3) has at most 310 characters. *)
Theorem faiss_text_search_encodes_bounded_text (e : MyFaiss) (text : string) (k : Z)
  (model_type : string) :
  encoded_texts_within 310 (log (text_search e text k model_type)).
Proof.
  unfold text_search. rewrite log_bind. unfold call at 1 2, log at 1, outcome at 1.
  cbn [fst snd]. constructor; [exact I |].
  rewrite log_bind. apply Forall_app. split.
  - apply text_features_log; [lia | apply truncate_default_len].
  - destruct (outcome (text_features e model_type _)) as [fm |]; [| constructor].
    rewrite log_bind. unfold Engine.index_search, call, log, outcome. cbn [fst snd].
    apply Forall_app. split; [repeat constructor |].
    destruct (Engine.search _ _ _); constructor.
Qed.

(** X18: in [faiss_processing.py] a missing LongCLIP model makes the
    [longclip] search the [clip] search, with CLIP features on the CLIP
    index; a missing BEiT-3 model and the model type [clip2video] raise
    right after the translation, before any encoding or index search. *)
Theorem faiss_text_search_missing_models (e : MyFaiss) (text : string) (k : Z) :
  (longclip_model e = None ->
   text_search e text k "longclip" = text_search e text k "clip") /\
  (beit3_model e = None ->
   text_search e text k "beit3"
   = ([EvTranslate text], Err (Raise RuntimeError "BEIT3 model not available"))) /\
  (exists msg, text_search e text k "clip2video"
               = ([EvTranslate text], Err (Raise NotImplementedError msg))) /\
  (forall w, longclip_model e = Some w ->
     exists f, outcome (text_features e "longclip"
                          (_truncate_text_for_clip (translator e text) 77))
               = Ok (f, "longclip"%string)).
Proof.
  repeat apply conj.
  - intros H. unfold text_search, text_features. cbn [String.eqb Ascii.eqb Bool.eqb].
    now rewrite H.
  - intros H. unfold text_search, text_features. cbn [String.eqb Ascii.eqb Bool.eqb].
    now rewrite H.
  - eexists. reflexivity.
  - intros w H. unfold text_features. cbn [String.eqb Ascii.eqb Bool.eqb]. rewrite H.
    rewrite outcome_bind.
    destruct (longclip_encode_total w
                (_truncate_text_for_clip (translator e text) 77)) as [f ->].
    eexists. reflexivity.
Qed.

End FaissTextSearch.

(** ** Result ids and the ids of the index *)
Section NumericId.

Import SearchService ImageService.

Lemma uint_chars_digits (d : Decimal.uint) :
  Forall (fun c => Py.digit_val c <> None)
    (list_ascii_of_string (NilEmpty.string_of_uint d)).
Proof.
  induction d; simpl; constructor; try assumption;
    intros H; vm_compute in H; discriminate.
Qed.

Ltac eval_digit :=
  match goal with
  | |- context [Py.digit_val ?c] =>
      let v := eval vm_compute in (Py.digit_val c) in
      change (Py.digit_val c) with v
  end; cbv beta iota.

Lemma parse_uint_acc (d : Decimal.uint) (acc : positive) :
  Py.parse_digits (list_ascii_of_string (NilEmpty.string_of_uint d)) (Z.pos acc) true
  = Some (Z.pos (Pos.of_uint_acc d acc)).
Proof.
  revert acc. induction d; intros acc;
    cbn [NilEmpty.string_of_uint list_ascii_of_string Py.parse_digits Pos.of_uint_acc];
    [reflexivity | ..]; eval_digit; rewrite <- IHd; f_equal; lia.
Qed.

Lemma parse_uint (d : Decimal.uint) (b : bool) :
  d <> Decimal.Nil \/ b = true ->
  Py.parse_digits (list_ascii_of_string (NilEmpty.string_of_uint d)) 0 b
  = Some (Z.of_N (Pos.of_uint d)).
Proof.
  revert b. induction d; intros b Hb;
    cbn [NilEmpty.string_of_uint list_ascii_of_string Py.parse_digits Pos.of_uint].
  - destruct Hb as [Hb | ->]; [congruence | reflexivity].
  - eval_digit. change (10 * 0 + 0) with 0. apply IHd. now right.
  - eval_digit. apply (parse_uint_acc d 1).
  - eval_digit. apply (parse_uint_acc d 2).
  - eval_digit. apply (parse_uint_acc d 3).
  - eval_digit. apply (parse_uint_acc d 4).
  - eval_digit. apply (parse_uint_acc d 5).
  - eval_digit. apply (parse_uint_acc d 6).
  - eval_digit. apply (parse_uint_acc d 7).
  - eval_digit. apply (parse_uint_acc d 8).
  - eval_digit. apply (parse_uint_acc d 9).
Qed.

Lemma digit_not_space (c : ascii) : Py.digit_val c <> None -> Py.is_space c = false.
Proof.
  unfold Py.digit_val, Py.is_space. cbv zeta.
  destruct ((48 <=? nat_of_ascii c)%nat && (nat_of_ascii c <=? 57)%nat) eqn:E;
    [| congruence].
  intros _. apply andb_true_iff in E. destruct E as [E1 E2].
  apply Nat.leb_le in E1. apply Nat.leb_le in E2.
  apply orb_false_iff. split; apply andb_false_iff.
  - right. apply Nat.leb_gt. lia.
  - right. apply Nat.leb_gt. lia.
Qed.

Lemma rstrip_no_space (l : list ascii) :
  Forall (fun c => Py.is_space c = false) l -> Py.rstrip_l l = l.
Proof.
  induction 1 as [| c l Hc Hl IH]; [reflexivity |].
  rewrite rstrip_l_cons by exact Hc. now rewrite IH.
Qed.

Lemma strip_no_space (l : list ascii) :
  Forall (fun c => Py.is_space c = false) l -> Py.rstrip_l (Py.lstrip_l l) = l.
Proof.
  intros H. rewrite lstrip_l_fixed; [now apply rstrip_no_space |].
  destruct l; [exact I | exact (Forall_inv H)].
Qed.

Lemma nilzero_uint (d : Decimal.uint) :
  exists c l,
    list_ascii_of_string (NilZero.string_of_uint d) = c :: l /\
    Forall (fun c => Py.digit_val c <> None) (c :: l) /\
    Py.parse_digits (c :: l) 0 false = Some (Z.of_uint d).
Proof.
  unfold Z.of_uint.
  destruct d eqn:Ed;
    try (exists "0"%char, []; repeat split;
         [repeat constructor; intros H; vm_compute in H; discriminate]; fail);
    rewrite <- Ed;
    assert (d <> Decimal.Nil) as Hne by (subst d; discriminate);
    assert (NilZero.string_of_uint d = NilEmpty.string_of_uint d) as ->
      by (subst d; reflexivity);
    pose proof (uint_chars_digits d) as Hdig;
    pose proof (parse_uint d false (or_introl Hne)) as Hparse;
    destruct (list_ascii_of_string (NilEmpty.string_of_uint d)) as [| c l] eqn:El;
    try (subst d; discriminate);
    exists c, l; repeat split; assumption.
Qed.

(** [int(str(n)) == n] *)
Lemma int_str_of_int (n : Z) : Py.int (Py.str_of_int n) = Some n.
Proof.
  unfold Py.int, Py.str_of_int.
  pose proof (DecimalZ.of_to n) as Hn.
  destruct n as [| p | p]; [reflexivity | |]; simpl in Hn;
    cbn [Z.to_int NilZero.string_of_int list_ascii_of_string].
  - destruct (nilzero_uint (Pos.to_uint p)) as (c & l & -> & Hdig & Hparse).
    rewrite strip_no_space
      by (eapply Forall_impl; [exact Hdig | intros x; apply digit_not_space]).
    pose proof (Forall_inv Hdig) as Hc.
    destruct (Ascii.eqb_spec c "-"); [subst c; exfalso; apply Hc; reflexivity |].
    destruct (Ascii.eqb_spec c "+"); [subst c; exfalso; apply Hc; reflexivity |].
    change (Py.parse_digits (c :: l) 0 false = Some (Z.pos p)).
    now rewrite Hparse, Hn.
  - destruct (nilzero_uint (Pos.to_uint p)) as (c & l & -> & Hdig & Hparse).
    rewrite strip_no_space.
    2:{ constructor; [reflexivity |].
        eapply Forall_impl; [exact Hdig | intros x; apply digit_not_space]. }
    change (option_map Z.opp (Py.parse_digits (c :: l) 0 false) = Some (Z.neg p)).
    rewrite Hparse. cbn [option_map]. f_equal. exact Hn.
Qed.

Lemma str_of_int_no_underscore (n : Z) :
  ~ In Py.underscore (list_ascii_of_string (Py.str_of_int n)).
Proof.
  unfold Py.str_of_int.
  destruct n as [| p | p]; simpl.
  - intros [H | []]. discriminate.
  - destruct (nilzero_uint (Pos.to_uint p)) as (c & l & -> & Hdig & _).
    intros Hin. rewrite List.Forall_forall in Hdig. apply (Hdig _ Hin). reflexivity.
  - destruct (nilzero_uint (Pos.to_uint p)) as (c & l & -> & Hdig & _).
    intros [H | Hin]; [discriminate |].
    rewrite List.Forall_forall in Hdig. apply (Hdig _ Hin). reflexivity.
Qed.

Lemma split_l_nonempty (sep : ascii) (l : list ascii) : Py.split_l sep l <> [].
Proof.
  destruct l as [| c l]; simpl; [discriminate |].
  destruct (Ascii.eqb c sep); [discriminate |].
  destruct (Py.split_l sep l); discriminate.
Qed.

Lemma split_l_whole (sep : ascii) (l : list ascii) :
  ~ In sep l -> Py.split_l sep l = [l].
Proof.
  induction l as [| c l IH]; intros Hn; simpl; [reflexivity |].
  destruct (Ascii.eqb_spec c sep) as [-> | Hne]; [exfalso; apply Hn; now left |].
  rewrite IH; [reflexivity |]. intros Hin. apply Hn. now right.
Qed.

Lemma last_cons_nonempty {A} (x : A) (l : list A) (d : A) :
  l <> [] -> List.last (x :: l) d = List.last l d.
Proof. destruct l; [congruence | reflexivity]. Qed.

(** The last field of a text that ends in a separator and a
    separator-free tail is that tail. *)
Lemma split_l_last (sep : ascii) (l1 l2 : list ascii) :
  ~ In sep l2 ->
  (2 <= length (Py.split_l sep (l1 ++ sep :: l2)))%nat /\
  List.last (Py.split_l sep (l1 ++ sep :: l2)) [] = l2.
Proof.
  intros Hn. induction l1 as [| c l1 [IHlen IH]]; simpl.
  - rewrite Ascii.eqb_refl, split_l_whole by exact Hn. simpl. split; [lia | reflexivity].
  - destruct (Ascii.eqb c sep).
    + split; [simpl; lia |].
      rewrite last_cons_nonempty; [exact IH | apply split_l_nonempty].
    + destruct (Py.split_l sep (l1 ++ sep :: l2)) as [| w [| w' ws]];
        simpl in IHlen; try lia.
      split; [simpl; lia | exact IH].
Qed.

Lemma list_ascii_of_string_app (s1 s2 : string) :
  list_ascii_of_string (s1 ++ s2)
  = (list_ascii_of_string s1 ++ list_ascii_of_string s2)%list.
Proof.
  induction s1 as [| c s1 IH]; simpl; [reflexivity |]. now rewrite IH.
Qed.

Lemma last_map_string (l : list (list ascii)) :
  List.last (map string_of_list_ascii l) EmptyString
  = string_of_list_ascii (List.last l []).
Proof.
  induction l as [| x [| y l] IH]; try reflexivity. exact IH.
Qed.

(** X19: the numeric id a neighbour search extracts from the image id of
    a search result is the index id the result was built from, whatever
    the model prefix; in particular an image id made of a prefix, an
    underscore and an integer yields that integer, also a negative one. *)
Theorem numeric_id_of_result_id (prefix : string) (hit : Q * Z * string) (n : Z) :
  numeric_id (image_id (make_result prefix hit)) = hit.1.2 /\
  numeric_id (prefix ++ "_" ++ Py.str_of_int n) = n /\
  numeric_id (Py.str_of_int n) = n.
Proof.
  assert (forall m, numeric_id (prefix ++ "_" ++ Py.str_of_int m) = m) as Hround.
  { intros m. unfold numeric_id, Py.split.
    rewrite last_map_string, list_ascii_of_string_app.
    change (list_ascii_of_string ("_" ++ Py.str_of_int m))
      with (Py.underscore :: list_ascii_of_string (Py.str_of_int m)).
    destruct (split_l_last Py.underscore (list_ascii_of_string prefix)
                (list_ascii_of_string (Py.str_of_int m))
                (str_of_int_no_underscore m)) as [_ ->].
    now rewrite string_of_list_ascii_of_string, int_str_of_int. }
  repeat apply conj.
  - destruct hit as [[sc idx] path]. cbn. apply Hround.
  - apply Hround.
  - unfold numeric_id, Py.split. rewrite last_map_string.
    rewrite split_l_whole by apply str_of_int_no_underscore. simpl.
    now rewrite string_of_list_ascii_of_string, int_str_of_int.
Qed.

End NumericId.

(** ** Mock results, metadata and the temporal service *)
Section ServiceResults.

Import SearchService.

Lemma append_inj_l (s a b : string) : (s ++ a = s ++ b)%string -> a = b.
Proof.
  induction s as [| c s IH]; simpl; [auto |]. intros [= H]. auto.
Qed.

Lemma str_of_int_inj (a b : Z) : Py.str_of_int a = Py.str_of_int b -> a = b.
Proof.
  intros H. pose proof (int_str_of_int a) as Ha. rewrite H, int_str_of_int in Ha.
  congruence.
Qed.

Lemma mock_score_range (i : Z) : 0 <= i <= 9 -> (0 <= mock_score i <= 9 # 10)%Q.
Proof.
  intros [H0 H9]. unfold mock_score.
  rewrite Zle_Qle in H0. rewrite Zle_Qle in H9.
  change (inject_Z 0) with 0%Q in H0. change (inject_Z 9) with 9%Q in H9. lra.
Qed.

Lemma mock_score_mono (i j : Z) : i <= j -> (mock_score j <= mock_score i)%Q.
Proof.
  intros H. unfold mock_score. rewrite Zle_Qle in H. lra.
Qed.

Lemma mock_sorted (search_type : string) (n : nat) (m : Z) :
  StronglySorted (desc score) (map (mock_result search_type) (seqZ m (Z.of_nat n))).
Proof.
  revert m. induction n as [| n IH]; intros m; [constructor |].
  rewrite seqZ_cons by lia. simpl.
  replace (Z.pred (Z.of_nat (S n))) with (Z.of_nat n) by lia.
  constructor; [apply IH |].
  rewrite List.Forall_forall. intros r Hr. apply in_map_iff in Hr.
  destruct Hr as (i & <- & Hi). apply list_elem_of_In in Hi.
  apply elem_of_seqZ in Hi. unfold desc. simpl. apply mock_score_mono. lia.
Qed.

(** X20: the mock results are at most ten and at most [limit] (none for
    [limit <= 0]); their scores descend from 0.9 in steps of 0.1 and stay
    within [[0, 0.9]], and their image ids are pairwise distinct. *)
Theorem mock_search_results_shape (limit : Z) (search_type query : string) :
  let rs := _mock_search_results limit search_type query in
  length rs = Z.to_nat (Z.min limit 10) /\
  (length rs <= 10)%nat /\
  (0 <= limit -> Z.of_nat (length rs) <= limit) /\
  StronglySorted (desc score) rs /\
  Forall (fun r => (0 <= score r <= 9 # 10)%Q) rs /\
  NoDup (map image_id rs) /\
  (forall i r, rs !! i = Some r -> (score r == (9 # 10) - inject_Z (Z.of_nat i) * (1 # 10))%Q).
Proof.
  intros rs. subst rs. unfold _mock_search_results.
  assert (length (map (mock_result search_type) (seqZ 0 (Z.min limit 10)))
          = Z.to_nat (Z.min limit 10)) as Hlen
    by (rewrite length_map, length_seqZ; reflexivity).
  repeat apply conj.
  - exact Hlen.
  - rewrite Hlen. lia.
  - intros H. rewrite Hlen. lia.
  - destruct (Z.le_gt_cases 0 (Z.min limit 10)) as [Hpos | Hneg].
    + rewrite <- (Z2Nat.id (Z.min limit 10)) by exact Hpos. apply mock_sorted.
    + rewrite seqZ_nil by lia. constructor.
  - rewrite List.Forall_forall. intros r Hr. apply in_map_iff in Hr.
    destruct Hr as (i & <- & Hi). apply list_elem_of_In in Hi.
    apply elem_of_seqZ in Hi. simpl. apply mock_score_range. lia.
  - rewrite map_map. apply NoDup_fmap_2; [| apply NoDup_seqZ].
    intros a b Hab. simpl in Hab.
    apply append_inj_l in Hab. apply append_inj_l in Hab.
    apply (append_inj_l "_") in Hab. now apply str_of_int_inj.
  - intros i r Hr. rewrite list_lookup_fmap in Hr.
    destruct (seqZ 0 (Z.min limit 10) !! i) as [z |] eqn:Ez; [| discriminate].
    apply lookup_seqZ in Ez. destruct Ez as [-> _]. injection Hr as <-.
    simpl. unfold mock_score. replace (0 + Z.of_nat i) with (Z.of_nat i) by lia.
    reflexivity.
Qed.

Lemma enhance_one_keeps (lookup : string -> result (option frame_metadata))
  (r : SearchResult) :
  image_id (enhance_one lookup r) = image_id r /\
  score (enhance_one lookup r) = score r /\
  link (enhance_one lookup r) = link r /\
  image_url (enhance_one lookup r) = image_url r /\
  (String.prefix "beit3_" (image_id r) = true -> enhance_one lookup r = r) /\
  (enhance_one lookup r = r \/
   exists md, lookup (image_id r) = Ok (Some md) /\
              video_id (enhance_one lookup r) = Some (filename md) /\
              shot_index (enhance_one lookup r) = meta_shot_index md /\
              frame_stamp (enhance_one lookup r) = timestamp md).
Proof.
  unfold enhance_one. destruct (String.prefix "beit3_" (image_id r)) eqn:Ep.
  - repeat split; auto.
  - destruct (lookup (image_id r)) as [[md |] | ex]; repeat split; auto; try discriminate.
    right. exists md. repeat split.
Qed.

(** X21: metadata enhancement keeps the number and order of the results
    and every result's image id, score, link and image URL; a [beit3_]
    result, a result without metadata and a result whose lookup raises
    are returned unchanged, and without a metadata service so is the
    whole list. *)
Theorem enhance_results_keeps_hits (svc : SearchService) (results : list SearchResult) :
  Forall2 (fun r r' =>
             image_id r' = image_id r /\ score r' = score r /\
             link r' = link r /\ image_url r' = image_url r /\
             (String.prefix "beit3_" (image_id r) = true -> r' = r) /\
             (forall lookup, metadata_service svc = Some lookup ->
                (forall md, lookup (image_id r) <> Ok (Some md)) -> r' = r))
          results (_enhance_results_with_metadata svc results) /\
  (metadata_service svc = None -> _enhance_results_with_metadata svc results = results).
Proof.
  unfold _enhance_results_with_metadata.
  destruct (metadata_service svc) as [lookup |]; split; try reflexivity; try discriminate.
  - apply Forall2_fmap_r. apply Forall_Forall2_diag.
    rewrite List.Forall_forall. intros r _.
    destruct (enhance_one_keeps lookup r) as (H1 & H2 & H3 & H4 & H5 & H6).
    repeat split; auto.
    intros lookup' [= <-] Hno. destruct H6 as [H6 | (md & Hmd & _)]; [exact H6 |].
    exfalso. exact (Hno md Hmd).
  - apply Forall_Forall2_diag. rewrite List.Forall_forall. intros r _.
    repeat split; auto.
Qed.

(** X22: for a query of several sentences the temporal service hands on
    the engine's answer: same calls, same sentences, shortlists and
    candidate videos, and the engine's results in order, which are sorted
    by descending score, name pairwise distinct videos and number at most
    [limit] when [limit > 0]; the engine is always run on [clip],
    [longclip] or [beit3]. *)
Theorem temporal_service_hands_on_engine_answer (e : Engine.MyFaiss) (query : string)
  (m : ModelType) (limit tps mcv w_min : Z) (w_max : option Z) (ss : list string)
  (ps : list Engine.sentence_units) (cv : list string)
  (rs : list Engine.aligned_result) :
  outcome (Engine.temporal_search e query limit (TemporalService.model_type_str m)
             tps mcv w_min w_max) = Ok (Engine.MultiSentence ss ps cv rs) ->
  exists data,
    TemporalService.temporal_search (Ok e) query m limit tps mcv w_min w_max
    = (log (Engine.temporal_search e query limit (TemporalService.model_type_str m)
              tps mcv w_min w_max), Ok data) /\
    TemporalService.sentences data = ss /\
    TemporalService.per_sentence data = ps /\
    TemporalService.candidate_videos data = cv /\
    map TemporalService.video_id (TemporalService.results data)
    = map Engine.result_video_id rs /\
    map TemporalService.frames (TemporalService.results data) = map Engine.frames rs /\
    map TemporalService.score (TemporalService.results data)
    = map Engine.result_score rs /\
    NoDup (map TemporalService.video_id (TemporalService.results data)) /\
    StronglySorted (desc TemporalService.score) (TemporalService.results data) /\
    (0 < limit -> Z.of_nat (length (TemporalService.results data)) <= limit) /\
    (TemporalService.model_type_str m = "clip"%string \/
     TemporalService.model_type_str m = "longclip"%string \/
     TemporalService.model_type_str m = "beit3"%string).
Proof.
  intros H.
  pose proof (multi_sentence_ranked _ _ _ _ _ _ _ _ _ _ _ _ H)
    as (Hsorted & Hnd & _ & _ & Hlen).
  eexists. split.
  - unfold TemporalService.temporal_search.
    set (body := bind _ _).
    assert (body = (log (Engine.temporal_search e query limit
                           (TemporalService.model_type_str m) tps mcv w_min w_max),
                    outcome (TemporalService.convert
                               (Engine.MultiSentence ss ps cv rs)))) as Hbody.
    { subst body. unfold bind at 1. cbn [fst snd app].
      rewrite (bind_ok _ _ _ H). cbn [TemporalService.convert ret log outcome fst snd].
      now rewrite app_nil_r. }
    rewrite Hbody. reflexivity.
  - cbn [TemporalService.sentences TemporalService.per_sentence
           TemporalService.candidate_videos TemporalService.results].
    rewrite !map_map. cbn [TemporalService.video_id TemporalService.frames
                             TemporalService.score].
    repeat apply conj; try reflexivity.
    + exact Hnd.
    + clear -Hsorted. induction Hsorted as [| r rs' Hs IH Hall]; simpl; constructor.
      * exact IH.
      * rewrite List.Forall_forall in *. intros x Hx. apply in_map_iff in Hx.
        destruct Hx as (y & <- & Hy). exact (Hall y Hy).
    + intros Hl. rewrite length_map. exact (Hlen Hl).
    + destruct m; cbn; auto.
Qed.

Lemma temporal_service_hands_on_engine_answer_witness :
  exists data,
    outcome (TemporalService.temporal_search (Ok Fixture.engine) "a. b" CLIP 5 3 30 1
               (Some 5)) = Ok data /\
    TemporalService.sentences data = ["a"; "b"]%string /\
    NoDup (map TemporalService.video_id (TemporalService.results data)).
Proof.
  assert (exists ps cv rs,
             outcome (Engine.temporal_search Fixture.engine "a. b" 5
                        (TemporalService.model_type_str CLIP) 3 30 1 (Some 5))
             = Ok (Engine.MultiSentence ["a"; "b"]%string ps cv rs)) as Hd.
  { vm_compute. do 3 eexists. reflexivity. }
  destruct Hd as (ps & cv & rs & Hd).
  destruct (temporal_service_hands_on_engine_answer Fixture.engine "a. b" CLIP 5 3 30 1
              (Some 5) ["a"; "b"]%string ps cv rs Hd)
    as (data & Hrun & Hss & _ & _ & _ & _ & _ & Hnd & _).
  exists data. split; [now rewrite Hrun |]. split; assumption.
Defined.

End ServiceResults.

(** ** The hits of a single-model text search *)
Section SingleModelHits.

Import SearchService.

Lemma enhance_maps (svc : SearchService) (l : list SearchResult) :
  map image_id (_enhance_results_with_metadata svc l) = map image_id l /\
  map link (_enhance_results_with_metadata svc l) = map link l /\
  map score (_enhance_results_with_metadata svc l) = map score l.
Proof.
  unfold _enhance_results_with_metadata.
  destruct (metadata_service svc) as [lookup |]; [| auto].
  rewrite !map_map. repeat split; apply map_ext; intros r;
    destruct (enhance_one_keeps lookup r) as (H1 & H2 & H3 & _); assumption.
Qed.

(** X23: the hits of a successful single-model text search have pairwise
    distinct image ids and number at most [limit] (for [limit >= 1]);
    each is built from one zipped triple of the engine's answer: its id is
    the model name, an underscore and the index id, its link the
    non-empty path, its score the triple's score. *)
Theorem text_search_hits_distinct (svc : SearchService) (e : Engine.MyFaiss)
  (query : string) (m : ModelType) (limit : Z) (found : list Q * list Z * list string) :
  faiss_engine svc = Some e -> m <> ALL ->
  outcome (Engine.text_search e query limit (value m)) = Ok found ->
  exists hits,
    outcome (text_search svc query m limit) = Ok hits /\
    NoDup (map image_id hits) /\
    (1 <= limit -> Z.of_nat (length hits) <= limit) /\
    Forall (fun r => exists s idx p,
              In (s, idx, p) (zip3 found) /\
              image_id r = (value m ++ "_" ++ Py.str_of_int idx)%string /\
              link r = Some p /\ p <> EmptyString /\ score r = s /\
              (similarity_threshold m <= s)%Q) hits.
Proof.
  intros He Hm Hfound.
  set (results :=
         map (make_result (value m))
           (List.filter (fun h => Py.truthy h.2
                                  && Qle_bool (similarity_threshold m) h.1.1)
              (zip3 found))).
  assert (Forall (fun r => exists s idx p,
                    In (s, idx, p) (zip3 found) /\
                    image_id r = (value m ++ "_" ++ Py.str_of_int idx)%string /\
                    link r = Some p /\ p <> EmptyString /\ score r = s /\
                    (similarity_threshold m <= s)%Q) results) as Hres.
  { subst results. rewrite List.Forall_forall. intros r Hr.
    apply in_map_iff in Hr. destruct Hr as ([[s idx] p] & <- & Hin).
    apply filter_In in Hin. destruct Hin as [Hin Hc]. simpl in Hc.
    apply andb_true_iff in Hc. destruct Hc as [Hp Hs].
    apply Qle_bool_iff in Hs.
    exists s, idx, p. cbn. repeat split; auto. intros ->. discriminate. }
  assert (exists hits,
             outcome (single_model_search svc e query m limit) = Ok hits /\
             exists base, sublist base results /\
               NoDup (map image_id base) /\
               (1 <= limit -> Z.of_nat (length base) <= limit) /\
               map image_id hits = map image_id base /\
               map link hits = map link base /\
               map score hits = map score base) as (hits & Hout & base & Hsub & Hnd & Hlen & Hid & Hlink & Hscore).
  { unfold single_model_search. rewrite outcome_bind, Hfound. fold results.
    destruct results as [| r0 rest] eqn:Er.
    - exists []. split; [reflexivity |]. exists []. repeat split; try constructor.
      simpl. lia.
    - rewrite <- Er.
      destruct (unique_loop_spec limit results [] ∅) as (suffix & Heq & Hs & Hn & Hl & _).
      + intros x. simpl. set_solver.
      + constructor.
      + eexists. split; [reflexivity |]. exists suffix.
        unfold _remove_duplicates. rewrite Heq. simpl in *.
        destruct (enhance_maps svc suffix) as (H1 & H2 & H3).
        repeat split; auto. intros H. apply Hl. lia. }
  exists hits. split.
  - unfold text_search. rewrite He.
    assert (outcome (match m with
                     | ALL => _search_all_models e query limit
                     | _ => single_model_search svc e query m limit
                     end) = Ok hits) as Hbody by (destruct m; congruence).
    rewrite (try_except_ok _ _ _ Hbody). exact Hbody.
  - assert (length hits = length base) as Hl2.
    { apply (f_equal length) in Hid. now rewrite !length_map in Hid. }
    repeat apply conj.
    + now rewrite Hid.
    + intros H. rewrite Hl2. now apply Hlen.
    + apply Forall_lookup. intros i r Hr.
      assert (exists b, base !! i = Some b) as [b Hb].
      { apply lookup_lt_is_Some. rewrite <- Hl2. eapply lookup_lt_Some. exact Hr. }
      assert (In b results) as Hin.
      { apply list_elem_of_In. eapply sublist_subseteq; [exact Hsub |].
        eapply list_elem_of_lookup_2. exact Hb. }
      rewrite List.Forall_forall in Hres.
      destruct (Hres b Hin) as (s & idx & p & H1 & H2 & H3 & H4 & H5 & H6).
      assert (image_id r = image_id b /\ link r = link b /\ score r = score b)
        as (E1 & E2 & E3).
      { repeat split.
        - apply (f_equal (fun l => l !! i)) in Hid.
          rewrite !list_lookup_fmap, Hr, Hb in Hid. now injection Hid.
        - apply (f_equal (fun l => l !! i)) in Hlink.
          rewrite !list_lookup_fmap, Hr, Hb in Hlink. now injection Hlink.
        - apply (f_equal (fun l => l !! i)) in Hscore.
          rewrite !list_lookup_fmap, Hr, Hb in Hscore. now injection Hscore. }
      exists s, idx, p. rewrite E1, E2, E3. repeat split; auto.
Qed.

Lemma text_search_hits_distinct_witness :
  exists hits,
    outcome (text_search Fixture.service "a dog" CLIP 3) = Ok hits /\
    NoDup (map image_id hits) /\
    (1 <= 3 -> Z.of_nat (length hits) <= 3).
Proof.
  assert (exists found,
             outcome (Engine.text_search Fixture.engine "a dog" 3 (value CLIP)) = Ok found)
    as [found Hf].
  { vm_compute. eexists. reflexivity. }
  destruct (text_search_hits_distinct Fixture.service Fixture.engine "a dog" CLIP 3
              found eq_refl ltac:(discriminate) Hf)
    as (hits & Hout & Hnd & Hlen & _).
  exists hits. repeat split; assumption.
Defined.

End SingleModelHits.
